(** * node-spark: version acquisition and activation pipeline

    A shallow embedding of the Go sources of node-spark (internal/fetch.go,
    internal/extract.go, the install, use and windows files of package
    internal, pkg/config.go) together with the properties of the
    specification that are checked against them.

    Conventions.
    - A Go [string] is a sequence of bytes: Rocq's [string].
    - Go's [int] is 64 bits wide and is modelled in [Z]; the only place
      where the width matters is [Strconv.Atoi], which rejects values
      outside the 64-bit range.
    - The file system is a finite map from lexically cleaned paths to
      nodes; the operations of package [os] are total functions on it.
    - Code that returns [error] runs in a state-and-error monad [M]; the
      state holds the shared [*pkg.Config], the file system and the lines
      written to standard output.
    - Everything the program reads from outside (platform, home directory,
      HTTP responses, archive decoders, the user's answer) is a field of the
      record [Env]. *)

From stdpp Require Import gmap strings list fin_maps sorting.
From Stdlib Require Import ZArith Ascii DecimalString Lia.
From Stdlib Require String.

Local Open Scope Z_scope.

(* ================================================================== *)
(** ** Package strings *)

Module Strings.

(** [strip p s] is [Some r] when [s = p ++ r]. *)
Fixpoint strip (p s : string) : option string :=
  match p with
  | EmptyString => Some s
  | String a p' =>
      match s with
      | EmptyString => None
      | String b s' => if Ascii.eqb a b then strip p' s' else None
      end
  end.

Definition HasPrefix (s prefix : string) : bool :=
  match strip prefix s with Some _ => true | None => false end.

Definition TrimPrefix (s prefix : string) : string :=
  match strip prefix s with Some r => r | None => s end.

Fixpoint rev_onto (s acc : string) : string :=
  match s with
  | EmptyString => acc
  | String c s' => rev_onto s' (String c acc)
  end.

Definition reverse (s : string) : string := rev_onto s EmptyString.

Definition HasSuffix (s suffix : string) : bool :=
  HasPrefix (reverse s) (reverse suffix).

Definition TrimSuffix (s suffix : string) : string :=
  match strip (reverse suffix) (reverse s) with
  | Some r => reverse r
  | None => s
  end.

(** [split_by f s] cuts [s] at every byte satisfying [f]; it is
    [strings.Split] for a one-byte separator and always returns at least
    one field. *)
Fixpoint split_by (f : ascii → bool) (s : string) : list string :=
  match s with
  | EmptyString => [EmptyString]
  | String c s' =>
      if f c then EmptyString :: split_by f s'
      else match split_by f s' with
           | h :: t => String c h :: t
           | [] => [String c EmptyString]
           end
  end.

Definition Split (s : string) (sep : ascii) : list string :=
  split_by (Ascii.eqb sep) s.
Global Arguments Split s sep%_char.

(** [cut s sep]: the text before and after the first [sep]. *)
Fixpoint cut (s : string) (sep : ascii) : option (string * string) :=
  match s with
  | EmptyString => None
  | String c s' =>
      if Ascii.eqb sep c then Some (EmptyString, s')
      else match cut s' sep with
           | Some (a, b) => Some (String c a, b)
           | None => None
           end
  end.

(** [strings.SplitN(s, sep, n)] for [n >= 0] and a one-byte separator. *)
Fixpoint SplitN (s : string) (sep : ascii) (n : nat) : list string :=
  match n with
  | O => []
  | S O => [s]
  | S n' =>
      match cut s sep with
      | Some (a, b) => a :: SplitN b sep n'
      | None => [s]
      end
  end.

Global Arguments cut s sep%_char.
Global Arguments SplitN s sep%_char n%_nat.

Definition Join (elems : list string) (sep : string) : string :=
  String.concat sep elems.

Fixpoint map_bytes (f : ascii → ascii) (s : string) : string :=
  match s with
  | EmptyString => EmptyString
  | String c s' => String (f c) (map_bytes f s')
  end.

(** ASCII case folding, as [strings.ToLower] does on ASCII input. *)
Definition lower_byte (c : ascii) : ascii :=
  let n := nat_of_ascii c in
  if (Nat.leb 65 n && Nat.leb n 90)%bool then ascii_of_nat (n + 32) else c.

Definition ToLower (s : string) : string := map_bytes lower_byte s.

Definition is_space (c : ascii) : bool :=
  let n := nat_of_ascii c in
  (Nat.eqb n 32 || (Nat.leb 9 n && Nat.leb n 13))%bool.

Fixpoint trim_left (s : string) : string :=
  match s with
  | EmptyString => EmptyString
  | String c s' => if is_space c then trim_left s' else s
  end.

Definition TrimSpace (s : string) : string :=
  reverse (trim_left (reverse (trim_left s))).

End Strings.

(* ================================================================== *)
(** ** Package strconv *)

Module Strconv.

Definition digit (c : ascii) : option Z :=
  let n := nat_of_ascii c in
  if (Nat.leb 48 n && Nat.leb n 57)%bool then Some (Z.of_nat n - 48) else None.

Fixpoint digits (s : string) (acc : Z) : option Z :=
  match s with
  | EmptyString => Some acc
  | String c s' =>
      match digit c with
      | Some d => digits s' (acc * 10 + d)
      | None => None
      end
  end.

Definition unsigned (s : string) : option Z :=
  match s with
  | EmptyString => None
  | _ => digits s 0
  end.

Definition in_int_range (z : Z) : bool :=
  ((- 2 ^ 63 <=? z) && (z <=? 2 ^ 63 - 1))%bool.

(** [strconv.Atoi]: an optional sign, then at least one decimal digit and
    nothing else; the value has to fit a 64-bit [int]. [None] stands for
    a non-nil error. *)
Definition Atoi (s : string) : option Z :=
  let signed :=
    match s with
    | String "-" r => option_map Z.opp (unsigned r)
    | String "+" r => unsigned r
    | _ => unsigned s
    end in
  match signed with
  | Some z => if in_int_range z then Some z else None
  | None => None
  end.

End Strconv.

(* ================================================================== *)
(** ** Package path/filepath

    A path is parsed into [(rooted, elements)]: whether it starts with a
    separator, and its elements after lexical cleaning (no empty element,
    no ".", and ".." only at the front of a path that is not rooted).
    [Clean] prints the parsed path back, which is what Go's [Clean]
    computes byte by byte. Volume names (drive letters, UNC prefixes) are not
    modelled: on Windows the model covers paths without a volume name. *)

Module Filepath.

Definition path : Type := bool * list string.

Section Platform.
(** [windows] is [runtime.GOOS == "windows"]. *)
Variable windows : bool.

Definition Separator : ascii := if windows then "\"%char else "/"%char.

Definition IsPathSeparator (c : ascii) : bool :=
  Ascii.eqb c "/" || (windows && Ascii.eqb c "\").

Definition rooted (s : string) : bool :=
  match s with
  | String c _ => IsPathSeparator c
  | EmptyString => false
  end.

(** One element pushed on the (reversed) output of [Clean]. *)
Definition clean_step (r : bool) (out : list string) (c : string) : list string :=
  if decide (c = "" ∨ c = ".") then out
  else if decide (c = "..") then
    match out with
    | top :: rest => if decide (top = "..") then c :: out else rest
    | [] => if r then [] else [c]
    end
  else c :: out.

Definition clean_from (r : bool) (out : list string) (s : string) : list string :=
  fold_left (clean_step r) (Strings.split_by IsPathSeparator s) out.

Definition parse (s : string) : path :=
  (rooted s, rev (clean_from (rooted s) [] s)).

Definition show (p : path) : string :=
  let body := String.concat (String Separator "") p.2 in
  if p.1 then String Separator body
  else if decide (body = "") then "." else body.

Definition Clean (s : string) : string := show (parse s).

Definition FromSlash (s : string) : string :=
  Strings.map_bytes (λ c, if Ascii.eqb c "/" then Separator else c) s.

Fixpoint drop_empty (elem : list string) : list string :=
  match elem with
  | "" :: rest => drop_empty rest
  | _ => elem
  end.

(** [filepath.Join]: the elements from the first non-empty one on,
    separated and cleaned; the empty string when all are empty. *)
Definition Join (elem : list string) : string :=
  match drop_empty elem with
  | [] => ""
  | es => Clean (String.concat (String Separator "") es)
  end.

(** The text of [s] up to and including its last separator. *)
Fixpoint upto_last_sep (s : string) : option string :=
  match s with
  | EmptyString => None
  | String c s' =>
      match upto_last_sep s' with
      | Some p => Some (String c p)
      | None => if IsPathSeparator c then Some (String c "") else None
      end
  end.

Definition Dir (s : string) : string :=
  Clean (default "" (upto_last_sep s)).

(** The text of [s] from its last "." on, if that dot lies in the last
    element. *)
Fixpoint ext_from (s : string) : option string :=
  match s with
  | EmptyString => None
  | String c s' =>
      if IsPathSeparator c then Some (default "" (ext_from s'))
      else match ext_from s' with
           | Some e => Some e
           | None => if Ascii.eqb c "." then Some s else None
           end
  end.

Definition Ext (s : string) : string := default "" (ext_from s).

End Platform.

(** Operations on parsed paths, the same on every platform. *)

Definition parent (p : path) : path := (p.1, removelast p.2).

Definition name (p : path) : string := List.last p.2 "".

(** [strip_elems d l]: what is left of [l] after the elements [d]. *)
Fixpoint strip_elems (d l : list string) : option (list string) :=
  match d with
  | [] => Some l
  | x :: d' =>
      match l with
      | y :: l' => if decide (x = y) then strip_elems d' l' else None
      | [] => None
      end
  end.

(** [relative_to d p]: the elements that lead from directory [d] down to
    [p], when [p] is [d] or lies below it. *)
Definition relative_to (d p : path) : option (list string) :=
  if decide (d.1 = p.1) then
    match strip_elems d.2 p.2 with
    | Some rest => if decide (".." ∈ rest) then None else Some rest
    | None => None
    end
  else None.

(** [p] is [d] itself or lies (lexically) inside directory [d]. *)
Definition within (d p : path) : bool :=
  match relative_to d p with Some _ => true | None => false end.

Definition strictly_within (d p : path) : bool :=
  match relative_to d p with Some (_ :: _) => true | _ => false end.

End Filepath.

Import Filepath.

(* ================================================================== *)
(** ** Errors *)

Inductive errno := ENOENT | EEXIST | ENOTDIR | EISDIR | ENOTEMPTY | EINVAL | ELOOP.

(** Go's [error] values: those of package [os], those built with
    [fmt.Errorf] (with or without a wrapped cause), and those handed over by
    the libraries that are not modelled (net/http, the archive readers). *)
Inductive error :=
  | PathError (op : string) (e : errno)
  | Errorf (msg : string)
  | Wrapped (msg : string) (cause : error)
  | External (what : string).

Inductive res (A : Type) :=
  | Ok (a : A)
  | Err (e : error).
Global Arguments Ok {A} a.
Global Arguments Err {A} e.

#[global] Instance errno_eq_dec : EqDecision errno.
Proof. solve_decision. Defined.
#[global] Instance error_eq_dec : EqDecision error.
Proof. solve_decision. Defined.

Definition errno_text (e : errno) : string :=
  match e with
  | ENOENT => "no such file or directory"
  | EEXIST => "file exists"
  | ENOTDIR => "not a directory"
  | EISDIR => "is a directory"
  | ENOTEMPTY => "directory not empty"
  | EINVAL => "invalid argument"
  | ELOOP => "too many levels of symbolic links"
  end.

(** [err.Error()] *)
Fixpoint error_text (e : error) : string :=
  match e with
  | PathError op n => op +:+ ": " +:+ errno_text n
  | Errorf msg => msg
  | Wrapped msg cause => msg +:+ ": " +:+ error_text cause
  | External what => what
  end.

(* ================================================================== *)
(** ** Package os: the file system

    The file system maps a parsed path to the node stored there. The root
    of rooted paths, the working directory and the directories above it
    ("..", "../..") are not stored: they always exist. Paths are resolved
    lexically; only a symbolic link in the last position is followed
    ([Stat], opening a file). Permissions are recorded, never enforced, so
    an operation fails only for the structural reasons of [errno]. *)

Module Os.

Inductive node :=
  | Dir (perm : Z)
  | File (perm : Z) (data : string)
  | Symlink (target : string).

#[global] Instance node_eq_dec : EqDecision node.
Proof. solve_decision. Defined.

Abbreviation FS := (gmap path node).

Definition IsDir (n : node) : bool :=
  match n with Dir _ => true | _ => false end.

(** The directories that exist without being stored. *)
Definition base_dir (p : path) : bool :=
  forallb (λ c, bool_decide (c = "..")) p.2.

Definition lstat (fs : FS) (p : path) : option node :=
  if base_dir p then Some (Dir 493) else fs !! p.

(** The proper ancestors of [p], the nearest first. *)
Fixpoint ancestors_rev (r : bool) (rev_elems : list string) : list path :=
  match rev_elems with
  | [] => []
  | _ :: up => (r, rev up) :: ancestors_rev r up
  end.

Definition ancestors (p : path) : list path := ancestors_rev p.1 (rev p.2).

(** A regular file sits where a directory of [p] should be. *)
Definition blocked (fs : FS) (p : path) : bool :=
  existsb (λ q, match lstat fs q with Some (File _ _) => true | _ => false end)
          (ancestors p).

Inductive stat_result :=
  | StatOk (at_path : path) (n : node)
  | StatNotExist (at_path : path)
  | StatErr (e : errno).

Section Platform.
Variable windows : bool.

(** Where the link stored at [p] with text [target] points to. *)
Definition link_dest (p : path) (target : string) : path :=
  if rooted windows target then parse windows target
  else parse windows
         (show windows (parent p) +:+ String (Separator windows) target).

(** Follow the symbolic links at [p]; the kernel gives up with ELOOP
    after 40 of them. *)
Fixpoint follow (fuel : nat) (fs : FS) (p : path) : stat_result :=
  if blocked fs p then StatErr ENOTDIR
  else
    match lstat fs p with
    | Some (Symlink target) =>
        match fuel with
        | O => StatErr ELOOP
        | S fuel' => follow fuel' fs (link_dest p target)
        end
    | Some n => StatOk p n
    | None => StatNotExist p
    end.

Definition stat (fs : FS) (p : path) : stat_result := follow 40 fs p.

Definition dir_exists (fs : FS) (p : path) : bool :=
  match stat fs p with
  | StatOk _ (Dir _) => true
  | _ => false
  end.

(** [os.Mkdir] *)
Definition mkdir (fs : FS) (p : path) (perm : Z) : FS + errno :=
  match lstat fs p with
  | Some _ => inr EEXIST
  | None =>
      match stat fs (parent p) with
      | StatOk _ (Dir _) => inl (<[p := Dir perm]> fs)
      | StatOk _ _ => inr ENOTDIR
      | StatNotExist _ => inr ENOENT
      | StatErr e => inr e
      end
  end.

(** [os.MkdirAll], by recursion on the elements of the path, the last
    one first: stop at a path that exists, else make the parent and then
    the directory itself. *)
Fixpoint mkdir_all_rev (r : bool) (rev_elems : list string) (perm : Z)
    (fs : FS) : FS + errno :=
  match rev_elems with
  | [] => inl fs
  | _ :: up =>
      let p := (r, rev rev_elems) in
      match stat fs p with
      | StatOk _ (Dir _) => inl fs
      | StatOk _ _ => inr ENOTDIR
      | _ =>
          match mkdir_all_rev r up perm fs with
          | inr e => inr e
          | inl fs' =>
              match mkdir fs' p perm with
              | inl fs'' => inl fs''
              | inr e =>
                  match lstat fs' p with
                  | Some (Dir _) => inl fs'
                  | _ => inr e
                  end
              end
          end
      end
  end.

Definition mkdir_all (fs : FS) (p : path) (perm : Z) : FS + errno :=
  mkdir_all_rev p.1 (rev p.2) perm fs.

(** The entries below [p]. *)
Definition below (fs : FS) (p : path) : FS :=
  filter (λ kv, strictly_within p kv.1 = true) fs.

(** [os.Remove]: a file, a link, or an empty directory. *)
Definition remove (fs : FS) (p : path) : FS + errno :=
  if base_dir p then inr EINVAL
  else match fs !! p with
       | None => if blocked fs p then inr ENOTDIR else inr ENOENT
       | Some (Dir _) =>
           if decide (below fs p = ∅) then inl (delete p fs) else inr ENOTEMPTY
       | Some _ => inl (delete p fs)
       end.

(** [os.RemoveAll]: [p] and everything below it; a path that does not
    exist is not an error, "." is refused, and a directory that is not
    stored is emptied but cannot be removed itself. *)
Definition remove_all (fs : FS) (p : path) : FS * option errno :=
  if decide (p = (false, [])) then (fs, Some EINVAL)
  else
    let fs' := filter (λ kv, within p kv.1 = false) fs in
    if base_dir p then (fs', Some EINVAL) else (fs', None).

(** [os.Symlink(target, link)] *)
Definition symlink (fs : FS) (target : string) (p : path) : FS + errno :=
  match lstat fs p with
  | Some _ => inr EEXIST
  | None =>
      match stat fs (parent p) with
      | StatOk _ (Dir _) => inl (<[p := Symlink target]> fs)
      | StatOk _ _ => inr ENOTDIR
      | StatNotExist _ => inr ENOENT
      | StatErr e => inr e
      end
  end.

(** Writing [data] from offset 0 over [old] without truncating. *)
Definition overwrite (old data : string) : string :=
  data +:+ String.substring (String.length data)
             (String.length old - String.length data) old.

(** Open [p] for writing with O_CREATE (and O_TRUNC when [trunc]) and
    write [data] from the start of the file. *)
Definition write (fs : FS) (p : path) (trunc : bool) (perm : Z)
    (data : string) : FS + errno :=
  match stat fs p with
  | StatOk q (File m old) =>
      inl (<[q := File m (if trunc then data else overwrite old data)]> fs)
  | StatOk _ _ => inr EISDIR
  | StatNotExist q =>
      match stat fs (parent q) with
      | StatOk _ (Dir _) => inl (<[q := File perm data]> fs)
      | StatOk _ _ => inr ENOTDIR
      | StatNotExist _ => inr ENOENT
      | StatErr e => inr e
      end
  | StatErr e => inr e
  end.

(** [os.ReadFile] *)
Definition read (fs : FS) (p : path) : string + errno :=
  match stat fs p with
  | StatOk _ (File _ data) => inl data
  | StatOk _ _ => inr EISDIR
  | StatNotExist _ => inr ENOENT
  | StatErr e => inr e
  end.

End Platform.

(** The order in which [filepath.Walk] visits paths: element by element,
    each compared bytewise, a directory before what it contains. *)
Fixpoint walk_before (a b : list string) : bool :=
  match a, b with
  | [], _ => true
  | _ :: _, [] => false
  | x :: a', y :: b' =>
      match String.compare x y with
      | Lt => true
      | Gt => false
      | Eq => walk_before a' b'
      end
  end.

Definition walk_min (best : option path) (p : path) : option path :=
  match best with
  | None => Some p
  | Some q => if walk_before q.2 p.2 then Some q else Some p
  end.

(** The first path that a walk from [root] reports which is not a
    directory and is called [file_name]. Walk does not follow links; it
    reports nothing when [root] does not exist. *)
Definition walk_find (fs : FS) (root : path) (file_name : string) : option path :=
  match lstat fs root with
  | None => None
  | Some _ =>
      let hits :=
        filter (λ kv, within root kv.1 = true ∧ name kv.1 = file_name ∧
                      IsDir kv.2 = false) fs in
      foldl walk_min None (map fst (map_to_list hits))
  end.

End Os.

Import Os.

(* ================================================================== *)
(** ** Data of the program and of its environment *)

(** encoding/json values, as far as [interface{}] fields need them. *)
#[warnings="-register-all"]
Inductive json :=
  | JNull
  | JBool (b : bool)
  | JNumber (z : Z)
  | JString (s : string)
  | JArray (items : list json)
  | JObject (fields : list (string * json)).

(** internal.NodeVersion *)
Record NodeVersion := {
  Version : string;
  Date : string;
  Files : list string;
  LTS : json;
  Modules : json;
  NPM : string;
  V8 : string;
}.

(** pkg.Config *)
Record Config := {
  InstallPath : string;
  InstalledVersions : list string;
  ActiveVersion : string;
}.

(** What an HTTP GET yields: a transport error, or a status with the bytes
    of the body that could be read and the error that ended the reading, if
    any. *)
Inductive http_response :=
  | HttpError (e : error)
  | HttpReply (status : Z) (body : string) (body_err : option error).

Module Tar.
(** One entry of a tar stream: the fields of [tar.Header] that the
    program reads, the bytes that [io.Copy] gets out of the entry and the
    error that ends the copy, if any. *)
Record entry := {
  Name : string;
  Typeflag : ascii;
  Mode : Z;
  Linkname : string;
  content : string;
  content_err : option error;
}.
Definition TypeReg : ascii := "0".
Definition TypeSymlink : ascii := "2".
Definition TypeDir : ascii := "5".
(** The entries that [Next] returns, and how the stream ends: [None] for
    io.EOF, or the error of the last [Next]. *)
Record stream := {
  entries : list entry;
  ending : option error;
}.
End Tar.

Module Zip.
(** One [*zip.File]: name, permission bits, whether the stored attributes
    mark a directory, what [Open] returns and the error that ends the copy
    of the contents, if any. *)
Record file := {
  Name : string;
  Mode : Z;
  dir_attr : bool;
  content : res string;
  content_err : option error;
}.
(** [file.FileInfo().IsDir()]: a name ending in a slash is a directory
    whatever the attributes say. *)
Definition IsDir (f : file) : bool :=
  dir_attr f || Strings.HasSuffix (Name f) "/".
End Zip.

(** Everything the program takes from outside. *)
Record Env := {
  GOOS : string;                                   (* runtime.GOOS *)
  GOARCH : string;                                 (* runtime.GOARCH *)
  UserHomeDir : res string;                        (* os.UserHomeDir() *)
  TempDir : string;                                (* os.TempDir() *)
  http_get : string → http_response;               (* GET of a URL *)
  json_versions : string → res (list NodeVersion); (* json.Unmarshal into []NodeVersion *)
  json_raw : string → res (list (list (string * json)));
                                                   (* json.Unmarshal into []map[string]interface{} *)
  tar_gz_reader : string → res Tar.stream;         (* gzip.NewReader, tar.NewReader *)
  zip_reader : string → res (list Zip.file);       (* zip.OpenReader *)
  scanln : string;                                 (* what fmt.Scanln reads *)
  run_version : string → res string;               (* exec.Command(path, "--version") *)
  powershell : string → res string;                (* output of a PowerShell probe *)
  powershell_runs : bool;                          (* PowerShell can be started *)
  shim_order : list string;                        (* iteration order of the shim table *)
}.

Definition is_windows (E : Env) : bool := bool_decide (GOOS E = "windows").

(** The state the program works on: the configuration record that every
    command shares through a pointer, the file system, the lines printed so
    far, and the persistent PATH variable of the user (Windows). *)
Record State := {
  config : Config;
  fs : gmap path node;
  stdout : list string;
  user_PATH : string;
}.

(* ================================================================== *)
(** ** The monad of fallible, stateful code *)

Definition M (A : Type) : Type := State → res A * State.

#[global] Instance M_ret : MRet M := λ A a s, (Ok a, s).
#[global] Instance M_bind : MBind M := λ A B f m s,
  match m s with
  | (Ok a, s') => f a s'
  | (Err e, s') => (Err e, s')
  end.

Definition raise {A} (e : error) : M A := λ s, (Err e, s).

Definition lift {A} (r : res A) : M A := λ s, (r, s).

(** Run [m] and hand its outcome to the caller instead of returning on
    error: [if err := m(); err != nil { ... }]. *)
Definition try {A} (m : M A) : M (res A) := λ s,
  let '(r, s') := m s in (Ok r, s').

(** [fmt.Errorf(msg + ": %w", err)] on the error path of [m]. *)
Definition wrap {A} (msg : string) (m : M A) : M A := λ s,
  match m s with
  | (Err e, s') => (Err (Wrapped msg e), s')
  | ok => ok
  end.

(** [defer cleanup()] registered just before [body]: [cleanup] runs when
    [body] is left, on either path, and its own outcome is dropped. *)
Definition defer {A} (cleanup : M unit) (body : M A) : M A := λ s,
  let '(r, s') := body s in (r, (cleanup s').2).

(** [for _, x := range l { body(x) }]; an error returned by [body] leaves
    the loop and the function. *)
Fixpoint for_each {A} (l : list A) (body : A → M unit) : M unit :=
  match l with
  | [] => mret tt
  | x :: rest => body x ;; for_each rest body
  end.

Definition print (line : string) : M unit := λ s,
  (Ok tt, {| config := config s; fs := fs s; stdout := stdout s ++ [line];
             user_PATH := user_PATH s |}).

Definition get_config : M Config := λ s, (Ok (config s), s).

Definition set_config (c : Config) : M unit := λ s,
  (Ok tt, {| config := c; fs := fs s; stdout := stdout s; user_PATH := user_PATH s |}).

Definition get_fs : M (gmap path node) := λ s, (Ok (fs s), s).

Definition set_fs (f : gmap path node) : M unit := λ s,
  (Ok tt, {| config := config s; fs := f; stdout := stdout s; user_PATH := user_PATH s |}).

Definition get_user_PATH : M string := λ s, (Ok (user_PATH s), s).

Definition set_user_PATH (p : string) : M unit := λ s,
  (Ok tt, {| config := config s; fs := fs s; stdout := stdout s; user_PATH := p |}).

(** A file-system operation; failure becomes an [*os.PathError]. *)
Definition fs_op (op : string) (f : gmap path node → gmap path node + errno) : M unit :=
  cur ← get_fs;
  match f cur with
  | inl next => set_fs next
  | inr e => raise (PathError op e)
  end.

Definition show_Z (z : Z) : string :=
  DecimalString.NilZero.string_of_int (Z.to_int z).

Definition show_bool (b : bool) : string := if b then "true" else "false".

(** The double quote, carriage return and line feed. *)
Definition dq : string := String (ascii_of_nat 34) EmptyString.
Definition cr : string := String (ascii_of_nat 13) EmptyString.
Definition lf : string := String (ascii_of_nat 10) EmptyString.

(* ================================================================== *)
(** ** The program *)

Section Program.
Context (E : Env).

Definition windows : bool := is_windows E.

Definition PathSeparator : string := String (Separator windows) "".

(** *** Package os on path names

    The empty name is no path: every call on it fails with ENOENT, except
    [RemoveAll], which ignores it. *)

Definition to_path (name : string) : path := parse windows name.

Definition os_Stat (name : string) : M stat_result :=
  cur ← get_fs;
  mret (if decide (name = "") then StatNotExist (to_path name)
        else stat windows cur (to_path name)).

Definition os_Lstat (name : string) : M (option node) :=
  cur ← get_fs;
  mret (if decide (name = "") then None else lstat cur (to_path name)).

(** [os.IsNotExist(err)] and [err == nil] on the outcome of a Stat. *)
Definition IsNotExist (r : stat_result) : bool :=
  match r with StatNotExist _ => true | _ => false end.

Definition found (r : stat_result) : bool :=
  match r with StatOk _ _ => true | _ => false end.

Definition on_path (op name : string)
    (f : gmap path node → path → gmap path node + errno) : M unit :=
  if decide (name = "") then raise (PathError op ENOENT)
  else fs_op op (λ cur, f cur (to_path name)).

Definition os_MkdirAll (name : string) (perm : Z) : M unit :=
  on_path "mkdir" name (λ cur p, mkdir_all windows cur p perm).

Definition os_Remove (name : string) : M unit :=
  on_path "remove" name remove.

Definition os_RemoveAll (name : string) : M unit :=
  if decide (name = "") then mret tt
  else
    cur ← get_fs;
    let '(next, e) := remove_all cur (to_path name) in
    set_fs next ;;
    match e with
    | Some n => raise (PathError "RemoveAll" n)
    | None => mret tt
    end.

Definition os_Symlink (target link : string) : M unit :=
  on_path "symlink" link (λ cur p, symlink windows cur target p).

(** [os.OpenFile(name, O_CREATE|..., perm)] followed by the copy of [data]
    into the file; [trunc] says whether O_TRUNC is among the flags. *)
Definition open_and_write (name : string) (trunc : bool) (perm : Z)
    (data : string) : M unit :=
  on_path "open" name (λ cur p, write windows cur p trunc perm data).

Definition os_WriteFile (name : string) (data : string) (perm : Z) : M unit :=
  open_and_write name true perm data.

(** [os.Create(name)]: the file exists and is empty afterwards. *)
Definition os_Create (name : string) : M unit :=
  open_and_write name true 438 "".

Definition os_ReadFile (name : string) : M string :=
  if decide (name = "") then raise (PathError "open" ENOENT)
  else
    cur ← get_fs;
    match read windows cur (to_path name) with
    | inl data => mret data
    | inr e => raise (PathError "open" e)
    end.

(** The search that the program runs with [filepath.Walk]: the first
    regular entry called [file_name] under [root]. *)
Definition walk_for (root file_name : string) : M (option string) :=
  cur ← get_fs;
  mret (if decide (root = "") then None
        else show windows <$> walk_find cur (to_path root) file_name).

(** *** pkg/config.go *)

Definition GetInstallPath (c : Config) : string := InstallPath c.

(** *** internal/fetch.go *)

Definition lookup_field (item : list (string * json)) (key : string) : json :=
  match List.find (λ kv, bool_decide (kv.1 = key)) item with
  | Some kv => kv.2
  | None => JNull
  end.

Definition string_field (item : list (string * json)) (key : string) : string :=
  match lookup_field item key with JString s => s | _ => "" end.

(** The manual conversion of one decoded object. *)
Definition convert_raw (item : list (string * json)) : NodeVersion :=
  {| Version := string_field item "version";
     Date := string_field item "date";
     Files := match lookup_field item "files" with
              | JArray f => map (λ j, match j with JString s => s | _ => "" end) f
              | _ => []
              end;
     LTS := lookup_field item "lts";
     Modules := lookup_field item "modules";
     NPM := string_field item "npm";
     V8 := string_field item "v8" |}.

(** extractVersionNumbers *)
Definition extractVersionNumbers (version : string) : list Z :=
  let version := Strings.TrimPrefix version "v" in
  let parts := Strings.Split version "." in
  foldl (λ numbers part,
           let numPart := hd "" (Strings.Split part "-") in
           match Strconv.Atoi numPart with
           | Some num => numbers ++ [num]
           | None => numbers
           end) [] parts.

(** The comparison loop of the [less] closure in FetchAvailableVersions:
    the first position where the numbers differ decides; when there is
    none, the longer list wins. *)
Fixpoint less_numbers (vNumI vNumJ : list Z) : bool :=
  match vNumI, vNumJ with
  | x :: restI, y :: restJ =>
      if decide (x ≠ y) then bool_decide (y < x) else less_numbers restI restJ
  | _, _ => bool_decide (length vNumJ < length vNumI)%nat
  end.

Definition less (vi vj : NodeVersion) : bool :=
  less_numbers (extractVersionNumbers (Version vi))
               (extractVersionNumbers (Version vj)).

(** [sort.Slice(versions, less)]. Go does not say where elements go for
    which [less] fails both ways; the merge sort used here is one of the
    orders that it may produce. *)
Definition not_after (vi vj : NodeVersion) : Prop := less vj vi = false.

#[global] Instance not_after_dec : RelDecision not_after.
Proof. intros vi vj. unfold not_after. apply _. Defined.

Definition sort_Slice (versions : list NodeVersion) : list NodeVersion :=
  merge_sort not_after versions.

Definition index_url : string := "https://nodejs.org/dist/index.json".

Definition FetchAvailableVersions : M (list NodeVersion) :=
  print "Fetching Node.js versions from https://nodejs.org/dist/index.json..." ;;
  match http_get E index_url with
  | HttpError e =>
      print ("Error fetching version index: " +:+ error_text e) ;;
      raise (Wrapped "failed to fetch version index" e)
  | HttpReply status body body_err =>
      if decide (status ≠ 200) then
        print ("Bad status code: " +:+ show_Z status) ;;
        raise (Errorf ("failed to fetch version index: status code " +:+ show_Z status))
      else
        match body_err with
        | Some e =>
            print ("Error reading response body: " +:+ error_text e) ;;
            raise (Wrapped "failed to read version index body" e)
        | None =>
            if decide (Strings.TrimSpace body = "") then
              print "Received empty response body" ;;
              raise (Errorf "received empty response body")
            else
              versions ←
                match json_versions E body with
                | Ok versions =>
                    print ("Successfully parsed " +:+ show_Z (Z.of_nat (length versions))
                           +:+ " Node.js versions") ;;
                    mret versions
                | Err err =>
                    print ("JSON parse error: " +:+ error_text err) ;;
                    match json_raw E body with
                    | Err err2 =>
                        print ("Even flexible parsing failed: " +:+ error_text err2) ;;
                        let debugFile :=
                          Filepath.Join windows [TempDir E; "node_versions_response.json"] in
                        try (os_WriteFile debugFile body 420) ;;
                        print ("Saved failed response to " +:+ debugFile +:+ " for debugging") ;;
                        raise (Wrapped "failed to parse version index" err)
                    | Ok rawData =>
                        let versions := map convert_raw rawData in
                        print ("Manual parsing succeeded with "
                               +:+ show_Z (Z.of_nat (length versions)) +:+ " versions") ;;
                        mret versions
                    end
                end;
              mret (sort_Slice versions)
        end
  end.

(** NodeVersion.IsLTS, LTSName, GetVersionString, CleanVersion *)
Definition IsLTS (v : NodeVersion) : bool :=
  match LTS v with
  | JBool lts => lts
  | JString lts => bool_decide (lts ≠ "")
  | _ => false
  end.

Definition LTSName (v : NodeVersion) : string :=
  match LTS v with
  | JString lts => lts
  | _ => ""
  end.

Definition GetVersionString (v : NodeVersion) : string :=
  if IsLTS v then
    let ltsName := LTSName v in
    if decide (ltsName ≠ "") then Version v +:+ " (LTS: " +:+ ltsName +:+ ")"
    else Version v +:+ " (LTS)"
  else Version v.

Definition CleanVersion (v : NodeVersion) : string :=
  Strings.TrimPrefix (Version v) "v".

Definition blank_version : NodeVersion :=
  {| Version := ""; Date := ""; Files := []; LTS := JNull; Modules := JNull;
     NPM := ""; V8 := "" |}.

(** FetchVersionDetails *)
Definition FetchVersionDetails (versionQuery : string) : M NodeVersion :=
  versions ← FetchAvailableVersions;
  let versionQuery :=
    if negb (Strings.HasPrefix versionQuery "v") then "v" +:+ versionQuery
    else versionQuery in
  match List.find (λ v, bool_decide (Version v = versionQuery)) versions with
  | Some v => mret v
  | None => raise (Errorf ("version " +:+ versionQuery +:+ " not found in Node.js index"))
  end.

(** DownloadFile. The progress bar that is drawn while the body is copied
    is not modelled; the line break printed after it is. *)
Definition DownloadFile (filepath url : string) : M unit :=
  match http_get E url with
  | HttpError e => raise e
  | HttpReply status body body_err =>
      if decide (status ≠ 200) then raise (Errorf ("bad status: " +:+ show_Z status))
      else
        os_Create filepath ;;
        open_and_write filepath true 438 body ;;
        print "" ;;
        match body_err with
        | Some e => raise e
        | None => mret tt
        end
  end.

(** *** internal/extract.go *)

(** One round of the loop of extractTarGz. *)
Definition extract_tar_entry (destPath : string) (header : Tar.entry) : M unit :=
  let parts := Strings.SplitN (Tar.Name header) (Separator windows) 2 in
  match parts with
  | [_; rest] =>
      let target := Filepath.Join windows [destPath; rest] in
      if decide (Tar.Typeflag header = Tar.TypeDir) then
        os_MkdirAll target (Tar.Mode header)
      else if decide (Tar.Typeflag header = Tar.TypeReg) then
        os_MkdirAll (Filepath.Dir windows target) 493 ;;
        open_and_write target false (Tar.Mode header) (Tar.content header) ;;
        match Tar.content_err header with
        | Some e => raise e
        | None => mret tt
        end
      else if decide (Tar.Typeflag header = Tar.TypeSymlink) then
        os_MkdirAll (Filepath.Dir windows target) 493 ;;
        if negb windows then
          r ← try (os_Symlink (Tar.Linkname header) target);
          match r with
          | Err e =>
              print ("Warning: Failed to create symlink " +:+ target +:+ " -> "
                     +:+ Tar.Linkname header +:+ ": " +:+ error_text e)
          | Ok _ => mret tt
          end
        else
          print ("Skipping symlink creation on Windows: " +:+ target +:+ " -> "
                 +:+ Tar.Linkname header)
      else
        print ("Unsupported tar entry type " +:+ String (Tar.Typeflag header) ""
               +:+ " for " +:+ Tar.Name header)
  | _ => mret tt
  end.

(** extractTarGz *)
Definition extractTarGz (archivePath destPath : string) : M unit :=
  bytes ← os_ReadFile archivePath;
  tarReader ← lift (tar_gz_reader E bytes);
  for_each (Tar.entries tarReader) (extract_tar_entry destPath) ;;
  match Tar.ending tarReader with
  | Some e => raise e
  | None => mret tt
  end.

(** The first loop of extractZip: the first element of the first name. *)
Fixpoint top_level_dir (files : list Zip.file) : string :=
  match files with
  | [] => ""
  | file :: rest =>
      let normalizedPath := FromSlash windows (Zip.Name file) in
      match Strings.Split normalizedPath (Separator windows) with
      | part :: _ => part
      | [] => top_level_dir rest
      end
  end.

(** One round of the second loop of extractZip. *)
Definition extract_zip_file (destPath topLevelDir : string) (file : Zip.file) : M unit :=
  let normalizedPath := FromSlash windows (Zip.Name file) in
  if decide (normalizedPath = topLevelDir +:+ "/" ∨ normalizedPath = topLevelDir) then
    mret tt
  else
    let targetPath :=
      if Strings.HasPrefix normalizedPath topLevelDir then
        let relativePath := Strings.TrimPrefix normalizedPath topLevelDir in
        let relativePath := Strings.TrimPrefix relativePath PathSeparator in
        let relativePath := Strings.TrimPrefix relativePath "/" in
        Filepath.Join windows [destPath; relativePath]
      else
        Filepath.Join windows [destPath; normalizedPath] in
    let cleanedTarget := Clean windows targetPath in
    if negb (Strings.HasPrefix cleanedTarget (Clean windows destPath)) then
      print ("Warning: Skipping potentially unsafe path: " +:+ Zip.Name file)
    else if Zip.IsDir file then
      os_MkdirAll cleanedTarget (Zip.Mode file)
    else
      os_MkdirAll (Filepath.Dir windows cleanedTarget) 493 ;;
      if Strings.HasSuffix cleanedTarget PathSeparator then mret tt
      else
        open_and_write cleanedTarget true (Zip.Mode file) "" ;;
        data ← lift (Zip.content file);
        open_and_write cleanedTarget true (Zip.Mode file) data ;;
        match Zip.content_err file with
        | Some e => raise e
        | None => mret tt
        end.

(** The check that follows the extraction of a zip archive on Windows:
    when node.exe is not at the top of the destination, look for it below
    and copy it up. *)
Definition repair_node_exe (destPath : string) : M unit :=
  let nodePath := Filepath.Join windows [destPath; "node.exe"] in
  st ← os_Stat nodePath;
  if IsNotExist st then
    hit ← walk_for destPath "node.exe";
    match hit with
    | Some nodeExePath =>
        print ("Found node.exe at " +:+ nodeExePath +:+ ", copying to root directory") ;;
        r ← try (os_ReadFile nodeExePath);
        match r with
        | Ok data =>
            w ← try (os_WriteFile nodePath data 493);
            match w with
            | Err e => print ("Warning: Failed to copy node.exe to root: " +:+ error_text e)
            | Ok _ => mret tt
            end
        | Err _ => mret tt
        end
    | None => print "Warning: node.exe not found in the extracted files"
    end
  else mret tt.

(** extractZip *)
Definition extractZip (archivePath destPath : string) : M unit :=
  bytes ← os_ReadFile archivePath;
  files ← lift (zip_reader E bytes);
  let topLevelDir := top_level_dir files in
  if decide (topLevelDir = "") then raise (Errorf "no files found in archive")
  else
    print ("Detected top-level directory: " +:+ topLevelDir) ;;
    for_each files (extract_zip_file destPath topLevelDir) ;;
    if windows then repair_node_exe destPath else mret tt.

(** ExtractArchive *)
Definition ExtractArchive (archivePath destPath : string) : M unit :=
  let ext := Ext windows archivePath in
  if bool_decide (ext = ".gz")
     && Strings.HasSuffix (Strings.TrimSuffix archivePath ext) ".tar" then
    extractTarGz archivePath destPath
  else if decide (ext = ".zip") then
    extractZip archivePath destPath
  else
    raise (Errorf ("unsupported archive format: " +:+ ext)).

(** *** internal/windows.go *)

(** The table of shims: file name and template. *)
Definition binaries : list (string * (string → string)) :=
  let template := λ target, "@echo off" +:+ cr +:+ lf +:+ dq +:+ target +:+ dq +:+ " %*" in
  [("node.exe", template); ("npm.cmd", template); ("npx.cmd", template)].

Definition template_of (binary : string) : option (string → string) :=
  snd <$> List.find (λ kv, bool_decide (kv.1 = binary)) binaries.

Definition errorShim : string :=
  "@echo off" +:+ cr +:+ lf
  +:+ "echo Node.js executable could not be found. Please reinstall this version."
  +:+ cr +:+ lf +:+ "exit /b 1".

(** The search for node.exe that opens CreateWindowsShims; it yields the
    directory that the shims will point into. *)
Definition locate_node_dir (nodeBinPath : string) : M string :=
  let nodePath := Filepath.Join windows [nodeBinPath; "node.exe"] in
  st ← os_Stat nodePath;
  if IsNotExist st then
    print ("Node.exe not found at expected path: " +:+ nodePath) ;;
    let binDir := Filepath.Join windows [nodeBinPath; "bin"] in
    let binNodePath := Filepath.Join windows [binDir; "node.exe"] in
    st2 ← os_Stat binNodePath;
    if found st2 then
      print ("Found node.exe in bin subdirectory: " +:+ binNodePath) ;;
      mret binDir
    else
      hit ← walk_for nodeBinPath "node.exe";
      match hit with
      | Some nodeExePath =>
          print ("Found node.exe at " +:+ nodeExePath) ;;
          mret (Filepath.Dir windows nodeExePath)
      | None => mret nodeBinPath
      end
  else mret nodeBinPath.

(** The first of [alternatives] that exists in [nodeBinPath]. *)
Fixpoint find_alternative (nodeBinPath binary : string) (alternatives : list string)
    : M string :=
  match alternatives with
  | [] => mret ""
  | alt :: rest =>
      let altPath := Filepath.Join windows [nodeBinPath; alt] in
      st ← os_Stat altPath;
      if found st then
        print ("Found alternative for " +:+ binary +:+ ": " +:+ altPath) ;;
        mret altPath
      else find_alternative nodeBinPath binary rest
  end.

(** One round of the loop over the shim table. *)
Definition create_shim (nodeBinPath shimDir binary : string)
    (template : string → string) : M unit :=
  let sourcePath := Filepath.Join windows [nodeBinPath; binary] in
  st ← os_Stat sourcePath;
  if IsNotExist st then
    print ("Warning: " +:+ binary +:+ " not found in " +:+ nodeBinPath
           +:+ ", skipping shim creation") ;;
    if decide (binary = "npm.cmd" ∨ binary = "npx.cmd") then
      let baseName := Strings.TrimSuffix binary ".cmd" in
      let alternatives := [baseName; baseName +:+ ".bat"; baseName] in
      foundPath ← find_alternative nodeBinPath binary alternatives;
      if decide (foundPath ≠ "") then
        let shimPath := Filepath.Join windows [shimDir; binary] in
        wrap ("failed to create shim for " +:+ binary)
             (os_WriteFile shimPath (template foundPath) 493)
      else mret tt
    else mret tt
  else
    let shimPath := Filepath.Join windows [shimDir; binary] in
    wrap ("failed to create shim for " +:+ binary)
         (os_WriteFile shimPath (template sourcePath) 493).

(** CreateWindowsShims. Go leaves the order in which the table is ranged
    over open; the model takes it from the environment. *)
Definition CreateWindowsShims (nodeBinPath shimDir : string) : M unit :=
  wrap "failed to create shim directory" (os_MkdirAll shimDir 493) ;;
  nodeBinPath ← locate_node_dir nodeBinPath;
  for_each (shim_order E)
    (λ binary,
       match template_of binary with
       | Some template => create_shim nodeBinPath shimDir binary template
       | None => mret tt
       end) ;;
  let nodeShimPath := Filepath.Join windows [shimDir; "node.exe"] in
  st ← os_Stat nodeShimPath;
  if IsNotExist st then
    wrap "failed to create error shim for node.exe"
         (os_WriteFile nodeShimPath errorShim 493) ;;
    print "WARNING: node.exe could not be found in the installed files." ;;
    print "A placeholder shim has been created. Consider reinstalling this version."
  else mret tt.

(** [s] occurs in [text]: strings.Contains, and .Contains of PowerShell. *)
Fixpoint Contains (text s : string) : bool :=
  Strings.HasPrefix text s ||
  match text with
  | EmptyString => false
  | String _ rest => Contains rest s
  end.

(** UpdateWindowsPath: two PowerShell commands. The first appends the
    shim directory to the persistent PATH of the user unless it occurs
    there; the second changes the PATH of the PowerShell process only. *)
Definition UpdateWindowsPath (shimDir : string) : M unit :=
  (if powershell_runs E then
     current ← get_user_PATH;
     if Contains current shimDir then mret tt
     else set_user_PATH (current +:+ ";" +:+ shimDir)
   else print "Warning: Could not update User PATH: exec: powershell") ;;
  (if powershell_runs E then mret tt
   else print "Warning: Could not update Process PATH: exec: powershell").

Definition activation_script (shimDir version : string) : string :=
  String.concat lf
    ["# Node.js activation script for Windows";
     "# This script updates your current terminal's PATH to use Node.js " +:+ version;
     EmptyString;
     "$ErrorActionPreference = " +:+ dq +:+ "Stop" +:+ dq;
     "$shimDir = " +:+ dq +:+ shimDir +:+ dq;
     EmptyString;
     "if (-not $env:Path.Contains($shimDir)) {";
     "    $env:Path = " +:+ dq +:+ "$shimDir;$env:Path" +:+ dq;
     "}";
     EmptyString;
     "# Verify node is accessible with proper error handling";
     "try {";
     "    # First check if the executable exists";
     "    $nodePath = Join-Path $shimDir " +:+ dq +:+ "node.exe" +:+ dq;
     "    if (-not (Test-Path $nodePath)) {";
     "        throw " +:+ dq +:+ "Node.js executable not found at $nodePath" +:+ dq;
     "    }";
     "    ";
     "    # Try running node with safe approach using ProcessStartInfo to properly handle failures";
     "    $psi = New-Object System.Diagnostics.ProcessStartInfo";
     "    $psi.FileName = $nodePath";
     "    $psi.Arguments = " +:+ dq +:+ "--version" +:+ dq;
     "    $psi.RedirectStandardOutput = $true";
     "    $psi.RedirectStandardError = $true";
     "    $psi.UseShellExecute = $false";
     "    $psi.CreateNoWindow = $true";
     "    ";
     "    $process = New-Object System.Diagnostics.Process";
     "    $process.StartInfo = $psi";
     "    ";
     "    try {";
     "        [void]$process.Start()";
     "        $stdout = $process.StandardOutput.ReadToEnd()";
     "        $stderr = $process.StandardError.ReadToEnd()";
     "        $process.WaitForExit()";
     "        ";
     "        if ($process.ExitCode -eq 0) {";
     "            Write-Host " +:+ dq +:+ "Node.js $stdout is now active in this terminal session." +:+ dq;
     "        } else {";
     "            throw " +:+ dq +:+ "Node.js failed to execute properly (Exit code: $($process.ExitCode)). Error: $stderr" +:+ dq;
     "        }";
     "    } catch {";
     "        throw " +:+ dq +:+ "Failed to run Node.js: $_" +:+ dq;
     "    }";
     "} catch {";
     "    Write-Host " +:+ dq +:+ "Warning: Node.js activation failed." +:+ dq +:+ " -ForegroundColor Yellow";
     "    Write-Host " +:+ dq +:+ "Error: $_" +:+ dq +:+ " -ForegroundColor Red";
     "    Write-Host " +:+ dq +:+ dq;
     "    Write-Host " +:+ dq +:+ "This is likely due to an architecture mismatch." +:+ dq +:+ " -ForegroundColor Yellow";
     "    Write-Host " +:+ dq +:+ "Please reinstall Node.js with the x86 (32-bit) version:" +:+ dq +:+ " -ForegroundColor Yellow";
     "    Write-Host " +:+ dq +:+ "  nsk uninstall " +:+ version +:+ dq +:+ " -ForegroundColor Cyan";
     "    Write-Host " +:+ dq +:+ "  nsk install " +:+ version +:+ dq +:+ " -ForegroundColor Cyan";
     "    Write-Host " +:+ dq +:+ dq;
     "    Write-Host " +:+ dq +:+ "After reinstalling, run the following to try again:" +:+ dq +:+ " -ForegroundColor Yellow";
     "    Write-Host " +:+ dq +:+ "  nsk use " +:+ version +:+ dq +:+ " -ForegroundColor Cyan";
     "}"] +:+ lf.

(** CreateWindowsActivationScript *)
Definition CreateWindowsActivationScript (shimDir version : string) : M string :=
  let activateScript := Filepath.Join windows [shimDir; "activate.ps1"] in
  wrap "could not create activation script"
       (os_WriteFile activateScript (activation_script shimDir version) 493) ;;
  mret activateScript.

(** IsProperArchForSystem *)
Definition IsProperArchForSystem (nodePath : string) : bool :=
  match run_version E nodePath with Ok _ => true | Err _ => false end.

(** *** internal/use.go *)

Definition set_active (version : string) : M unit :=
  c ← get_config;
  set_config {| InstallPath := InstallPath c;
                InstalledVersions := InstalledVersions c;
                ActiveVersion := version |}.

Definition set_installed (versions : list string) : M unit :=
  c ← get_config;
  set_config {| InstallPath := InstallPath c;
                InstalledVersions := versions;
                ActiveVersion := ActiveVersion c |}.

(** useVersionWindows *)
Definition useVersionWindows (version versionPath : string) : M unit :=
  homeDir ← wrap "could not get home directory" (lift (UserHomeDir E));
  let nodeBinPath := Filepath.Join windows [versionPath; "bin"] in
  st ← os_Stat nodeBinPath;
  let nodeBinPath := if IsNotExist st then versionPath else nodeBinPath in
  let shimDir := Filepath.Join windows [homeDir; ".node-spark"; "shims"] in
  CreateWindowsShims nodeBinPath shimDir ;;
  r ← try (UpdateWindowsPath shimDir);
  match r with
  | Err e => print ("Warning: Could not fully update PATH environment: " +:+ error_text e)
  | Ok _ => mret tt
  end ;;
  r ← try (CreateWindowsActivationScript shimDir version);
  activateScript ←
    match r with
    | Err e => print ("Warning: " +:+ error_text e) ;; mret ""
    | Ok activateScript => mret activateScript
    end;
  set_active version ;;
  let nodePath := Filepath.Join windows [shimDir; "node.exe"] in
  (if negb (IsProperArchForSystem nodePath) then
     print "Warning: The installed Node.js binary may not be compatible with your system." ;;
     print "You might need to install a different architecture version."
   else mret tt) ;;
  print ("Created shims in " +:+ shimDir) ;;
  print ("Node.js " +:+ version +:+ " should now be available in new terminal windows.") ;;
  print ("For immediate use in your current terminal, run: . " +:+ activateScript).

(** useVersionPosix *)
Definition useVersionPosix (version versionPath : string) : M unit :=
  homeDir ← wrap "could not get home directory" (lift (UserHomeDir E));
  let symlinkDir := Filepath.Join windows [homeDir; ".node-spark"; "current"] in
  wrap "failed to create parent directory for symlink"
       (os_MkdirAll (Filepath.Dir windows symlinkDir) 493) ;;
  existing ← os_Lstat symlinkDir;
  match existing with
  | Some _ => wrap "failed to remove existing symlink" (os_Remove symlinkDir)
  | None => mret tt
  end ;;
  wrap "failed to create symlink" (os_Symlink versionPath symlinkDir) ;;
  set_active version ;;
  print ("Successfully switched to Node.js " +:+ version) ;;
  print ("Make sure " +:+ symlinkDir +:+ "/bin is in your PATH") ;;
  print (lf +:+ "To ensure the Node.js version persists in new terminal sessions, "
         +:+ "add this to your shell config file:") ;;
  print ("export PATH=" +:+ dq +:+ symlinkDir +:+ "/bin:$PATH" +:+ dq).

Definition not_installed (version : string) : error :=
  Errorf ("version " +:+ version +:+ " is not installed").

(** UseVersion *)
Definition UseVersion (version : string) : M unit :=
  c ← get_config;
  let versionPath := Filepath.Join windows [GetInstallPath c; version] in
  st ← os_Stat versionPath;
  if IsNotExist st then raise (not_installed version)
  else
    print ("Switching to Node.js version " +:+ version +:+ "...") ;;
    if windows then useVersionWindows version versionPath
    else useVersionPosix version versionPath.

(** SetActiveVersion *)
Definition SetActiveVersion (version : string) : M unit :=
  c ← get_config;
  let versionPath := Filepath.Join windows [GetInstallPath c; version] in
  st ← os_Stat versionPath;
  if IsNotExist st then raise (not_installed version)
  else
    UseVersion version ;;
    set_active version ;;
    print ("Set active Node.js version to " +:+ version).

Definition no_active_version : error := Errorf "no active Node.js version set".

(** GetActiveVersion *)
Definition GetActiveVersion : M string :=
  c ← get_config;
  if decide (ActiveVersion c = "") then raise no_active_version
  else mret (ActiveVersion c).

(** ListInstalledVersions *)
Definition ListInstalledVersions : M (list string) :=
  c ← get_config;
  mret (InstalledVersions c).

(** The loop of UninstallVersion: the slice without the first element
    equal to [version]. *)
Fixpoint remove_first (version : string) (versions : list string) : list string :=
  match versions with
  | [] => []
  | v :: rest => if decide (v = version) then rest else v :: remove_first version rest
  end.

Definition active_version_error : error :=
  Errorf "cannot uninstall the currently active version; switch to another version first".

(** UninstallVersion *)
Definition UninstallVersion (version : string) : M unit :=
  c ← get_config;
  if decide (ActiveVersion c = version) then raise active_version_error
  else
    let versionPath := Filepath.Join windows [GetInstallPath c; version] in
    st ← os_Stat versionPath;
    if IsNotExist st then raise (not_installed version)
    else
      wrap "failed to remove version directory" (os_RemoveAll versionPath) ;;
      set_installed (remove_first version (InstalledVersions c)) ;;
      print ("Successfully uninstalled Node.js version " +:+ version).

(** *** The install file of package internal *)

Definition probe (command : string) (fallback : bool) : bool :=
  match powershell E command with
  | Ok output => bool_decide (Strings.TrimSpace output = "True")
  | Err _ => fallback
  end.

(** detectSystemInfo: architecture, operating system and archive
    extension in the words of the Node.js download site. *)
Definition detectSystemInfo : M (string * string * string) :=
  let osName := GOOS E in
  os_ext ←
    (if decide (osName = "linux") then mret ("linux", "tar.gz")
     else if decide (osName = "darwin") then mret ("darwin", "tar.gz")
     else if decide (osName = "windows") then mret ("win", "zip")
     else raise (Errorf ("unsupported operating system: " +:+ osName)));
  let '(nodeOS, ext) := os_ext in
  if decide (osName = "windows") then
    let is64BitOS :=
      probe "[Environment]::Is64BitOperatingSystem"
            (bool_decide (GOARCH E = "amd64") || bool_decide (GOARCH E = "arm64")) in
    let is32BitProcess :=
      probe "![Environment]::Is64BitProcess" (bool_decide (GOARCH E = "386")) in
    let isARM :=
      probe "(Get-WmiObject -Class Win32_Processor | Select-Object -First 1).Architecture -in @(5, 12)"
            false in
    print "System architecture detection:" ;;
    print ("- 64-bit OS: " +:+ show_bool is64BitOS) ;;
    print ("- 32-bit process: " +:+ show_bool is32BitProcess) ;;
    print ("- ARM processor: " +:+ show_bool isARM) ;;
    print "Using x86 architecture for better compatibility" ;;
    mret ("x86", nodeOS, ext)
  else
    nodeArch ←
      (if decide (GOARCH E = "amd64") then mret "x64"
       else if decide (GOARCH E = "386") then mret "x86"
       else if decide (GOARCH E = "arm64") then mret "arm64"
       else if decide (GOARCH E = "arm") then mret "armv7l"
       else raise (Errorf ("unsupported architecture: " +:+ GOARCH E)));
    mret (nodeArch, nodeOS, ext).

Definition archive_name (versionStr nodeOS nodeArch ext : string) : string :=
  "node-" +:+ versionStr +:+ "-" +:+ nodeOS +:+ "-" +:+ nodeArch +:+ "." +:+ ext.

Definition archive_url (versionStr filename : string) : string :=
  "https://nodejs.org/dist/" +:+ versionStr +:+ "/" +:+ filename.

(** Step 4 of InstallNodeVersion: the download, with the second attempt
    for the other architecture on Windows. It yields the name and the
    path of the archive that was written. *)
Definition download_archive (versionStr nodeOS nodeArch ext : string)
    : M (string * string) :=
  let filename := archive_name versionStr nodeOS nodeArch ext in
  let downloadURL := archive_url versionStr filename in
  let archivePath := Filepath.Join windows [TempDir E; filename] in
  print ("Downloading " +:+ filename +:+ " from " +:+ downloadURL +:+ "...") ;;
  r ← try (DownloadFile archivePath downloadURL);
  match r with
  | Ok _ => mret (filename, archivePath)
  | Err err =>
      if windows && bool_decide (nodeArch = "x64") then
        print "x64 download failed, trying x86 version instead..." ;;
        let nodeArch := "x86" in
        let filename := archive_name versionStr nodeOS nodeArch ext in
        let downloadURL := archive_url versionStr filename in
        let archivePath := Filepath.Join windows [TempDir E; filename] in
        wrap "failed to download Node.js archive" (DownloadFile archivePath downloadURL) ;;
        mret (filename, archivePath)
      else raise (Wrapped "failed to download Node.js archive" err)
  end.

(** Step 6: on Windows the extracted node.exe has to exist and to run. *)
Definition verify_installation (versionDir : string) : M unit :=
  if windows then
    let nodePath := Filepath.Join windows [versionDir; "node.exe"] in
    st ← os_Stat nodePath;
    nodePath ←
      (if IsNotExist st then
         let nodePath := Filepath.Join windows [versionDir; "bin"; "node.exe"] in
         st2 ← os_Stat nodePath;
         if IsNotExist st2 then raise (Errorf "node executable not found after extraction")
         else mret nodePath
       else mret nodePath);
    match run_version E nodePath with
    | Err e => raise (Wrapped "installed node binary is invalid" e)
    | Ok output =>
        print ("Verified installation with output: " +:+ Strings.TrimSpace output)
    end
  else mret tt.

(** The question asked at the end of an installation when no version is
    active. *)
Definition offer_activation (version : string) : M unit :=
  c ← get_config;
  if decide (ActiveVersion c = "") then
    print "No Node.js version is currently active." ;;
    print ("Would you like to use Node.js " +:+ version +:+ " now? [Y/n] ") ;;
    let response := Strings.ToLower (scanln E) in
    if decide (response = "" ∨ response = "y" ∨ response = "yes") then
      r ← try (SetActiveVersion version);
      match r with
      | Err e => print ("Warning: Failed to set active version: " +:+ error_text e)
      | Ok _ => print ("Node.js " +:+ version +:+ " is now active.")
      end
    else mret tt
  else mret tt.

(** Step 7: the identifier is appended to the installed versions unless it
    is among them. *)
Definition record_installed (cleanVersion : string) : M unit :=
  c ← get_config;
  if bool_decide (cleanVersion ∈ InstalledVersions c) then mret tt
  else set_installed (InstalledVersions c ++ [cleanVersion]).

(** InstallNodeVersion *)
Definition InstallNodeVersion (version : string) : M unit :=
  print ("Installing Node.js version " +:+ version +:+ "...") ;;
  let cleanVersion := Strings.TrimPrefix version "v" in
  c ← get_config;
  if bool_decide (cleanVersion ∈ InstalledVersions c) then
    print ("Node.js version " +:+ cleanVersion +:+ " is already installed. Use 'nsk use "
           +:+ cleanVersion +:+ "' to switch to it.")
  else
    let installPath := GetInstallPath c in
    let versionDir := Filepath.Join windows [installPath; version] in
    wrap ("failed to create installation directory " +:+ installPath)
         (os_MkdirAll installPath 493) ;;
    wrap ("failed to create version directory " +:+ versionDir)
         (os_MkdirAll versionDir 493) ;;
    let versionStr :=
      if negb (Strings.HasPrefix version "v") then "v" +:+ version else version in
    info ← detectSystemInfo;
    let '(nodeArch, nodeOS, ext) := info in
    got ← download_archive versionStr nodeOS nodeArch ext;
    let '(filename, archivePath) := got in
    defer (os_Remove archivePath)
      (print "Download complete." ;;
       print ("Extracting " +:+ filename +:+ " to " +:+ versionDir +:+ "...") ;;
       wrap "failed to extract Node.js archive" (ExtractArchive archivePath versionDir) ;;
       print "Extraction complete." ;;
       verify_installation versionDir ;;
       record_installed cleanVersion ;;
       print ("Successfully installed Node.js version " +:+ version +:+ ".") ;;
       offer_activation version).

(** InstallVersion *)
Definition InstallVersion (version : string) : M unit := InstallNodeVersion version.

End Program.
(* ================================================================== *)
(** ** The program, continued: data, first run, configuration file,
       commands *)

Section More.
Context (E : Env).

(** [os.IsNotExist(err)] on an error value: the errors of package os are
    looked into, those made by fmt.Errorf are not. *)
Definition is_not_exist (err : error) : bool :=
  match err with
  | PathError _ ENOENT => true
  | _ => false
  end.

(** *** internal/utils.go *)

(** WipeAllData *)
Definition WipeAllData : M unit :=
  homeDir ← wrap "failed to get home directory" (lift (UserHomeDir E));
  let nodesparkDir := Filepath.Join (windows E) [homeDir; ".node-spark"] in
  print "🧹 Wiping all node-spark data..." ;;
  st ← os_Stat E nodesparkDir;
  if IsNotExist st then print "No node-spark data found to wipe."
  else
    let versionsDir := Filepath.Join (windows E) [nodesparkDir; "versions"] in
    st ← os_Stat E versionsDir;
    (if found st then
       print "- Removing installed Node.js versions..." ;;
       wrap "failed to remove versions directory" (os_RemoveAll E versionsDir)
     else mret tt) ;;
    let shimsDir := Filepath.Join (windows E) [nodesparkDir; "shims"] in
    st ← os_Stat E shimsDir;
    (if found st then
       print "- Removing Node.js shims..." ;;
       wrap "failed to remove shims directory" (os_RemoveAll E shimsDir)
     else mret tt) ;;
    let currentDir := Filepath.Join (windows E) [nodesparkDir; "current"] in
    st ← os_Stat E currentDir;
    (if found st then
       print "- Removing current Node.js symlink..." ;;
       wrap "failed to remove current symlink" (os_RemoveAll E currentDir)
     else mret tt) ;;
    let configFile := Filepath.Join (windows E) [nodesparkDir; "config.json"] in
    st ← os_Stat E configFile;
    (if found st then
       print "- Removing configuration..." ;;
       wrap "failed to remove config file" (os_Remove E configFile)
     else mret tt) ;;
    let firstRunMarker :=
      Filepath.Join (windows E) [nodesparkDir; ".first_run_complete"] in
    st ← os_Stat E firstRunMarker;
    (if found st then
       r ← try (os_Remove E firstRunMarker);
       match r with
       | Err err =>
           print ("Warning: Failed to remove first run marker: " +:+ error_text err)
       | Ok _ => mret tt
       end
     else mret tt) ;;
    print "- Removing node-spark directory..." ;;
    wrap "failed to remove node-spark directory" (os_RemoveAll E nodesparkDir).

(** *** The global-installation file of package internal *)

(** IsFirstRun. The outcomes of MkdirAll and WriteFile are dropped. *)
Definition IsFirstRun : M bool :=
  match UserHomeDir E with
  | Err _ => mret true
  | Ok homeDir =>
      let nodesparkDir := Filepath.Join (windows E) [homeDir; ".node-spark"] in
      let firstRunMarker :=
        Filepath.Join (windows E) [nodesparkDir; ".first_run_complete"] in
      st ← os_Stat E firstRunMarker;
      if IsNotExist st then
        try (os_MkdirAll E nodesparkDir 493) ;;
        try (os_WriteFile E firstRunMarker "" 420) ;;
        mret true
      else mret false
  end.

(** The permission bits of [FileInfo.Mode()] that OpenFile takes over. *)
Definition perm_of (n : node) : Z :=
  match n with
  | Dir perm => perm
  | File perm _ => perm
  | Symlink _ => 511
  end.

(** copyFile. [os.Open] follows links and also opens a directory; the
    bytes that io.Copy reads are those that the source held when it was
    opened, and reading a directory fails. *)
Definition copyFile (src dst : string) : M unit :=
  opened ← os_Stat E src;
  match opened with
  | StatNotExist _ => raise (PathError "open" ENOENT)
  | StatErr e => raise (PathError "open" e)
  | StatOk _ source =>
      let mode := perm_of source in
      st ← os_Stat E dst;
      (if found st then os_Remove E dst else mret tt) ;;
      match source with
      | File _ data => open_and_write E dst true mode data
      | _ => open_and_write E dst true mode "" ;; raise (PathError "read" EISDIR)
      end
  end.

(** *** internal/install.go *)

(** getNodeDownloadURL: the URL and the file name. *)
Definition getNodeDownloadURL (version : string) : res (string * string) :=
  let arch := GOARCH E in
  let osName := GOOS E in
  match (if decide (arch = "amd64") then Some "x64"
         else if decide (arch = "386") then Some "x86"
         else if decide (arch = "arm64") then Some "arm64"
         else if decide (arch = "arm") then Some "armv7l"
         else None) with
  | None => Err (Errorf ("unsupported architecture: " +:+ arch))
  | Some nodeArch =>
      match (if decide (osName = "linux") then Some ("linux", "tar.gz")
             else if decide (osName = "darwin") then Some ("darwin", "tar.gz")
             else if decide (osName = "windows") then Some ("win", "zip")
             else None) with
      | None => Err (Errorf ("unsupported operating system: " +:+ osName))
      | Some (nodeOS, ext) =>
          let versionPrefix :=
            if negb (Strings.HasPrefix version "v") then "v" +:+ version else version in
          let filename :=
            "node-" +:+ versionPrefix +:+ "-" +:+ nodeOS +:+ "-" +:+ nodeArch
            +:+ "." +:+ ext in
          let url := "https://nodejs.org/dist/" +:+ versionPrefix +:+ "/" +:+ filename in
          Ok (url, filename)
      end
  end.

(** *** internal/use.go, continued *)

(** [filepath.EvalSymlinks]: the path that [name] leads to, if there is
    something. *)
Definition EvalSymlinks (cur : gmap path node) (name : string) : option string :=
  match stat (windows E) cur (to_path E name) with
  | StatOk q _ => Some (show (windows E) q)
  | _ => None
  end.

(** GetActiveNodeVersion *)
Definition GetActiveNodeVersion : M string :=
  homeDir ← wrap "could not get home directory" (lift (UserHomeDir E));
  let symlinkPath := Filepath.Join (windows E) [homeDir; ".node-spark"; "current"] in
  cur ← get_fs;
  match EvalSymlinks cur symlinkPath with
  | Some linkDest =>
      let parts := Strings.Split linkDest (Separator (windows E)) in
      mret (List.last parts "")
  | None =>
      match run_version E "node" with
      | Ok output => mret (Strings.TrimPrefix (Strings.TrimSpace output) "v")
      | Err _ => raise (Errorf "no active Node.js version found")
      end
  end.

(** ListAvailableNodeVersions *)
Definition ListAvailableNodeVersions : M (list string) :=
  versions ← wrap "failed to fetch available versions" (FetchAvailableVersions E);
  mret (map GetVersionString versions).

(** *** pkg/config.go

    What encoding/json makes of a [Config] and of the bytes of a
    configuration file is taken from outside. *)

Context (json_marshal : Config → res string).   (* json.MarshalIndent(config, "", "  ") *)
Context (json_unmarshal : string → res Config). (* json.Unmarshal(data, &config) *)

(** LoadConfig *)
Definition LoadConfig (configPath : string) : M Config :=
  r ← try (os_ReadFile E configPath);
  match r with
  | Err err =>
      if is_not_exist err then
        let installPath :=
          Filepath.Join (windows E) [Filepath.Dir (windows E) configPath; "versions"] in
        mret {| InstallPath := installPath; InstalledVersions := [];
                ActiveVersion := "" |}
      else raise err
  | Ok data =>
      match json_unmarshal data with
      | Err err => raise err
      | Ok config =>
          if decide (InstallPath config = "") then
            mret {| InstallPath :=
                      Filepath.Join (windows E)
                        [Filepath.Dir (windows E) configPath; "versions"];
                    InstalledVersions := InstalledVersions config;
                    ActiveVersion := ActiveVersion config |}
          else mret config
      end
  end.

(** SaveConfig *)
Definition SaveConfig (configPath : string) (config : Config) : M unit :=
  let configDir := Filepath.Dir (windows E) configPath in
  os_MkdirAll E configDir 493 ;;
  data ← lift (json_marshal config);
  os_WriteFile E configPath data 420.

(** GetConfigPath. Without a home directory it panics; the panic is the
    error here. *)
Definition GetConfigPath : res string :=
  match UserHomeDir E with
  | Err err => Err (Errorf ("Could not get user home directory: " +:+ error_text err))
  | Ok homeDir => Ok (Filepath.Join (windows E) [homeDir; ".node-spark"; "config.json"])
  end.

(** *** Package cmd

    The variable [cfg] is the configuration of the state; [cfgPath] is
    handed from the hook to the command. *)

(** PersistentPreRunE of the root command, the flag --wipe not given. *)
Definition PersistentPreRunE : M string :=
  cfgPath ← lift GetConfigPath;
  c ← LoadConfig cfgPath;
  set_config c ;;
  mret cfgPath.

(** The commands install, use and uninstall, each run after the hook. *)
Definition installCmd (version : string) : M unit :=
  cfgPath ← PersistentPreRunE;
  InstallVersion E version ;;
  c ← get_config;
  SaveConfig cfgPath c.

Definition useCmd (version : string) : M unit :=
  cfgPath ← PersistentPreRunE;
  SetActiveVersion E version ;;
  c ← get_config;
  SaveConfig cfgPath c.

Definition uninstallCmd (version : string) : M unit :=
  cfgPath ← PersistentPreRunE;
  UninstallVersion E version ;;
  c ← get_config;
  SaveConfig cfgPath c.

(** The command current. *)
Definition currentCmd : M unit :=
  PersistentPreRunE ;;
  r ← try GetActiveVersion;
  match r with
  | Err err =>
      if decide (error_text err = "no active Node.js version set") then
        print "No active Node.js version set. Use 'nsk use <version>' to set one."
      else raise err
  | Ok version => print ("Currently active Node.js version: " +:+ version)
  end.

(** The command list. *)
Definition listCmd : M unit :=
  PersistentPreRunE ;;
  versions ← ListInstalledVersions;
  r ← try GetActiveVersion;
  let activeVersion := match r with Ok v => v | Err _ => "" end in
  if decide (length versions = 0%nat) then print "No Node.js versions installed yet."
  else
    print "Installed Node.js versions:" ;;
    for_each versions
      (λ v, if decide (v = activeVersion) then print (" * " +:+ v +:+ " (active)")
            else print ("   " +:+ v)).

End More.

(* ================================================================== *)
(** ** Reasoning about code in [M] *)

(** [returns Q m]: whenever [m] returns without error, its value
    satisfies [Q]. *)
Definition returns {A} (Q : A → Prop) (m : M A) : Prop :=
  ∀ s a s', m s = (Ok a, s') → Q a.

(** [preserves R m]: the state in which [m] ends, with or without error,
    is related by [R] to the state in which it started. *)
Definition preserves {A} (R : relation State) (m : M A) : Prop :=
  ∀ s, R s (m s).2.

(** [wp m s Q]: running [m] in state [s] ends with an outcome and a state
    that satisfy [Q]. *)
Definition wp {A} (m : M A) (s : State) (Q : res A → State → Prop) : Prop :=
  Q (m s).1 (m s).2.

(** A relation that the bookkeeping of [M] respects: a preorder that does
    not look at the lines printed. *)
Class Frame (R : relation State) := {
  frame_preorder :: PreOrder R;
  frame_print s line : R s (print line s).2;
}.

(** A relation that does not look at the file system or at the PATH. *)
Class FsBlind (R : relation State) := {
  blind_fs s f : R s (set_fs f s).2;
  blind_PATH s p : R s (set_user_PATH p s).2;
}.

(** A relation that allows for what the calls of package os that add to the
    file system do, and for a change of the PATH. *)
Class OsFrame (E : Env) (R : relation State) := {
  frame_MkdirAll name perm : preserves R (os_MkdirAll E name perm);
  frame_Symlink target link : preserves R (os_Symlink E target link);
  frame_write name trunc perm data : preserves R (open_and_write E name trunc perm data);
  frame_set_user_PATH p : preserves R (set_user_PATH p);
}.

(** A relation that does not look at the configuration. *)
Class ConfigBlind (R : relation State) := {
  blind_config s c : R s (set_config c s).2;
}.

(** A relation on configurations, read as a relation on states. *)
Definition on_config (Rc : relation Config) : relation State :=
  λ s s', Rc (config s) (config s').

(** What activating [v] may do to the configuration. *)
Definition activates (v : string) : relation Config :=
  λ c c', InstallPath c' = InstallPath c ∧
          InstalledVersions c' = InstalledVersions c ∧
          (ActiveVersion c' = ActiveVersion c ∨ ActiveVersion c' = v).

(** The parts of the state that outlive a command: everything but the lines
    printed. *)
Definition same_world (s1 s2 : State) : Prop :=
  config s1 = config s2 ∧ fs s1 = fs s2 ∧ user_PATH s1 = user_PATH s2.

(* ================================================================== *)
(** ** Notions of the specification *)

(** The numeric components of a version. *)
Definition numbers (v : NodeVersion) : list Z := extractVersionNumbers (Version v).

(** "Numeric comparison of dot-separated version components": [older xs ys]
    when the first component in which [xs] and [ys] differ is smaller in
    [xs], or when [xs] ends before an such component is found. *)
Inductive older : list Z → list Z → Prop :=
  | older_prefix y ys : older [] (y :: ys)
  | older_head x y xs ys : x < y → older (x :: xs) (y :: ys)
  | older_tail x xs ys : older xs ys → older (x :: xs) (x :: ys).

Definition strict_prefix (xs ys : list Z) : Prop := ∃ z zs, ys = xs ++ z :: zs.

(** The invariant of the version store: an active identifier, if there is
    one, is among the installed identifiers. *)
Definition store_invariant (c : Config) : Prop :=
  ActiveVersion c ≠ "" → ActiveVersion c ∈ InstalledVersions c.

(** The directory in which version [id] lives. *)
Definition version_dir (E : Env) (c : Config) (id : string) : path :=
  to_path E (Filepath.Join (windows E) [GetInstallPath c; id]).


(** ** Path names *)

(** No byte of [s] is a separator, [f] saying what a separator is. *)
Fixpoint plain (f : ascii → bool) (s : string) : bool :=
  match s with
  | EmptyString => true
  | String c s' => negb (f c) && plain f s'
  end.

(** An element that [Clean] keeps as it is. *)
Definition is_name (w : bool) (x : string) : Prop :=
  plain (IsPathSeparator w) x = true ∧ x ≠ "" ∧ x ≠ "." ∧ x ≠ "..".

(** The shape of a cleaned path: some "..", none of them if the path is
    rooted, and then names. *)
Definition cleaned (w : bool) (p : path) : Prop :=
  ∃ k names, p.2 = replicate k ".." ++ names ∧ (p.1 = true → k = O) ∧
             Forall (is_name w) names.

(** ** The file system *)

(** A regular file is what [lstat] found. *)
Definition is_file (n : option node) : bool :=
  match n with Some (File _ _) => true | _ => false end.

(** [stat] finds a directory. *)
Definition is_dir_at (w : bool) (f : gmap path node) (p : path) : Prop :=
  ∃ q perm, stat w f p = StatOk q (Dir perm).

(** [p] is a directory: nothing blocks it and a directory is what [lstat]
    finds there. *)
Definition directory (f : gmap path node) (p : path) : Prop :=
  blocked f p = false ∧ ∃ perm, lstat f p = Some (Dir perm).



(** ** Extraction *)





(** What is stored at [p], unless it is a regular file, stays as it is. *)
Definition keeps (p : path) : relation State :=
  λ s s', ∀ n, fs s !! p = Some n → is_file (Some n) = false → fs s' !! p = Some n.

(** A text without separators. *)
Definition word (w : bool) (x : string) : Prop := plain (IsPathSeparator w) x = true.

(** ** Activation *)

(** Where the link to the active version is. *)
Definition current_link (E : Env) (homeDir : string) : path :=
  to_path E (Filepath.Join (windows E) [homeDir; ".node-spark"; "current"]).

(** The state in which useVersionPosix ends when it has made [version],
    in directory [versionPath], the active one: the link has been stored
    in a directory, where nothing was or what was has been removed. *)
Definition linked (E : Env) (version versionPath : string) (s : State) : Prop :=
  ∃ homeDir before,
    UserHomeDir E = Ok homeDir ∧
    lstat before (current_link E homeDir) = None ∧
    is_dir_at (windows E) before (parent (current_link E homeDir)) ∧
    fs s = <[current_link E homeDir := Symlink versionPath]> before ∧
    ActiveVersion (config s) = version.

(** *** Shims *)

(** What [os.Stat(name)] returns in file system [f]. *)
Definition stat_of (E : Env) (f : gmap path node) (name : string) : stat_result :=
  if decide (name = "") then StatNotExist (to_path E name)
  else stat (windows E) f (to_path E name).

(** What the walk for [file_name] from [root] finds in [f]. *)
Definition walk_of (E : Env) (f : gmap path node) (root file_name : string)
    : option string :=
  if decide (root = "") then None
  else show (windows E) <$> walk_find f (to_path E root) file_name.

(** The directory that activation takes for the binaries of a version:
    "bin" in the version directory if there is one. *)
Definition bin_dir (E : Env) (f : gmap path node) (versionPath : string) : string :=
  let nodeBinPath := Filepath.Join (windows E) [versionPath; "bin"] in
  if IsNotExist (stat_of E f nodeBinPath) then versionPath else nodeBinPath.

(** The directory in which CreateWindowsShims finds node.exe, or takes it
    to be. *)
Definition node_dir (E : Env) (f : gmap path node) (nodeBinPath : string) : string :=
  if IsNotExist (stat_of E f (Filepath.Join (windows E) [nodeBinPath; "node.exe"])) then
    let binDir := Filepath.Join (windows E) [nodeBinPath; "bin"] in
    if found (stat_of E f (Filepath.Join (windows E) [binDir; "node.exe"])) then binDir
    else match walk_of E f nodeBinPath "node.exe" with
         | Some nodeExePath => Filepath.Dir (windows E) nodeExePath
         | None => nodeBinPath
         end
  else nodeBinPath.

(** The first of [alternatives] that is found in [nodeBinPath], or the
    empty string. *)
Fixpoint alternative (E : Env) (f : gmap path node) (nodeBinPath : string)
    (alternatives : list string) : string :=
  match alternatives with
  | [] => ""
  | alt :: rest =>
      let altPath := Filepath.Join (windows E) [nodeBinPath; alt] in
      if found (stat_of E f altPath) then altPath
      else alternative E f nodeBinPath rest
  end.

(** The file that the shim for [binary] points to; the empty string when
    no shim is written. *)
Definition shim_source (E : Env) (f : gmap path node) (nodeBinPath binary : string)
    : string :=
  let sourcePath := Filepath.Join (windows E) [nodeBinPath; binary] in
  if IsNotExist (stat_of E f sourcePath) then
    if decide (binary = "npm.cmd" ∨ binary = "npx.cmd") then
      let baseName := Strings.TrimSuffix binary ".cmd" in
      alternative E f nodeBinPath [baseName; baseName +:+ ".bat"; baseName]
    else ""
  else sourcePath.

(** The directory of the shims. *)
Definition shims_dir (E : Env) (homeDir : string) : string :=
  Filepath.Join (windows E) [homeDir; ".node-spark"; "shims"].

(** [p] is [d] or has the elements of [d] as its first ones. *)
Definition under (d p : path) : Prop := d.1 = p.1 ∧ d.2 `prefix_of` p.2.

(** Neither of two paths leads to the other. *)
Definition apart (a b : path) : Prop := ¬ under a b ∧ ¬ under b a.

(** A file system without links whose paths are cleaned. *)
Definition tidy (w : bool) (f : gmap path node) : Prop :=
  ∀ p n, f !! p = Some n → cleaned w p ∧ ∀ target, n ≠ Symlink target.

(** Two file systems in which [stat] finds the same in directory [d]. *)
Definition agrees (d : path) (f g : gmap path node) : Prop :=
  blocked f d = blocked g d ∧ ∀ p, under d p → f !! p = g !! p.

(** A file with these contents is stored at [p]. *)
Definition holds (f : gmap path node) (p : path) (data : string) : Prop :=
  ∃ perm, f !! p = Some (File perm data).

(** Writing [data] to [p] changes nothing, if it can be done at all. *)
Definition settled (w : bool) (f : gmap path node) (p : path) (data : string) : Prop :=
  ∀ perm next, write w f p true perm data = inl next → next = f.

(* ================================================================== *)
(** The configuration is the one it was. *)
Definition cfg_eq : relation State := on_config eq.


(** What the closing question of the installation may do. *)
Definition offers (tok : string) : relation Config :=
  λ c c', InstallPath c' = InstallPath c ∧
          InstalledVersions c' = InstalledVersions c ∧
          (ActiveVersion c' = ActiveVersion c ∨
           (ActiveVersion c = "" ∧ ActiveVersion c' = tok)).

(** What an installation of [tok] may do to the configuration: nothing, or
    record the identifier without its "v" and, when no version was active,
    make [tok] the active one. *)
Definition installs (tok : string) : relation Config :=
  λ c c',
    let clean := Strings.TrimPrefix tok "v" in
    InstallPath c' = InstallPath c ∧
    ((InstalledVersions c' = InstalledVersions c ∧ ActiveVersion c' = ActiveVersion c) ∨
     ((clean ∉ InstalledVersions c) ∧
      InstalledVersions c' = InstalledVersions c ++ [clean] ∧
      (ActiveVersion c' = ActiveVersion c ∨
       (ActiveVersion c = "" ∧ ActiveVersion c' = tok)))).

(** ** Scenarios *)

Module Scenario.

Definition no_http : string → http_response :=
  λ _, HttpError (External "connection refused").

(** A Linux machine; what varies is the network, the decoders and the
    answer of the user. *)
Definition linux (http : string → http_response) (index : list NodeVersion)
    (tar : Tar.stream) (zip : list Zip.file) (answer : string) : Env :=
  {| GOOS := "linux"; GOARCH := "amd64";
     UserHomeDir := Ok "/home/u"; TempDir := "/tmp";
     http_get := http;
     json_versions := λ _, Ok index;
     json_raw := λ _, Ok [];
     tar_gz_reader := λ _, Ok tar;
     zip_reader := λ _, Ok zip;
     scanln := answer;
     run_version := λ _, Err (External "exec format error");
     powershell := λ _, Err (External "executable file not found");
     powershell_runs := false;
     shim_order := ["node.exe"; "npm.cmd"; "npx.cmd"] |}.

Definition no_tar : Tar.stream := {| Tar.entries := []; Tar.ending := None |}.

Definition dir_entry (name : string) : Tar.entry :=
  {| Tar.Name := name; Tar.Typeflag := Tar.TypeDir; Tar.Mode := 493;
     Tar.Linkname := ""; Tar.content := ""; Tar.content_err := None |}.

Definition file_entry (name data : string) : Tar.entry :=
  {| Tar.Name := name; Tar.Typeflag := Tar.TypeReg; Tar.Mode := 420;
     Tar.Linkname := ""; Tar.content := data; Tar.content_err := None |}.

Definition zip_dir (name : string) : Zip.file :=
  {| Zip.Name := name; Zip.Mode := 493; Zip.dir_attr := true;
     Zip.content := Ok ""; Zip.content_err := None |}.

Definition zip_file (name data : string) : Zip.file :=
  {| Zip.Name := name; Zip.Mode := 420; Zip.dir_attr := false;
     Zip.content := Ok data; Zip.content_err := None |}.

Definition dirs (names : list string) : gmap path node :=
  list_to_map (map (λ n, (parse false n, Dir 493)) names).

Definition config0 : Config :=
  {| InstallPath := "/home/u/.node-spark/versions";
     InstalledVersions := []; ActiveVersion := "" |}.

Definition state (c : Config) (f : gmap path node) : State :=
  {| config := c; fs := f; stdout := []; user_PATH := "" |}.

(** A home directory, a temporary directory, nothing installed. *)
Definition fresh : State := state config0 (dirs ["/tmp"; "/home"; "/home/u"]).

(** *** A tar archive with an entry that climbs out *)

Definition climbing_tar : Tar.stream :=
  {| Tar.entries := [dir_entry "root/"; file_entry "root/../../evil.txt" "pwned"];
     Tar.ending := None |}.

Definition tar_env : Env := linux no_http [] climbing_tar [] "n".

Definition dest : string := "/home/u/.node-spark/versions/18.17.0".

Definition with_archive (name : string) : State :=
  state config0
    (<[parse false name := File 420 "archive bytes"]>
       (dirs ["/tmp"; "/home"; "/home/u"; "/home/u/.node-spark";
              "/home/u/.node-spark/versions"; dest; "/e"])).

(** *** A zip archive with the crafted entry of the specification *)

Definition crafted_zip : list Zip.file :=
  [zip_dir "root/"; zip_file "root/../../evil.txt" "pwned"; zip_file "root/a/b.txt" "payload"].

Definition zip_env : Env := linux no_http [] no_tar crafted_zip "n".

(** *** An index with two releases *)

Definition release (version : string) (lts : json) : NodeVersion :=
  {| Version := version; Date := "2023-07-18"; Files := ["linux-x64"; "win-x64-zip"];
     LTS := lts; Modules := JString "108"; NPM := "9.6.7"; V8 := "10.2.154.26" |}.

Definition index : list NodeVersion :=
  [release "v18.17.0" (JString "Hydrogen"); release "v20.5.0" (JBool false)].

Definition index_http (url : string) : http_response :=
  if decide (url = index_url) then HttpReply 200 "[{...}, {...}]" None
  else HttpError (External "connection refused").

Definition index_env : Env := linux index_http index no_tar [] "n".

(** *** Two versions installed, the older one active *)

Definition stocked : State :=
  state {| InstallPath := "/home/u/.node-spark/versions";
           InstalledVersions := ["18.17.0"; "20.5.0"]; ActiveVersion := "18.17.0" |}
    (dirs ["/tmp"; "/home"; "/home/u"; "/home/u/.node-spark";
           "/home/u/.node-spark/versions"; "/home/u/.node-spark/versions/18.17.0";
           "/home/u/.node-spark/versions/20.5.0"]).

(** *** An archive with one top-level directory and one file *)


(** *** A download and an archive that work *)

Definition serving_http (url : string) : http_response :=
  HttpReply 200 "archive bytes" None.

Definition release_tar : Tar.stream :=
  {| Tar.entries :=
       [dir_entry "node-v20.1.0-linux-x64/"; dir_entry "node-v20.1.0-linux-x64/bin/";
        file_entry "node-v20.1.0-linux-x64/bin/node" "ELF"];
     Tar.ending := None |}.

Definition serving_env : Env := linux serving_http [] release_tar [] "n".

(** *** A download that breaks off *)

Definition broken_http (url : string) : http_response :=
  HttpReply 200 "first bytes of the arch" (Some (External "unexpected EOF")).

Definition broken_env : Env := linux broken_http [] no_tar [] "n".

Definition archive_path : path := parse false "/tmp/node-v18.17.0-linux-x64.tar.gz".

End Scenario.

(* ================================================================== *)
(** ** Further notions *)

From Stdlib Require Import DecimalPos.

(** What is stored at [p] is not removed: a directory or a link stays as
    it is, a regular file stays a regular file with its permission bits. *)
Definition lasting (p : path) : relation State :=
  λ s s', ∀ n, fs s !! p = Some n →
    ∃ n', fs s' !! p = Some n' ∧
          match n with
          | File perm _ => ∃ data, n' = File perm data
          | _ => n' = n
          end.

(** A byte of a decimal numeral, and a string of such bytes. *)
Definition is_digit (c : ascii) : bool :=
  match Strconv.digit c with Some _ => true | None => false end.

Fixpoint all_digits (s : string) : bool :=
  match s with
  | EmptyString => true
  | String c s' => is_digit c && all_digits s'
  end.

(** The directory in which the program keeps its data. *)
Definition data_dir (E : Env) (homeDir : string) : path :=
  to_path E (Filepath.Join (windows E) [homeDir; ".node-spark"]).

(** Nothing is added to the file system and nothing outside directory [d]
    is removed or changed; configuration and PATH stay. *)
Definition outside (d : path) : relation State :=
  λ s s', config s' = config s ∧ user_PATH s' = user_PATH s ∧ fs s' ⊆ fs s ∧
          ∀ p, within d p = false → fs s' !! p = fs s !! p.

(** What is stored at [p], if anything, is not a symbolic link. *)
Definition no_link (f : gmap path node) (p : path) : Prop :=
  ∀ target, f !! p ≠ Some (Symlink target).

(** The marker of the first run. *)
Definition first_run_marker (E : Env) (homeDir : string) : path :=
  to_path E (Filepath.Join (windows E)
               [Filepath.Join (windows E) [homeDir; ".node-spark"]; ".first_run_complete"]).

(** A later run of the program finds the configuration that [command]
    left in memory: whenever [command] returns nil from state [s], with the
    configuration file not being a symbolic link afterwards and the decoder
    reading back what the encoder made of the configuration, the hook of
    the root command, run on the file system that [command] left, loads
    that configuration. *)
Definition persists (E : Env) (json_marshal : Config → res string)
    (json_unmarshal : string → res Config) (command : M unit) (s : State) : Prop :=
  let after := command s in
  after.1 = Ok tt →
  ∀ cfgPath, GetConfigPath E = Ok cfgPath →
  no_link (fs after.2) (to_path E cfgPath) →
  (∀ data, json_marshal (config after.2) = Ok data →
           json_unmarshal data = Ok (config after.2)) →
  ∀ s', fs s' = fs after.2 →
    PersistentPreRunE E json_unmarshal s' = (Ok cfgPath, (set_config (config after.2) s').2).

(** *** A stand-in for encoding/json in the scenarios: the encoder writes
    the three fields on lines of their own, the decoder knows the one
    configuration [expected]. *)
Module Codec.
Definition marshal (c : Config) : res string :=
  Ok (String.concat lf (InstallPath c :: ActiveVersion c :: InstalledVersions c)).
Definition unmarshal (expected : Config) (data : string) : res Config :=
  match marshal expected with
  | Ok written =>
      if decide (written = data) then Ok expected
      else Err (External "unexpected end of JSON input")
  | Err e => Err e
  end.
End Codec.

(** *** A Windows machine without network and without PowerShell, on which
    a version is unpacked with node.exe in its directory *)
Module Desk.
Definition env : Env :=
  {| GOOS := "windows"; GOARCH := "amd64";
     UserHomeDir := Ok "\Users\u"; TempDir := "\Temp";
     http_get := Scenario.no_http;
     json_versions := λ _, Ok [];
     json_raw := λ _, Ok [];
     tar_gz_reader := λ _, Ok Scenario.no_tar;
     zip_reader := λ _, Ok [];
     scanln := "n";
     run_version := λ _, Err (External "exec format error");
     powershell := λ _, Err (External "executable file not found");
     powershell_runs := false;
     shim_order := ["npx.cmd"; "node.exe"; "npm.cmd"] |}.

Definition home : string := "\Users\u\.node-spark".

Definition config0 : Config :=
  {| InstallPath := home +:+ "\versions"; InstalledVersions := ["20.1.0"];
     ActiveVersion := "" |}.

Definition unpacked : State :=
  {| config := config0;
     fs := <[parse true (home +:+ "\versions\20.1.0\node.exe") := File 493 "MZ"]>
             (list_to_map
                (map (λ n, (parse true n, Dir 493))
                   ["\Users"; "\Users\u"; home; home +:+ "\versions";
                    home +:+ "\versions\20.1.0"]));
     stdout := []; user_PATH := "" |}.
End Desk.

(* ================================================================== *)
(** * Properties *)

(** ** Rules for [returns] and [preserves] *)

Lemma bind_eq {A B} (m : M A) (f : A → M B) s :
  (m ≫= f) s = match m s with (Ok a, s') => f a s' | (Err e, s') => (Err e, s') end.
Proof. reflexivity. Qed.

Section Returns.
Context {A B : Type}.

Lemma returns_ret (Q : A → Prop) a : Q a → returns Q (mret a).
Proof. intros HQ s a' s' [= <- _]. exact HQ. Qed.

Lemma returns_raise (Q : A → Prop) e : returns Q (raise e).
Proof. intros s a s' [=]. Qed.

Lemma returns_bind (Q : B → Prop) (m : M A) (f : A → M B) :
  (∀ a, returns Q (f a)) → returns Q (m ≫= f).
Proof.
  intros Hf s b s'. rewrite bind_eq. destruct (m s) as [[a|e] s1]; [|done].
  apply Hf.
Qed.

Lemma returns_bind_with (P : A → Prop) (Q : B → Prop) (m : M A) (f : A → M B) :
  returns P m → (∀ a, P a → returns Q (f a)) → returns Q (m ≫= f).
Proof.
  intros Hm Hf s b s'. rewrite bind_eq. destruct (m s) as [[a|e] s1] eqn:Hrun; [|done].
  apply Hf. by eapply Hm.
Qed.

Lemma returns_wrap (Q : A → Prop) msg (m : M A) : returns Q m → returns Q (wrap msg m).
Proof.
  intros Hm s a s'. unfold wrap. destruct (m s) as [[a'|e] s1] eqn:Hrun; [|done].
  intros [= <- <-]. by eapply Hm.
Qed.
End Returns.

Ltac returns_step :=
  lazymatch goal with
  | |- returns _ (mbind _ _) => apply returns_bind; intros ?
  | |- returns _ (mret _) => apply returns_ret
  | |- returns _ (wrap _ _) => apply returns_wrap
  | |- returns _ (raise _) => apply returns_raise
  | |- returns _ (match ?x with _ => _ end) => destruct x
  | |- returns _ (if ?x then _ else _) => destruct x
  end.

Section Preserves.
Context (R : relation State) `{!Frame R}.
Context {A B : Type}.

Lemma preserves_ret (a : A) : preserves R (mret a).
Proof. intros s. simpl. reflexivity. Qed.

Lemma preserves_raise e : preserves R (raise (A:=A) e).
Proof. intros s. simpl. reflexivity. Qed.

Lemma preserves_lift (r : res A) : preserves R (lift r).
Proof. intros s. simpl. reflexivity. Qed.

Lemma preserves_bind (m : M A) (f : A → M B) :
  preserves R m → (∀ a, preserves R (f a)) → preserves R (m ≫= f).
Proof.
  intros Hm Hf s. rewrite bind_eq. specialize (Hm s).
  destruct (m s) as [[a|e] s1]; simpl in *; [|done].
  etrans; [exact Hm|]. apply Hf.
Qed.


Lemma preserves_try (m : M A) : preserves R m → preserves R (try m).
Proof. intros Hm s. specialize (Hm s). unfold try. by destruct (m s). Qed.

Lemma preserves_wrap msg (m : M A) : preserves R m → preserves R (wrap msg m).
Proof. intros Hm s. specialize (Hm s). unfold wrap. by destruct (m s) as [[?|?] ?]. Qed.

Lemma preserves_defer (cleanup : M unit) (m : M A) :
  preserves R m → preserves R cleanup → preserves R (defer cleanup m).
Proof.
  intros Hm Hc s. specialize (Hm s). unfold defer.
  destruct (m s) as [r s1]. simpl in *. etrans; [exact Hm|]. apply Hc.
Qed.

Lemma preserves_for_each (l : list A) (body : A → M unit) :
  (∀ x, preserves R (body x)) → preserves R (for_each l body).
Proof.
  intros Hb. induction l as [|x l IH]; simpl.
  - intros s. simpl. reflexivity.
  - intros s. rewrite bind_eq. specialize (Hb x s).
    destruct (body x s) as [[[]|e] s1]; simpl in *; [|done].
    etrans; [exact Hb|]. apply IH.
Qed.

Lemma preserves_print line : preserves R (print line).
Proof. intros s. apply frame_print. Qed.

Lemma preserves_get_config : preserves R get_config.
Proof. intros s. simpl. reflexivity. Qed.

Lemma preserves_get_fs : preserves R get_fs.
Proof. intros s. simpl. reflexivity. Qed.

Lemma preserves_get_user_PATH : preserves R get_user_PATH.
Proof. intros s. simpl. reflexivity. Qed.

Lemma preserves_set_fs `{!FsBlind R} f : preserves R (set_fs f).
Proof. intros s. apply blind_fs. Qed.

Lemma preserves_set_user_PATH `{!FsBlind R} p : preserves R (set_user_PATH p).
Proof. intros s. apply blind_PATH. Qed.

Lemma preserves_set_config `{!ConfigBlind R} c : preserves R (set_config c).
Proof. intros s. apply blind_config. Qed.
End Preserves.

Create HintDb preserves discriminated.

Ltac preserves_step :=
  lazymatch goal with
  | |- preserves ?R (mbind ?f ?m) => apply (preserves_bind R m f); [|intros ?]
  | |- preserves ?R (mret ?a) => apply (preserves_ret R a)
  | |- preserves ?R (raise ?e) => apply (preserves_raise R e)
  | |- preserves ?R (lift ?r) => apply (preserves_lift R r)
  | |- preserves ?R (try ?m) => apply (preserves_try R m)
  | |- preserves ?R (wrap ?msg ?m) => apply (preserves_wrap R msg m)
  | |- preserves ?R (defer ?c ?m) => apply (preserves_defer R c m)
  | |- preserves ?R (for_each ?l ?b) => apply (preserves_for_each R l b); intros ?
  | |- preserves ?R (print ?l) => apply (preserves_print R l)
  | |- preserves ?R get_config => apply (preserves_get_config R)
  | |- preserves ?R get_fs => apply (preserves_get_fs R)
  | |- preserves ?R get_user_PATH => apply (preserves_get_user_PATH R)
  | |- preserves _ (match ?x with _ => _ end) => destruct x
  | |- preserves _ (if ?x then _ else _) => destruct x
  | |- preserves _ (let '(_, _) := ?x in _) => destruct x
  end.

Ltac preserves_auto :=
  repeat (first [preserves_step | assumption | solve [eauto with preserves]]).

(** ** Weakest preconditions *)

Section Wp.
Context {A B : Type}.

Lemma wp_ret (a : A) s Q : Q (Ok a) s → wp (mret a) s Q.
Proof. done. Qed.

Lemma wp_raise e s (Q : res A → State → Prop) : Q (Err e) s → wp (raise e) s Q.
Proof. done. Qed.

Lemma wp_bind (m : M A) (f : A → M B) s Q :
  wp m s (λ r s1, match r with Ok a => wp (f a) s1 Q | Err e => Q (Err e) s1 end) →
  wp (m ≫= f) s Q.
Proof. unfold wp. rewrite bind_eq. by destruct (m s) as [[a|e] s1]. Qed.

Lemma wp_frame R (m : M A) s (Q : res A → State → Prop) :
  preserves R m → (∀ r s1, R s s1 → Q r s1) → wp m s Q.
Proof. intros Hm HQ. apply HQ, Hm. Qed.

Lemma wp_try (m : M A) s Q : wp m s (λ r s1, Q (Ok r) s1) → wp (try m) s Q.
Proof. unfold wp, try. by destruct (m s). Qed.

Lemma wp_wrap msg (m : M A) s Q :
  wp m s (λ r s1, Q (match r with Err e => Err (Wrapped msg e) | Ok a => Ok a end) s1) →
  wp (wrap msg m) s Q.
Proof. unfold wp, wrap. by destruct (m s) as [[a|e] s1]. Qed.

Lemma wp_defer (cleanup : M unit) (m : M A) s Q :
  wp m s (λ r s1, Q r (cleanup s1).2) → wp (defer cleanup m) s Q.
Proof. unfold wp, defer. by destruct (m s). Qed.
End Wp.

Lemma wp_mono {A} (m : M A) s (Q Q' : res A → State → Prop) :
  wp m s Q → (∀ r s1, Q r s1 → Q' r s1) → wp m s Q'.
Proof. intros Hm HQ. by apply HQ. Qed.

Lemma wp_print line s Q : Q (Ok tt) (print line s).2 → wp (print line) s Q.
Proof. done. Qed.

Lemma wp_get_config s Q : Q (Ok (config s)) s → wp get_config s Q.
Proof. done. Qed.

(** ** Frames: what a part of the program leaves as it is

    [OsFrame E R] collects what a relation has to allow for the calls that
    change the file system without removing anything; the removals are
    named where they occur. *)

Section ReadFrames.
Context (R : relation State) `{!Frame R}.
Context (E : Env).

Lemma os_Stat_frame name : preserves R (os_Stat E name).
Proof. unfold os_Stat. preserves_auto. Qed.

Lemma os_Lstat_frame name : preserves R (os_Lstat E name).
Proof. unfold os_Lstat. preserves_auto. Qed.

Lemma os_ReadFile_frame name : preserves R (os_ReadFile E name).
Proof. unfold os_ReadFile. preserves_auto. Qed.

Lemma walk_for_frame root file_name : preserves R (walk_for E root file_name).
Proof. unfold walk_for. preserves_auto. Qed.
End ReadFrames.

Section BlindFrames.
Context (R : relation State) `{!Frame R, !FsBlind R}.
Context (E : Env).

Lemma fs_op_blind op f : preserves R (fs_op op f).
Proof. unfold fs_op. preserves_auto; apply preserves_set_fs; apply _. Qed.

Lemma on_path_blind op name f : preserves R (on_path E op name f).
Proof. unfold on_path. preserves_auto. by apply fs_op_blind. Qed.

Lemma os_Remove_blind name : preserves R (os_Remove E name).
Proof. apply on_path_blind. Qed.

Lemma os_RemoveAll_blind name : preserves R (os_RemoveAll E name).
Proof. unfold os_RemoveAll. preserves_auto; apply preserves_set_fs; apply _. Qed.

#[export] Instance blind_os_frame : OsFrame E R.
Proof.
  split.
  - intros. apply on_path_blind.
  - intros. apply on_path_blind.
  - intros. apply on_path_blind.
  - intros. apply preserves_set_user_PATH; apply _.
Qed.
End BlindFrames.

#[export] Hint Resolve os_Stat_frame os_Lstat_frame os_ReadFile_frame walk_for_frame
  frame_MkdirAll frame_Symlink frame_write frame_set_user_PATH : preserves.

Section ProgramFrames.
Context (R : relation State) `{!Frame R}.
Context (E : Env) `{!OsFrame E R}.

Lemma os_WriteFile_frame name data perm : preserves R (os_WriteFile E name data perm).
Proof. apply frame_write. Qed.

Lemma os_Create_frame name : preserves R (os_Create E name).
Proof. apply frame_write. Qed.

Hint Resolve os_WriteFile_frame os_Create_frame : preserves.

Lemma DownloadFile_frame filepath url : preserves R (DownloadFile E filepath url).
Proof. unfold DownloadFile. preserves_auto. Qed.

Lemma extract_tar_entry_frame destPath header :
  preserves R (extract_tar_entry E destPath header).
Proof. unfold extract_tar_entry. preserves_auto. Qed.

Lemma extractTarGz_frame archivePath destPath :
  preserves R (extractTarGz E archivePath destPath).
Proof. unfold extractTarGz. preserves_auto. apply extract_tar_entry_frame. Qed.

Lemma extract_zip_file_frame destPath topLevelDir file :
  preserves R (extract_zip_file E destPath topLevelDir file).
Proof. unfold extract_zip_file. preserves_auto. Qed.

Lemma repair_node_exe_frame destPath : preserves R (repair_node_exe E destPath).
Proof. unfold repair_node_exe. preserves_auto. Qed.

Lemma extractZip_frame archivePath destPath :
  preserves R (extractZip E archivePath destPath).
Proof.
  unfold extractZip. preserves_auto.
  - apply extract_zip_file_frame.
  - apply repair_node_exe_frame.
Qed.

Lemma ExtractArchive_frame archivePath destPath :
  preserves R (ExtractArchive E archivePath destPath).
Proof.
  unfold ExtractArchive. preserves_auto.
  - apply extractTarGz_frame.
  - apply extractZip_frame.
Qed.

Lemma locate_node_dir_frame nodeBinPath : preserves R (locate_node_dir E nodeBinPath).
Proof. unfold locate_node_dir. preserves_auto. Qed.

Lemma find_alternative_frame nodeBinPath binary alternatives :
  preserves R (find_alternative E nodeBinPath binary alternatives).
Proof. induction alternatives as [|alt rest IH]; simpl; preserves_auto. Qed.

Lemma create_shim_frame nodeBinPath shimDir binary template :
  preserves R (create_shim E nodeBinPath shimDir binary template).
Proof. unfold create_shim. preserves_auto. apply find_alternative_frame. Qed.

Lemma CreateWindowsShims_frame nodeBinPath shimDir :
  preserves R (CreateWindowsShims E nodeBinPath shimDir).
Proof.
  unfold CreateWindowsShims. preserves_auto.
  - apply locate_node_dir_frame.
  - apply create_shim_frame.
Qed.

Lemma UpdateWindowsPath_frame shimDir : preserves R (UpdateWindowsPath E shimDir).
Proof. unfold UpdateWindowsPath. preserves_auto. Qed.

Lemma CreateWindowsActivationScript_frame shimDir version :
  preserves R (CreateWindowsActivationScript E shimDir version).
Proof. unfold CreateWindowsActivationScript. preserves_auto. Qed.

Lemma detectSystemInfo_frame : preserves R (detectSystemInfo E).
Proof. unfold detectSystemInfo. preserves_auto. Qed.

Lemma download_archive_frame versionStr nodeOS nodeArch ext :
  preserves R (download_archive E versionStr nodeOS nodeArch ext).
Proof. unfold download_archive. preserves_auto; apply DownloadFile_frame. Qed.

Lemma verify_installation_frame versionDir : preserves R (verify_installation E versionDir).
Proof. unfold verify_installation. preserves_auto. Qed.

(** Activation changes the configuration in one place, and removes one
    thing: what it finds where the link to the active version goes. *)
Lemma useVersionWindows_frame version versionPath :
  preserves R (set_active version) →
  preserves R (useVersionWindows E version versionPath).
Proof.
  intros Hset. unfold useVersionWindows. preserves_auto.
  - apply CreateWindowsShims_frame.
  - apply UpdateWindowsPath_frame.
  - apply CreateWindowsActivationScript_frame.
Qed.

Lemma useVersionPosix_frame version versionPath :
  preserves R (set_active version) →
  (∀ homeDir, preserves R
     (os_Remove E (Filepath.Join (windows E) [homeDir; ".node-spark"; "current"]))) →
  preserves R (useVersionPosix E version versionPath).
Proof. intros Hset Hrm. unfold useVersionPosix. preserves_auto. Qed.

Lemma UseVersion_frame version :
  preserves R (set_active version) →
  (∀ homeDir, preserves R
     (os_Remove E (Filepath.Join (windows E) [homeDir; ".node-spark"; "current"]))) →
  preserves R (UseVersion E version).
Proof.
  intros Hset Hrm.
  pose proof (λ path, useVersionPosix_frame version path Hset Hrm) as Hposix.
  clear Hrm. unfold UseVersion. preserves_auto.
  by apply useVersionWindows_frame.
Qed.

Lemma SetActiveVersion_frame version :
  preserves R (set_active version) →
  (∀ homeDir, preserves R
     (os_Remove E (Filepath.Join (windows E) [homeDir; ".node-spark"; "current"]))) →
  preserves R (SetActiveVersion E version).
Proof.
  intros Hset Hrm. unfold SetActiveVersion. preserves_auto.
  by apply UseVersion_frame.
Qed.
End ProgramFrames.

(** ** The order in which the index is sorted *)

Section Order.

Lemma less_numbers_older a b : less_numbers a b = true ↔ older b a.
Proof.
  revert b. induction a as [|x a IH]; intros [|y b]; simpl.
  - split; [done | inversion 1].
  - split; [done | inversion 1].
  - split; [intros _; constructor | done].
  - case_decide as Hxy.
    + rewrite bool_decide_eq_true. split.
      * intros ?. by constructor.
      * inversion 1; subst; [done | congruence].
    + subst y. rewrite IH. split.
      * intros ?. by apply older_tail.
      * inversion 1; subst; [lia | done].
Qed.

Lemma older_irrefl a : ¬ older a a.
Proof. induction a; inversion 1; subst; [lia | auto]. Qed.

Lemma older_trans a b c : older a b → older b c → older a c.
Proof.
  intros Hab. revert c.
  induction Hab as [y ys|x y xs ys Hxy|x xs ys Hab IH]; intros c Hbc;
    inversion Hbc; subst.
  - apply older_prefix.
  - apply older_prefix.
  - apply older_head. lia.
  - by apply older_head.
  - by apply older_head.
  - apply older_tail. by apply IH.
Qed.

Lemma older_total a b : a = b ∨ older a b ∨ older b a.
Proof.
  revert b. induction a as [|x a IH]; intros [|y b].
  - by left.
  - right; left; constructor.
  - right; right; constructor.
  - destruct (Z.lt_total x y) as [?|[->|?]].
    + right; left. by constructor.
    + destruct (IH b) as [->|[?|?]]; [by left | right; left | right; right];
        by apply older_tail.
    + right; right. by constructor.
Qed.

Lemma strict_prefix_older a b : strict_prefix a b → older a b.
Proof.
  intros (z & zs & ->). induction a; simpl; [apply older_prefix | by apply older_tail].
Qed.

Lemma not_after_older vi vj : not_after vi vj ↔ ¬ older (numbers vi) (numbers vj).
Proof.
  unfold not_after, less. rewrite <- less_numbers_older.
  fold (numbers vi) (numbers vj). destruct (less_numbers _ _); naive_solver.
Qed.

#[local] Instance not_after_total : Total not_after.
Proof.
  intros vi vj. rewrite !not_after_older.
  destruct (older_total (numbers vi) (numbers vj)) as [Heq|[H|H]].
  - left. rewrite Heq. apply older_irrefl.
  - right. intros H'. eapply older_irrefl, older_trans; eauto.
  - left. intros H'. eapply older_irrefl, older_trans; eauto.
Qed.

#[local] Instance not_after_trans : Transitive not_after.
Proof.
  intros a b c. rewrite !not_after_older. intros Hab Hbc Hac.
  destruct (older_total (numbers b) (numbers c)) as [Heq|[H|H]]; [congruence|done|].
  destruct (older_total (numbers a) (numbers b)) as [Heq|[H'|H']]; [congruence|done|].
  eapply older_irrefl, older_trans; [exact Hac|]. eapply older_trans; eauto.
Qed.

Lemma StronglySorted_lookup {A} (R : relation A) l i j x y :
  StronglySorted R l → (i < j)%nat → l !! i = Some x → l !! j = Some y → R x y.
Proof.
  intros Hs. revert i j. induction Hs as [|a l Hs IH Hall]; intros i j Hij Hi Hj.
  - done.
  - destruct j as [|j]; [lia|]. destruct i as [|i]; simpl in *.
    + injection Hi as ->. rewrite Forall_forall in Hall. apply Hall.
      eapply list_elem_of_lookup_2; eauto.
    + apply (IH i j); [lia | done | done].
Qed.

Lemma sort_Slice_sorted versions : StronglySorted not_after (sort_Slice versions).
Proof. apply StronglySorted_merge_sort; apply _. Qed.

Lemma sort_Slice_perm versions : sort_Slice versions ≡ₚ versions.
Proof. apply merge_sort_Permutation. Qed.

Lemma FetchAvailableVersions_sorted E :
  returns (λ out, ∃ versions, out = sort_Slice versions) (FetchAvailableVersions E).
Proof.
  unfold FetchAvailableVersions. returns_step. returns_step.
  - repeat returns_step.
  - repeat (returns_step; try solve [repeat returns_step]). eauto.
Qed.

End Order.

(** C8. The index is sorted by the numeric components of the versions,
    newest first: the comparison used by the sort puts [vi] before [vj]
    exactly when [vj] is older, no entry of the sorted index is older than
    one that follows it, and a version whose components are a strict
    prefix of another's comes after that one. *)
Theorem sort_newest_first E s out s' :
  FetchAvailableVersions E s = (Ok out, s') →
  (∀ vi vj, less vi vj = true ↔ older (numbers vj) (numbers vi)) ∧
  (∀ i j vi vj, (i < j)%nat → out !! i = Some vi → out !! j = Some vj →
     ¬ older (numbers vi) (numbers vj)) ∧
  (∀ i j vi vj, out !! i = Some vi → out !! j = Some vj →
     strict_prefix (numbers vi) (numbers vj) → (j < i)%nat).
Proof.
  intros [versions ->]%FetchAvailableVersions_sorted.
  pose proof (sort_Slice_sorted versions) as Hs.
  assert (Hord : ∀ i j vi vj, (i < j)%nat → sort_Slice versions !! i = Some vi →
            sort_Slice versions !! j = Some vj → ¬ older (numbers vi) (numbers vj)).
  { intros i j vi vj Hij Hi Hj. apply not_after_older.
    eapply StronglySorted_lookup; eauto. }
  split; [|split].
  - intros vi vj. apply less_numbers_older.
  - exact Hord.
  - intros i j vi vj Hi Hj Hp%strict_prefix_older.
    destruct (decide (j < i)%nat) as [|Hge]; [done|].
    destruct (decide (i = j)) as [->|Hne].
    + rewrite Hi in Hj. injection Hj as ->. by apply older_irrefl in Hp.
    + exfalso. eapply (Hord i j); eauto. lia.
Qed.

(** The index of the scenario comes back with 20.5.0 ahead of 18.17.0. *)
Lemma sort_newest_first_witness :
  ∃ out s',
    FetchAvailableVersions Scenario.index_env Scenario.fresh = (Ok out, s') ∧
    map Version out = ["v20.5.0"; "v18.17.0"] ∧
    ∀ i j vi vj, (i < j)%nat → out !! i = Some vi → out !! j = Some vj →
      ¬ older (numbers vi) (numbers vj).
Proof.
  eexists _, _. split; [vm_compute; reflexivity|]. split; [reflexivity|].
  eapply (sort_newest_first Scenario.index_env Scenario.fresh). vm_compute. reflexivity.
Defined.


(** ** Extraction and entry names that climb out of the destination *)

(** C1. A tar archive with the entries "root/" and "root/../../evil.txt" is
    extracted into /home/u/.node-spark/versions/18.17.0 without error, and
    the second entry is written to /home/u/.node-spark/evil.txt, which is
    not inside the destination and did not exist before. *)
Theorem tar_entry_escapes_destination :
  let before := Scenario.with_archive "/tmp/node.tar.gz" in
  let after := ExtractArchive Scenario.tar_env "/tmp/node.tar.gz" Scenario.dest before in
  let evil := parse false "/home/u/.node-spark/evil.txt" in
  after.1 = Ok tt ∧
  fs before !! evil = None ∧
  fs after.2 !! evil = Some (File 420 "pwned") ∧
  within (parse false Scenario.dest) evil = false.
Proof. vm_compute. done. Qed.

(** C2. A zip archive with the entries "root/", "root/../../evil.txt" and
    "root/a/b.txt" is extracted into /e: the crafted entry passes the
    prefix test, because "/evil.txt" starts with "/e", and is written to
    /evil.txt, outside /e; no warning is printed for it. Extracted into the
    working directory "." the same archive writes ../../evil.txt and
    refuses the harmless entry "root/a/b.txt". *)
Theorem zip_guard_passes_crafted_entry :
  let before := Scenario.with_archive "/tmp/node.zip" in
  let after := ExtractArchive Scenario.zip_env "/tmp/node.zip" "/e" before in
  let here := ExtractArchive Scenario.zip_env "/tmp/node.zip" "." before in
  (after.1 = Ok tt ∧
   fs before !! parse false "/evil.txt" = None ∧
   fs after.2 !! parse false "/evil.txt" = Some (File 420 "pwned") ∧
   within (parse false "/e") (parse false "/evil.txt") = false ∧
   stdout after.2 = ["Detected top-level directory: root"]) ∧
  (here.1 = Ok tt ∧
   fs here.2 !! parse false "../../evil.txt" = Some (File 420 "pwned") ∧
   within (parse false ".") (parse false "../../evil.txt") = false ∧
   fs here.2 !! parse false "a/b.txt" = None ∧
   stdout here.2 = ["Detected top-level directory: root";
                    "Warning: Skipping potentially unsafe path: root/a/b.txt"]).
Proof. vm_compute. done. Qed.

(** Where the destination is the directory of an installed version, the
    guard does what the specification says: the crafted entry changes
    nothing but the output, and the entries after it are extracted. *)
Lemma zip_guard_rejects_in_version_dir :
  let before := Scenario.with_archive "/tmp/node.zip" in
  let after := ExtractArchive Scenario.zip_env "/tmp/node.zip" Scenario.dest before in
  after.1 = Ok tt ∧
  fs after.2 !! parse false "/home/u/.node-spark/evil.txt" = None ∧
  fs after.2 !! parse false (Scenario.dest +:+ "/a/b.txt") = Some (File 420 "payload") ∧
  stdout after.2 = ["Detected top-level directory: root";
                    "Warning: Skipping potentially unsafe path: root/../../evil.txt"].
Proof. vm_compute. done. Qed.

(** ** Resolving a version token *)

(** The only failure of FetchVersionDetails on a fetched index: no entry
    carries the requested version. *)
Lemma FetchVersionDetails_not_found E versionQuery s versions s1 :
  FetchAvailableVersions E s = (Ok versions, s1) →
  let query := if Strings.HasPrefix versionQuery "v" then versionQuery
               else "v" +:+ versionQuery in
  (∀ v, v ∈ versions → Version v ≠ query) →
  FetchVersionDetails E versionQuery s =
    (Err (Errorf ("version " +:+ query +:+ " not found in Node.js index")), s1).
Proof.
  intros Hfetch query Hnone. unfold FetchVersionDetails. rewrite bind_eq, Hfetch.
  destruct (Strings.HasPrefix versionQuery "v"); simpl; fold query.
  all: destruct (List.find _ versions) as [v|] eqn:Hfind; [|done].
  all: apply List.find_some in Hfind as [Hin Heq%bool_decide_eq_true].
  all: apply list_elem_of_In in Hin; by apply Hnone in Hin.
Qed.

(** C4. On an index that lists v20.5.0 and the LTS release v18.17.0, the
    tokens "latest" and "lts" are looked up as the versions "vlatest" and
    "vlts" and are not found; an exact version is found with or without its
    "v". *)
Theorem latest_and_lts_are_not_resolved :
  let resolve token := (FetchVersionDetails Scenario.index_env token Scenario.fresh).1 in
  resolve "latest" = Err (Errorf "version vlatest not found in Node.js index") ∧
  resolve "lts" = Err (Errorf "version vlts not found in Node.js index") ∧
  resolve "18.17.0" = Ok (Scenario.release "v18.17.0" (JString "Hydrogen")) ∧
  resolve "v20.5.0" = Ok (Scenario.release "v20.5.0" (JBool false)).
Proof. vm_compute. done. Qed.

(** ** The archive in temporary storage *)

(** C6. The download of the archive for 18.17.0 breaks off after some
    bytes: the installation fails, and the bytes received stay behind in
    the temporary directory. *)
Theorem partial_download_is_left_behind :
  let after := InstallNodeVersion Scenario.broken_env "18.17.0" Scenario.fresh in
  after.1 = Err (Wrapped "failed to download Node.js archive" (External "unexpected EOF")) ∧
  fs Scenario.fresh !! Scenario.archive_path = None ∧
  fs after.2 !! Scenario.archive_path = Some (File 438 "first bytes of the arch").
Proof. vm_compute. done. Qed.

(** When the download succeeds, the archive is gone after the installation,
    here one that fails in the extraction (the archive is empty). *)
Lemma downloaded_archive_is_removed :
  let http := λ _, HttpReply 200 "archive bytes" None in
  let broken_tar := {| Tar.entries := []; Tar.ending := Some (External "unexpected EOF") |} in
  let after :=
    InstallNodeVersion (Scenario.linux http [] broken_tar [] "n") "18.17.0" Scenario.fresh in
  after.1 = Err (Wrapped "failed to extract Node.js archive" (External "unexpected EOF")) ∧
  fs after.2 !! Scenario.archive_path = None.
Proof. vm_compute. done. Qed.

(** ** Relations on the configuration *)

#[global] Instance on_config_frame Rc `{!PreOrder Rc} : Frame (on_config Rc).
Proof.
  split.
  - split.
    + intros s. unfold on_config. reflexivity.
    + intros s1 s2 s3. unfold on_config. apply transitivity.
  - intros s line. unfold on_config. simpl. reflexivity.
Qed.

#[global] Instance on_config_fs_blind Rc `{!Reflexive Rc} : FsBlind (on_config Rc).
Proof. split; intros; unfold on_config; simpl; reflexivity. Qed.

#[global] Instance activates_preorder v : PreOrder (activates v).
Proof.
  split.
  - intros c. unfold activates. auto.
  - intros c1 c2 c3 (Hp & Hi & Ha) (Hp' & Hi' & Ha'). unfold activates.
    split; [congruence|]. split; [congruence|].
    destruct Ha' as [Ha'|Ha']; [|by right]. rewrite Ha'. exact Ha.
Qed.

Lemma set_active_activates v : preserves (on_config (activates v)) (set_active v).
Proof. intros s. unfold on_config, activates. simpl. auto. Qed.

Lemma SetActiveVersion_activates E v :
  preserves (on_config (activates v)) (SetActiveVersion E v).
Proof.
  apply SetActiveVersion_frame; try apply _.
  - apply set_active_activates.
  - intros. apply os_Remove_blind; apply _.
Qed.


Lemma remove_first_other id v l : v ≠ id → v ∈ remove_first id l ↔ v ∈ l.
Proof.
  intros Hne. induction l as [|x l IH]; simpl; [done|].
  case_decide as Hx.
  - subst x. rewrite elem_of_cons. split; [by right | by intros [?|?]].
  - rewrite !elem_of_cons, IH. done.
Qed.

(** What the three commands do to the configuration. *)

Lemma cfg_eq_frame : Frame cfg_eq.
Proof. apply on_config_frame. apply _. Qed.

Lemma cfg_eq_blind : FsBlind cfg_eq.
Proof. apply on_config_fs_blind. apply _. Qed.
#[local] Existing Instances cfg_eq_frame cfg_eq_blind.

Lemma UninstallVersion_config E id s :
  let c := config s in
  let c' := config (UninstallVersion E id s).2 in
  c' = c ∨
  (ActiveVersion c ≠ id ∧ InstallPath c' = InstallPath c ∧
   InstalledVersions c' = remove_first id (InstalledVersions c) ∧
   ActiveVersion c' = ActiveVersion c).
Proof.
  intros c. change (wp (UninstallVersion E id) s (λ _ s',
    config s' = c ∨
    (ActiveVersion c ≠ id ∧ InstallPath (config s') = InstallPath c ∧
     InstalledVersions (config s') = remove_first id (InstalledVersions c) ∧
     ActiveVersion (config s') = ActiveVersion c))).
  unfold UninstallVersion. apply wp_bind, wp_get_config. fold c.
  case_decide as Hact; [by left|].
  apply wp_bind. eapply (wp_frame cfg_eq); [apply os_Stat_frame; apply _|].
  intros [st|e] s1 Hs1; [|by left]. unfold cfg_eq, on_config in Hs1.
  destruct (IsNotExist st); [by left|].
  apply wp_bind. eapply (wp_frame cfg_eq);
    [apply preserves_wrap, os_RemoveAll_blind; apply _|].
  intros [[]|e] s2 Hs2; unfold cfg_eq, on_config in Hs2.
  - right. unfold wp. simpl. rewrite <- Hs2, <- Hs1. done.
  - left. subst c. congruence.
Qed.

Lemma record_installed_config clean s :
  let c := config s in
  let after := record_installed clean s in
  after.1 = Ok tt ∧
  InstallPath (config after.2) = InstallPath c ∧
  ActiveVersion (config after.2) = ActiveVersion c ∧
  clean ∈ InstalledVersions (config after.2) ∧
  ((clean ∈ InstalledVersions c ∧ InstalledVersions (config after.2) = InstalledVersions c) ∨
   ((clean ∉ InstalledVersions c) ∧
    InstalledVersions (config after.2) = InstalledVersions c ++ [clean])).
Proof.
  intros c after. unfold after, record_installed. rewrite bind_eq. simpl. fold c.
  case_bool_decide as Hin; simpl.
  - auto 10.
  - repeat split; try done.
    + apply elem_of_app. right. by apply list_elem_of_singleton.
    + by right.
Qed.

Lemma offer_activation_config E tok s :
  offers tok (config s) (config (offer_activation E tok s).2).
Proof.
  change (wp (offer_activation E tok) s (λ _ s', offers tok (config s) (config s'))).
  unfold offer_activation. apply wp_bind, wp_get_config.
  case_decide as Hact; [|by repeat split; auto].
  do 2 (apply wp_bind, wp_print). simpl.
  case_decide; [|by repeat split; auto].
  apply wp_bind, wp_try.
  eapply (wp_frame (on_config (activates tok))); [apply SetActiveVersion_activates|].
  intros r s1 (Hp & Hi & Ha). simpl in *.
  assert (offers tok (config s) (config s1)) as Hoff.
  { split; [done|]. split; [done|]. destruct Ha; auto. }
  destruct r; apply wp_print; exact Hoff.
Qed.

Lemma installs_refl tok c : installs tok c c.
Proof. split; [done|]. by left. Qed.

Lemma installs_eq tok c c1 c' : c = c1 → c1 = c' → installs tok c c'.
Proof. intros -> ->. apply installs_refl. Qed.

Ltac same_config := unfold cfg_eq, on_config in *; simpl in *; congruence.

Lemma InstallNodeVersion_config E tok s :
  let after := InstallNodeVersion E tok s in
  installs tok (config s) (config after.2) ∧
  (after.1 = Ok tt → Strings.TrimPrefix tok "v" ∈ InstalledVersions (config after.2)).
Proof.
  set (clean := Strings.TrimPrefix tok "v").
  change (wp (InstallNodeVersion E tok) s (λ r s',
    installs tok (config s) (config s') ∧
    (r = Ok tt → clean ∈ InstalledVersions (config s')))).
  unfold InstallNodeVersion. apply wp_bind, wp_print. apply wp_bind, wp_get_config.
  simpl. fold clean.
  case_bool_decide as Hin.
  { apply wp_print. simpl. split; [apply installs_refl | done]. }
  set (P := λ (r : res ()) (s' : State),
         installs tok (config s) (config s') ∧
         (r = Ok tt → clean ∈ InstalledVersions (config s'))).
  assert (Hfail : ∀ (e : error) s1, config s = config s1 → P (Err e) s1).
  { intros e s1 Hs1. split; [by eapply installs_eq | done]. }
  apply wp_bind. eapply (wp_frame cfg_eq);
    [apply preserves_wrap, frame_MkdirAll|].
  intros [[]|e] s1 Hs1; [|apply Hfail; same_config].
  apply wp_bind. eapply (wp_frame cfg_eq);
    [apply preserves_wrap, frame_MkdirAll|].
  intros [[]|e] s2 Hs2; [|apply Hfail; same_config].
  apply wp_bind. eapply (wp_frame cfg_eq); [apply detectSystemInfo_frame; apply _|].
  intros [[[nodeArch nodeOS] ext]|e] s3 Hs3; [|apply Hfail; same_config].
  apply wp_bind. eapply (wp_frame cfg_eq); [apply download_archive_frame; apply _|].
  intros [[filename archivePath]|e] s4 Hs4; [|apply Hfail; same_config].
  assert (Hs : config s = config s4) by same_config. clear Hs1 Hs2 Hs3 Hs4 s1 s2 s3.
  apply wp_defer.
  set (P' := λ (r : res ()) (s' : State), P r (os_Remove E archivePath s').2).
  assert (Hclean : ∀ r s1, P r s1 → P' r s1).
  { intros r s1 [Hi Hr]. unfold P'.
    pose proof (os_Remove_blind cfg_eq E archivePath s1) as Heq.
    unfold cfg_eq, on_config in Heq. split; rewrite <- Heq; done. }
  assert (Hfail' : ∀ (e : error) s1, config s = config s1 → P' (Err e) s1).
  { intros e s1 Hs1. by apply Hclean, Hfail. }
  do 2 (apply wp_bind, wp_print).
  apply wp_bind. eapply (wp_frame cfg_eq);
    [apply preserves_wrap, ExtractArchive_frame; apply _|].
  intros [[]|e] s5 Hs5; [|apply Hfail'; same_config].
  apply wp_bind, wp_print.
  apply wp_bind. eapply (wp_frame cfg_eq); [apply verify_installation_frame; apply _|].
  intros [[]|e] s6 Hs6; [|apply Hfail'; same_config].
  assert (Hs' : config s = config s6) by same_config. clear Hs5 Hs6 s5.
  apply wp_bind. unfold wp at 1.
  pose proof (record_installed_config clean s6) as Hrec. cbv zeta in Hrec.
  destruct Hrec as (-> & Hp & Ha & Hc & Hrec).
  set (s7 := (record_installed clean s6).2) in *.
  destruct Hrec as [[Hold _]|[_ Hnew]]; [rewrite <- Hs' in Hold; done|].
  apply wp_bind, wp_print.
  set (s8 := (print _ s7).2).
  assert (Hs8 : config s8 = config s7) by done.
  unfold wp. apply Hclean.
  pose proof (offer_activation_config E tok s8) as (Hp' & Hi' & Ha').
  rewrite Hs8 in Hp', Hi', Ha'. rewrite <- Hs' in Hp, Ha, Hnew.
  clearbody s7 s8. split.
  - split; [by rewrite Hp', Hp|]. right. split; [done|]. split; [by rewrite Hi', Hnew|].
    rewrite Ha in Ha'. destruct Ha' as [Ha'|[Ha' Ha'']]; [by left | by right].
  - intros _. by rewrite Hi'.
Qed.

(** ** The invariant of the version store *)

Lemma HasPrefix_false_TrimPrefix s p : Strings.HasPrefix s p = false → Strings.TrimPrefix s p = s.
Proof. unfold Strings.HasPrefix, Strings.TrimPrefix. by destruct (Strings.strip p s). Qed.

(** C5, as the code has it.  Removal keeps the invariant of the store;
    activation keeps it for an identifier of the installed set (what it
    checks is the directory on disk, not the set); installation keeps it
    when the token has no leading "v" or a version is active already. *)
Theorem store_invariant_preserved E s :
  store_invariant (config s) →
  (∀ id, store_invariant (config (UninstallVersion E id s).2)) ∧
  (∀ id, id ∈ InstalledVersions (config s) →
         store_invariant (config (SetActiveVersion E id s).2)) ∧
  (∀ tok, Strings.HasPrefix tok "v" = false ∨ ActiveVersion (config s) ≠ "" →
          store_invariant (config (InstallNodeVersion E tok s).2)).
Proof.
  intros Hinv. split; [|split].
  - intros id. destruct (UninstallVersion_config E id s) as [->|(Hact & _ & Hi & Ha)];
      [done|].
    unfold store_invariant. rewrite Ha, Hi. intros Hne.
    apply remove_first_other; [done | by apply Hinv].
  - intros id Hid. destruct (SetActiveVersion_activates E id s) as (_ & Hi & Ha).
    unfold store_invariant. rewrite Hi. destruct Ha as [->| ->]; [done|]. by intros _.
  - intros tok Htok.
    destruct (InstallNodeVersion_config E tok s) as [[_ Hcases] _].
    unfold store_invariant.
    destruct Hcases as [[-> ->]|(Hnew & -> & Ha)]; [done|].
    destruct Ha as [->|[Hnone ->]].
    + intros Hne. apply elem_of_app. left. by apply Hinv.
    + destruct Htok as [Htok|Htok]; [|done].
      intros _. apply elem_of_app. right. apply list_elem_of_singleton.
      by rewrite HasPrefix_false_TrimPrefix.
Qed.

Lemma store_invariant_preserved_witness :
  let E := Scenario.broken_env in
  let s := Scenario.stocked in
  store_invariant (config (UninstallVersion E "20.5.0" s).2) ∧
  store_invariant (config (SetActiveVersion E "20.5.0" s).2) ∧
  store_invariant (config (InstallNodeVersion E "16.20.2" s).2).
Proof.
  intros E s. destruct (store_invariant_preserved E s) as (Hremove & Hactivate & Hinstall).
  - intros _. simpl. apply elem_of_cons. by left.
  - split; [apply Hremove|]. split; [apply Hactivate | apply Hinstall].
    + simpl. apply elem_of_cons. right. apply elem_of_cons. by left.
    + left. reflexivity.
Defined.

(** C5, as the specification has it, fails for activation: after an
    installation that broke off during the download the directory of the
    version exists while the installed set does not have the version, and
    activation, which looks at the directory only, makes it the active one. *)
Lemma activation_leaves_store_invariant :
  let E := Scenario.broken_env in
  let s := (InstallNodeVersion E "20.5.0" Scenario.fresh).2 in
  store_invariant (config s) ∧
  (SetActiveVersion E "20.5.0" s).1 = Ok tt ∧
  ¬ store_invariant (config (SetActiveVersion E "20.5.0" s).2).
Proof.
  intros E s. split; [|split].
  - intros Hactive. exfalso. apply Hactive. by vm_compute.
  - by vm_compute.
  - intros Hinv. unfold store_invariant in Hinv.
    assert (ActiveVersion (config (SetActiveVersion E "20.5.0" s).2) = "20.5.0") as Ha
      by (by vm_compute).
    assert (InstalledVersions (config (SetActiveVersion E "20.5.0" s).2) = []) as Hi
      by (by vm_compute).
    rewrite Ha, Hi in Hinv. by apply not_elem_of_nil in Hinv.
Qed.

(** ** Removal of a version *)




Lemma lookup_cleared_inside (f : gmap path node) p q :
  within p q = true → filter (λ kv, within p kv.1 = false) f !! q = None.
Proof.
  intros Hq. apply map_lookup_filter_None. right. intros x _. simpl. congruence.
Qed.

Lemma lookup_cleared_outside (f : gmap path node) p q :
  within p q = false → filter (λ kv, within p kv.1 = false) f !! q = f !! q.
Proof.
  intros Hq. destruct (f !! q) as [x|] eqn:Hx.
  - apply map_lookup_filter_Some. done.
  - apply map_lookup_filter_None. by left.
Qed.



(** ** Strings and path names *)

Lemma append_nil_l (t : string) : "" +:+ t = t.
Proof. reflexivity. Qed.

Lemma append_cons c (s t : string) : String c s +:+ t = String c (s +:+ t).
Proof. reflexivity. Qed.

Lemma append_nil_r (s : string) : s +:+ "" = s.
Proof. induction s as [|c s IH]; [done|]. by rewrite append_cons, IH. Qed.

Lemma append_assoc (s t u : string) : (s +:+ t) +:+ u = s +:+ (t +:+ u).
Proof. induction s as [|c s IH]; [done|]. by rewrite !append_cons, IH. Qed.

Lemma strip_append p r : Strings.strip p (p +:+ r) = Some r.
Proof.
  induction p as [|c p IH]; [done|]. rewrite append_cons. simpl.
  by rewrite Ascii.eqb_refl.
Qed.

Lemma HasPrefix_append p r : Strings.HasPrefix (p +:+ r) p = true.
Proof. unfold Strings.HasPrefix. by rewrite strip_append. Qed.

Lemma TrimPrefix_append p r : Strings.TrimPrefix (p +:+ r) p = r.
Proof. unfold Strings.TrimPrefix. by rewrite strip_append. Qed.


(** ** Splitting at separators *)

Section Split.
Context (f : ascii → bool).

Lemma split_by_nonempty s : Strings.split_by f s ≠ [].
Proof. destruct s as [|c s]; simpl; [done|]. destruct (f c); [done|]. by destruct (Strings.split_by f s). Qed.

Lemma split_by_plain s : plain f s = true → Strings.split_by f s = [s].
Proof.
  induction s as [|c s IH]; simpl; [done|].
  intros [Hc Hs]%andb_prop. apply negb_true_iff in Hc. rewrite Hc, IH; done.
Qed.

Lemma split_by_app s c t :
  f c = true →
  Strings.split_by f (s +:+ String c t) = Strings.split_by f s ++ Strings.split_by f t.
Proof.
  intros Hc. induction s as [|d s IH].
  - rewrite append_nil_l. simpl. by rewrite Hc.
  - rewrite append_cons. simpl. destruct (f d); [by rewrite IH|].
    rewrite IH. pose proof (split_by_nonempty s).
    by destruct (Strings.split_by f s).
Qed.

Lemma split_by_all_plain s : Forall (λ x, plain f x = true) (Strings.split_by f s).
Proof.
  induction s as [|c s IH]; simpl; [by repeat constructor|].
  destruct (f c) eqn:Hc; [by constructor|].
  destruct (Strings.split_by f s) as [|h t]; [by repeat constructor; simpl; rewrite Hc|].
  inversion IH; subst. constructor; [|done]. simpl. by rewrite Hc.
Qed.

Lemma plain_append s t : plain f (s +:+ t) = plain f s && plain f t.
Proof.
  induction s as [|c s IH]; [done|]. rewrite append_cons. simpl.
  by rewrite IH, andb_assoc.
Qed.
End Split.

(** ** Parsed paths *)

Section Paths.
Context (w : bool).
#[local] Abbreviation f := (IsPathSeparator w).
#[local] Abbreviation sep := (Separator w).

Lemma is_sep_sep : f sep = true.
Proof. by destruct w. Qed.

Lemma plain_dotdot : plain f ".." = true.
Proof. by destruct w. Qed.

Lemma clean_step_skip r out c : c = "" ∨ c = "." → clean_step r out c = out.
Proof. intros Hc. unfold clean_step. by rewrite decide_True. Qed.

Lemma clean_step_name r out c : is_name w c → clean_step r out c = c :: out.
Proof.
  intros (_ & H1 & H2 & H3). unfold clean_step.
  rewrite decide_False by (by intros [?|?]). by rewrite decide_False.
Qed.

Lemma clean_step_dots k : clean_step false (replicate k "..") ".." = replicate (S k) "..".
Proof. destruct k; done. Qed.

Lemma fold_names r out names :
  Forall (is_name w) names → fold_left (clean_step r) names out = rev names ++ out.
Proof.
  intros Hn. revert out. induction Hn as [|x names Hx Hn IH]; intros out; simpl; [done|].
  rewrite clean_step_name by done. rewrite IH. by rewrite <- app_assoc.
Qed.

Lemma replicate_snoc {A} k (x : A) : replicate k x ++ [x] = x :: replicate k x.
Proof. induction k as [|k IH]; simpl; [done|]. by rewrite IH. Qed.

Lemma rev_replicate {A} k (x : A) : rev (replicate k x) = replicate k x.
Proof. induction k as [|k IH]; simpl; [done|]. by rewrite IH, replicate_snoc. Qed.

Lemma fold_dots k j :
  fold_left (clean_step false) (replicate k "..") (replicate j "..") =
  replicate (k + j) "..".
Proof.
  revert j. induction k as [|k IH]; intros j; simpl; [done|].
  rewrite clean_step_dots, IH. by rewrite Nat.add_succ_r.
Qed.

(** Cleaning the elements of a cleaned path gives them back. *)
Lemma fold_cleaned r es :
  cleaned w (r, es) → fold_left (clean_step r) es [] = rev es.
Proof.
  intros (k & names & Hes & Hk & Hn). simpl in *. subst es. rewrite fold_left_app.
  destruct r.
  - rewrite (Hk eq_refl). simpl. rewrite fold_names by done. by rewrite app_nil_r.
  - pose proof (fold_dots k 0) as Hd. simpl in Hd. rewrite Hd, Nat.add_0_r.
    rewrite fold_names by done.
    by rewrite rev_app_distr, rev_replicate.
Qed.

(** *** Printing and parsing again *)

Lemma concat_cons x y (ys : list string) :
  String.concat (String sep "") (x :: y :: ys) =
  x +:+ String sep (String.concat (String sep "") (y :: ys)).
Proof. reflexivity. Qed.

Lemma split_concat es :
  es ≠ [] → Forall (λ x, plain f x = true) es →
  Strings.split_by f (String.concat (String sep "") es) = es.
Proof.
  intros Hne Hpl. induction Hpl as [|x es Hx Hes IH]; [done|].
  destruct es as [|y ys].
  - simpl. by apply split_by_plain.
  - rewrite concat_cons, split_by_app by apply is_sep_sep.
    rewrite split_by_plain by done. rewrite IH by done. done.
Qed.

Lemma is_name_plain x : is_name w x → plain f x = true.
Proof. by intros [? _]. Qed.

Lemma cleaned_plain r es : cleaned w (r, es) → Forall (λ x, plain f x = true) es.
Proof.
  intros (k & names & Hes & _ & Hn). simpl in *. subst es. apply Forall_app. split.
  - apply Forall_forall. intros x ->%elem_of_replicate_inv. apply plain_dotdot.
  - eapply Forall_impl; [exact Hn|]. apply is_name_plain.
Qed.

Lemma plain_not_rooted x : plain f x = true → rooted w x = false.
Proof. destruct x as [|c x]; [done|]. simpl. by intros [?%negb_true_iff _]%andb_prop. Qed.

Lemma rooted_append s t : s ≠ "" → rooted w (s +:+ t) = rooted w s.
Proof. by destruct s. Qed.

Lemma cleaned_nonempty r es : cleaned w (r, es) → Forall (λ x, x ≠ "") es.
Proof.
  intros (k & names & Hes & _ & Hn). simpl in *. subst es. apply Forall_app. split.
  - apply Forall_forall. by intros x ->%elem_of_replicate_inv.
  - eapply Forall_impl; [exact Hn|]. by intros x (_ & ? & _).
Qed.

Lemma concat_rooted e es :
  e ≠ "" → rooted w (String.concat (String sep "") (e :: es)) = rooted w e.
Proof.
  intros He. destruct es as [|y ys]; [done|]. rewrite concat_cons.
  by apply rooted_append.
Qed.

Lemma concat_nonempty e es : e ≠ "" → String.concat (String sep "") (e :: es) ≠ "".
Proof.
  intros He. destruct es as [|y ys]; [done|]. rewrite concat_cons. by destruct e.
Qed.

Lemma parse_show p : cleaned w p → parse w (show w p) = p.
Proof.
  destruct p as [r es]. intros Hc. pose proof (cleaned_plain _ _ Hc) as Hpl.
  pose proof (cleaned_nonempty _ _ Hc) as Hne.
  pose proof (fold_cleaned r es Hc) as Hfold.
  unfold show, parse, clean_from. simpl.
  destruct es as [|e es].
  - simpl. destruct r; simpl.
    + rewrite is_sep_sep. simpl. done.
    + by destruct w.
  - inversion Hpl as [|?? He _]; subst. inversion Hne as [|?? He' _]; subst.
    set (body := String.concat (String sep "") (e :: es)).
    assert (Hsplit : Strings.split_by f body = e :: es) by by apply split_concat.
    destruct r.
    + simpl. rewrite is_sep_sep. simpl. rewrite Hsplit.
      change (fold_left (clean_step true) (e :: es) (clean_step true [] ""))
        with (fold_left (clean_step true) (e :: es) []).
      by rewrite Hfold, rev_involutive.
    + rewrite decide_False by by apply concat_nonempty.
      fold body. assert (Hroot : rooted w body = false).
      { unfold body. by rewrite (concat_rooted e es He'), (plain_not_rooted e He). }
      by rewrite Hroot, Hsplit, Hfold, rev_involutive.
Qed.

(** *** What parsing yields is cleaned *)

Lemma clean_step_cleaned r out c :
  plain f c = true →
  cleaned w (r, rev out) → cleaned w (r, rev (clean_step r out c)).
Proof.
  intros Hpl (k & names & Hes & Hk & Hn). simpl in *.
  destruct (decide (c = "" ∨ c = ".")) as [Hskip|Hskip].
  { rewrite clean_step_skip by done. by exists k, names. }
  destruct (decide (c = "..")) as [->|Hdd].
  - unfold clean_step. rewrite decide_False by done. rewrite decide_True by done.
    destruct out as [|top rest].
    + destruct r; [by exists O, []|]. exists 1%nat, []. by repeat split.
    + simpl in Hes. destruct (decide (top = "..")) as [->|Htop].
      * (* the stack holds dots only *)
        assert (names = []) as ->.
        { destruct names as [|x names _] using rev_ind; [done|]. exfalso.
          rewrite app_assoc in Hes. apply app_inj_tail in Hes as [_ Hx]. subst x.
          apply Forall_app in Hn as [_ Hn]. inversion Hn as [|?? (_ & _ & _ & ?)]; done. }
        rewrite app_nil_r in Hes. destruct r.
        { rewrite (Hk eq_refl) in Hes. simpl in Hes. by destruct (rev rest). }
        exists (S (S (length rest))), []. simpl. split; [|by split].
        rewrite app_nil_r.
        assert (Hrest : rev rest ++ [".."] = replicate (S (length rest)) "..").
        { rewrite Hes. f_equal. rewrite <- (length_rev rest).
          assert (length (rev rest ++ [".."]) = length (replicate k "..")) as Hl
            by by rewrite Hes.
          rewrite length_app, length_replicate in Hl. simpl in Hl.
          rewrite length_rev. rewrite length_rev in Hl. lia. }
        rewrite Hrest. simpl. by rewrite replicate_snoc.
      * (* the last name is dropped *)
        destruct names as [|x names _] using rev_ind.
        { rewrite app_nil_r in Hes. exfalso. apply Htop.
          assert (top ∈ replicate k "..") as Hin.
          { rewrite <- Hes. apply elem_of_app. right. by apply list_elem_of_singleton. }
          by apply elem_of_replicate_inv in Hin. }
        rewrite app_assoc in Hes. apply app_inj_tail in Hes as [Hes _].
        exists k, names. split; [done|]. split; [done|].
        by apply Forall_app in Hn as [Hn _].
  - assert (is_name w c) as Hname.
  { repeat split; [done | | | done]; intros ->; apply Hskip; auto. }
    rewrite clean_step_name by done. simpl.
    exists k, (names ++ [c]). split; [by rewrite Hes, app_assoc|]. split; [done|].
    apply Forall_app. split; [done|]. by constructor.
Qed.

Lemma fold_cleaned_from r comps out :
  Forall (λ x, plain f x = true) comps →
  cleaned w (r, rev out) → cleaned w (r, rev (fold_left (clean_step r) comps out)).
Proof.
  intros Hpl. revert out. induction Hpl as [|c comps Hc Hpl IH]; intros out Hout; [done|].
  simpl. apply IH. by apply clean_step_cleaned.
Qed.

Lemma cleaned_root r : cleaned w (r, []).
Proof. by exists O, []. Qed.

Lemma clean_from_cleaned r out s :
  cleaned w (r, rev out) → cleaned w (r, rev (clean_from w r out s)).
Proof. apply fold_cleaned_from, split_by_all_plain. Qed.

Lemma parse_cleaned s : cleaned w (parse w s).
Proof. apply clean_from_cleaned, cleaned_root. Qed.

Lemma parse_Clean s : parse w (Clean w s) = parse w s.
Proof. apply parse_show, parse_cleaned. Qed.


Lemma Clean_nonempty s : Clean w s ≠ "".
Proof.
  unfold Clean, show. destruct (parse w s) as [[] es]; simpl; [done|].
  by case_decide.
Qed.

(** *** Joining *)

Lemma clean_from_append r out a b :
  clean_from w r out (a +:+ String sep b) = clean_from w r (clean_from w r out a) b.
Proof.
  unfold clean_from. rewrite split_by_app by apply is_sep_sep. apply fold_left_app.
Qed.

Lemma parse_append a b :
  a ≠ "" →
  parse w (a +:+ String sep b) =
    ((parse w a).1, rev (clean_from w (parse w a).1 (rev (parse w a).2) b)).
Proof.
  intros Ha. unfold parse. rewrite rooted_append by done. simpl.
  by rewrite clean_from_append, rev_involutive.
Qed.

Lemma Join_two a b : a ≠ "" → Join w [a; b] = Clean w (a +:+ String sep b).
Proof. intros Ha. unfold Join. by destruct a. Qed.

Lemma parse_Join a b :
  a ≠ "" →
  parse w (Join w [a; b]) =
    ((parse w a).1, rev (clean_from w (parse w a).1 (rev (parse w a).2) b)).
Proof. intros Ha. by rewrite Join_two, parse_Clean, parse_append. Qed.

Lemma clean_from_name r out x : is_name w x → clean_from w r out x = x :: out.
Proof.
  intros Hx. unfold clean_from. rewrite split_by_plain by by apply is_name_plain.
  simpl. by apply clean_step_name.
Qed.

Lemma clean_from_empty r out : clean_from w r out "" = out.
Proof. done. Qed.

(** Joining a name to a path adds it as the last element. *)
Lemma parse_Join_name a x :
  a ≠ "" → is_name w x →
  parse w (Join w [a; x]) = ((parse w a).1, (parse w a).2 ++ [x]).
Proof.
  intros Ha Hx. rewrite parse_Join by done. rewrite clean_from_name by done.
  simpl. by rewrite rev_involutive.
Qed.



(** *** Joining names *)

Lemma clean_from_names r out names :
  Forall (is_name w) names →
  clean_from w r out (String.concat (String sep "") names) = rev names ++ out.
Proof.
  intros Hn. destruct names as [|x names]; [done|].
  unfold clean_from. rewrite split_concat; [by apply fold_names|done|].
  eapply Forall_impl; [exact Hn|]. apply is_name_plain.
Qed.

Lemma drop_empty_names names : Forall (is_name w) names → drop_empty names = names.
Proof. intros Hn. destruct Hn as [|x names (_ & Hx & _) _]; [done|]. by destruct x. Qed.

(** Joining names to a path adds them as its last elements. *)
Lemma parse_Join_names a names :
  Forall (is_name w) names →
  parse w (Join w (a :: names)) = ((parse w a).1, (parse w a).2 ++ names).
Proof.
  intros Hn. destruct (decide (a = "")) as [->|Ha].
  - unfold Join. change (drop_empty ("" :: names)) with (drop_empty names).
    rewrite drop_empty_names by done.
    destruct names as [|x names]; [done|].
    rewrite parse_Clean. inversion Hn as [|?? Hx _]; subst.
    unfold parse at 1.
    rewrite concat_rooted by apply Hx.
    rewrite (plain_not_rooted x) by apply Hx.
    rewrite clean_from_names by done. by rewrite app_nil_r, rev_involutive.
  - assert (Join w (a :: names) = Clean w (String.concat (String sep "") (a :: names))) as ->.
    { unfold Join. by destruct a. }
    rewrite parse_Clean. destruct names as [|x names].
    + change (String.concat (String sep "") [a]) with a. rewrite app_nil_r.
      by destruct (parse w a).
    + rewrite concat_cons, parse_append by done.
      rewrite clean_from_names by done. by rewrite rev_app_distr, !rev_involutive.
Qed.

Lemma show_nonempty p : show w p ≠ "".
Proof. unfold show. destruct p as [[] es]; simpl; [done|]. by case_decide. Qed.

Lemma Join_show a names :
  names ≠ [] → Forall (is_name w) names →
  Join w (a :: names) = show w (parse w (Join w (a :: names))).
Proof.
  intros Hne Hn. unfold Join.
  assert (drop_empty (a :: names) ≠ []) as Hd.
  { destruct a; [|done]. simpl. rewrite drop_empty_names by done. done. }
  destruct (drop_empty (a :: names)) as [|e es]; [done|].
  by rewrite parse_Clean.
Qed.

Lemma Join_nonempty a names :
  names ≠ [] → Forall (is_name w) names → Join w (a :: names) ≠ "".
Proof. intros Hne Hn. rewrite Join_show by done. apply show_nonempty. Qed.

(** *** The text of a path with more elements *)

Lemma concat_app (es more : list string) :
  es ≠ [] → more ≠ [] →
  String.concat (String sep "") (es ++ more) =
  String.concat (String sep "") es +:+ String sep (String.concat (String sep "") more).
Proof.
  intros Hes Hmore. induction es as [|e es IH]; [done|].
  destruct es as [|e' es].
  - destruct more as [|m more]; [done|]. reflexivity.
  - change ((e :: e' :: es) ++ more) with (e :: (e' :: es) ++ more).
    change ((e' :: es) ++ more) with (e' :: es ++ more) at 1.
    rewrite !concat_cons. change (e' :: es ++ more) with ((e' :: es) ++ more).
    rewrite IH by done. rewrite append_assoc. by rewrite append_cons.
Qed.

Lemma show_app r es more :
  Forall (λ x, x ≠ "") es → es ≠ [] → more ≠ [] →
  show w (r, es ++ more) =
  show w (r, es) +:+ String sep (String.concat (String sep "") more).
Proof.
  intros Hne Hes Hmore. unfold show. simpl. rewrite concat_app by done.
  destruct r; [by rewrite append_cons|].
  destruct es as [|e es]; [done|]. inversion Hne as [|?? He _]; subst.
  rewrite decide_False by (destruct e; [done|by destruct es]).
  by rewrite decide_False by by apply concat_nonempty.
Qed.

Lemma show_snoc r es x :
  Forall (λ x, x ≠ "") es → es ≠ [] →
  show w (r, es ++ [x]) = show w (r, es) +:+ String sep x.
Proof. intros Hne Hes. by rewrite show_app. Qed.

Lemma show_single r x :
  x ≠ "" → show w (r, [x]) = if r then String sep x else x.
Proof. intros Hx. unfold show. simpl. destruct r; [done|]. by rewrite decide_False. Qed.

(** *** The directory of a path *)

Lemma upto_last_sep_plain x : plain f x = true → upto_last_sep w x = None.
Proof.
  induction x as [|c x IH]; [done|]. simpl.
  intros [Hc Hx]%andb_prop. rewrite IH by done. apply negb_true_iff in Hc. by rewrite Hc.
Qed.

Lemma upto_last_sep_app s x :
  plain f x = true → upto_last_sep w (s +:+ String sep x) = Some (s +:+ String sep "").
Proof.
  intros Hx. induction s as [|c s IH].
  - rewrite !append_nil_l. simpl. by rewrite upto_last_sep_plain, is_sep_sep.
  - rewrite !append_cons. simpl. by rewrite IH.
Qed.

Lemma parse_sep : parse w (String sep "") = (true, []).
Proof. by destruct w. Qed.

Lemma parse_Dir_snoc r es x :
  cleaned w (r, es) → is_name w x → parse w (Filepath.Dir w (show w (r, es ++ [x]))) = (r, es).
Proof.
  intros Hc Hx. pose proof (cleaned_nonempty _ _ Hc) as Hne.
  pose proof (is_name_plain _ Hx) as Hpl. destruct Hx as (_ & Hx & _).
  unfold Filepath.Dir. rewrite parse_Clean. destruct es as [|e es].
  - simpl. rewrite show_single by done. destruct r.
    + rewrite <- (append_nil_l (String sep x)), upto_last_sep_app by done.
      simpl. apply parse_sep.
    + by rewrite upto_last_sep_plain.
  - rewrite show_snoc by done. rewrite upto_last_sep_app by done. simpl.
    rewrite parse_append by apply show_nonempty.
    rewrite parse_show by done. rewrite clean_from_empty.
    cbn [fst snd]. by rewrite rev_involutive.
Qed.

(** The directory of a path joined from names is the path without the last
    of them. *)
Lemma parse_Dir_Join a names x :
  Forall (is_name w) names → is_name w x →
  parse w (Filepath.Dir w (Join w (a :: names ++ [x]))) = ((parse w a).1, (parse w a).2 ++ names).
Proof.
  intros Hn Hx.
  assert (Forall (is_name w) (names ++ [x])) as Hall by (apply Forall_app; auto).
  rewrite Join_show by (done || by destruct names).
  rewrite parse_Join_names by done. rewrite app_assoc.
  rewrite parse_Dir_snoc; [done| |done].
  pose proof (parse_cleaned a) as (k & ns & Hk & Hr & Hns).
  exists k, (ns ++ names). cbn [fst snd].
  split; [by rewrite Hk, app_assoc|]. split; [done|].
  apply Forall_app; auto.
Qed.

(** *** The last element *)


Lemma parent_snoc r es x : parent (r, es ++ [x]) = (r, es).
Proof. unfold parent. simpl. by rewrite removelast_last. Qed.

(** *** Prefixes and suffixes of the text *)

Lemma HasPrefix_refl s : Strings.HasPrefix s s = true.
Proof. rewrite <- (append_nil_r s) at 1. apply HasPrefix_append. Qed.





Lemma not_sep_eqb c : f c = false → Ascii.eqb sep c = false.
Proof.
  intros Hc. destruct (Ascii.eqb sep c) eqn:Heq; [|done].
  apply Ascii.eqb_eq in Heq. subst c. by rewrite is_sep_sep in Hc.
Qed.



End Paths.

(** ** Paths inside a directory *)

Lemma strip_elems_app d l : strip_elems d (d ++ l) = Some l.
Proof. induction d as [|x d IH]; [done|]. simpl. by rewrite decide_True. Qed.

Lemma strip_elems_Some d l rest : strip_elems d l = Some rest → l = d ++ rest.
Proof.
  revert l. induction d as [|x d IH]; intros l; simpl; [by intros [= ->]|].
  destruct l as [|y l]; [done|]. case_decide as Hxy; [|done].
  intros ->%IH. by subst y.
Qed.

Lemma relative_to_app r es rel :
  ".." ∉ rel → relative_to (r, es) (r, es ++ rel) = Some rel.
Proof.
  intros Hrel. unfold relative_to. simpl. rewrite decide_True by done.
  rewrite strip_elems_app. by rewrite decide_False.
Qed.

Lemma relative_to_Some d p rel :
  relative_to d p = Some rel → p = (d.1, d.2 ++ rel) ∧ ".." ∉ rel.
Proof.
  unfold relative_to. destruct d as [r es], p as [r' es']. simpl.
  case_decide as Hr; [|done]. subst r'.
  destruct (strip_elems es es') as [rest|] eqn:Hstrip; [|done].
  case_decide as Hdots; [done|]. intros [= <-].
  by apply strip_elems_Some in Hstrip as ->.
Qed.


Lemma within_app r es rel : ".." ∉ rel → within (r, es) (r, es ++ rel) = true.
Proof. intros Hrel. unfold within. by rewrite relative_to_app. Qed.

(** ** The file system *)

Lemma base_dir_snoc r es x : x ≠ ".." → base_dir (r, es ++ [x]) = false.
Proof.
  intros Hx. unfold base_dir. simpl. rewrite forallb_app. simpl.
  rewrite bool_decide_eq_false_2 by done. by rewrite andb_false_r.
Qed.

Lemma lstat_snoc fs r es x : x ≠ ".." → lstat fs (r, es ++ [x]) = fs !! (r, es ++ [x]).
Proof. intros Hx. unfold lstat. by rewrite base_dir_snoc. Qed.

Lemma lstat_None fs p : lstat fs p = None → base_dir p = false ∧ fs !! p = None.
Proof. unfold lstat. by destruct (base_dir p). Qed.

Lemma lstat_insert_ne fs k n p : p ≠ k → lstat (<[k := n]> fs) p = lstat fs p.
Proof. intros Hp. unfold lstat. by rewrite lookup_insert_ne. Qed.

Lemma blocked_is_file fs p :
  blocked fs p = existsb (λ q, is_file (lstat fs q)) (ancestors p).
Proof. reflexivity. Qed.

Lemma ancestors_snoc r es x : ancestors (r, es ++ [x]) = (r, es) :: ancestors (r, es).
Proof. unfold ancestors. simpl. rewrite rev_app_distr. simpl. by rewrite rev_involutive. Qed.

(** A path is blocked by its parent or by what blocks its parent. *)
Lemma blocked_snoc fs r es x :
  blocked fs (r, es ++ [x]) = is_file (lstat fs (r, es)) || blocked fs (r, es).
Proof. by rewrite !blocked_is_file, ancestors_snoc. Qed.

Lemma ancestors_rev_shorter r up q :
  q ∈ ancestors_rev r up → (length q.2 < length up)%nat.
Proof.
  induction up as [|x up IH]; simpl; [by intros ?%elem_of_nil|].
  intros [->|Hq]%elem_of_cons.
  - simpl. rewrite length_rev. lia.
  - apply IH in Hq. lia.
Qed.

Lemma not_own_ancestor p : p ∉ ancestors p.
Proof.
  intros Hp%ancestors_rev_shorter. rewrite length_rev in Hp. lia.
Qed.

Lemma existsb_ext_in {A} (g h : A → bool) l :
  (∀ x, x ∈ l → g x = h x) → existsb g l = existsb h l.
Proof.
  induction l as [|x l IH]; intros Hgh; [done|]. simpl.
  rewrite Hgh by apply list_elem_of_here. rewrite IH; [done|].
  intros y Hy. apply Hgh. by apply list_elem_of_further.
Qed.

(** What is stored at a path that is not above [p] does not block [p]. *)
Lemma blocked_insert_other fs k n p :
  k ∉ ancestors p → blocked (<[k := n]> fs) p = blocked fs p.
Proof.
  intros Hk. rewrite !blocked_is_file. apply existsb_ext_in. intros q Hq.
  rewrite lstat_insert_ne; [done|]. by intros ->.
Qed.

Lemma not_ancestor_longer k p : (length p.2 ≤ length k.2)%nat → k ∉ ancestors p.
Proof. intros Hlen Hk%ancestors_rev_shorter. rewrite length_rev in Hk. lia. Qed.

(** What is stored at a path does not block the path itself. *)
Lemma blocked_insert_self fs p n : blocked (<[p := n]> fs) p = blocked fs p.
Proof.
  rewrite !blocked_is_file. apply existsb_ext_in. intros q Hq.
  rewrite lstat_insert_ne; [done|]. intros ->. by apply not_own_ancestor in Hq.
Qed.

(** Storing something that is not a regular file where no regular file
    was blocks nothing. *)
Lemma blocked_insert fs k n p :
  is_file (Some n) = false → is_file (lstat fs k) = false →
  blocked (<[k := n]> fs) p = blocked fs p.
Proof.
  intros Hn Hk. rewrite !blocked_is_file. apply existsb_ext_in. intros q _.
  destruct (decide (q = k)) as [->|Hq]; [|by rewrite lstat_insert_ne].
  rewrite Hk. unfold lstat. destruct (base_dir k); [done|].
  by rewrite lookup_insert_eq.
Qed.

Section Stat.
Context (w : bool).


Lemma follow_unfold n fs p :
  follow w n fs p =
  if blocked fs p then StatErr ENOTDIR
  else match lstat fs p with
       | Some (Symlink target) =>
           match n with
           | O => StatErr ELOOP
           | S n' => follow w n' fs (link_dest w p target)
           end
       | Some nd => StatOk p nd
       | None => StatNotExist p
       end.
Proof. by destruct n. Qed.

(** What [stat] found is still found after something that is not a regular
    file is stored at a path where nothing was. *)
Lemma follow_insert_fresh n fs k x p q nd :
  lstat fs k = None → is_file (Some x) = false →
  follow w n fs p = StatOk q nd → follow w n (<[k := x]> fs) p = StatOk q nd.
Proof.
  intros Hk Hx. revert p. induction n as [|n IH]; intros p; rewrite !follow_unfold;
    rewrite (blocked_insert fs k x p Hx) by (by rewrite Hk);
    (destruct (blocked fs p); [done|]);
    (destruct (decide (p = k)) as [->|Hp]; [by rewrite Hk|]);
    rewrite (lstat_insert_ne fs k x p Hp);
    destruct (lstat fs p) as [[| |target]|]; try done.
  apply IH.
Qed.

Lemma stat_insert_fresh fs k x p q nd :
  lstat fs k = None → is_file (Some x) = false →
  stat w fs p = StatOk q nd → stat w (<[k := x]> fs) p = StatOk q nd.
Proof. apply follow_insert_fresh. Qed.

Lemma stat_not_blocked fs p q nd : stat w fs p = StatOk q nd → blocked fs p = false.
Proof. unfold stat. rewrite follow_unfold. by destruct (blocked fs p). Qed.

(** A directory does not block what is in it. *)
Lemma dir_not_blocking fs r es x :
  is_dir_at w fs (r, es) → blocked fs (r, es ++ [x]) = false.
Proof.
  intros (q & perm & Hstat). rewrite blocked_snoc.
  rewrite (stat_not_blocked _ _ _ _ Hstat). rewrite orb_false_r.
  unfold stat in Hstat. rewrite follow_unfold in Hstat.
  destruct (blocked fs (r, es)); [done|].
  by destruct (lstat fs (r, es)) as [[| |target]|].
Qed.

Lemma stat_absent fs p :
  blocked fs p = false → lstat fs p = None → stat w fs p = StatNotExist p.
Proof. intros Hb Hl. unfold stat. rewrite follow_unfold. by rewrite Hb, Hl. Qed.

Lemma stat_stored_dir fs p perm :
  blocked fs p = false → lstat fs p = Some (Dir perm) → stat w fs p = StatOk p (Dir perm).
Proof. intros Hb Hl. unfold stat. rewrite follow_unfold. by rewrite Hb, Hl. Qed.

Lemma stat_stored_file fs p perm data :
  blocked fs p = false → lstat fs p = Some (File perm data) →
  stat w fs p = StatOk p (File perm data).
Proof. intros Hb Hl. unfold stat. rewrite follow_unfold. by rewrite Hb, Hl. Qed.

(** *** MkdirAll *)

Lemma mkdir_all_existing fs p perm : is_dir_at w fs p → mkdir_all w fs p perm = inl fs.
Proof.
  intros (q & perm' & Hstat). unfold mkdir_all.
  destruct (rev p.2) as [|x up] eqn:Hrev; [done|].
  cbn [mkdir_all_rev]. rewrite <- Hrev, rev_involutive.
  destruct p as [r es]. simpl. by rewrite Hstat.
Qed.

Lemma mkdir_all_child fs r es x perm :
  is_dir_at w fs (r, es) → x ≠ ".." → fs !! (r, es ++ [x]) = None →
  mkdir_all w fs (r, es ++ [x]) perm = inl (<[(r, es ++ [x]) := Dir perm]> fs).
Proof.
  intros Hdir Hx Hnone. unfold mkdir_all. simpl. rewrite rev_app_distr. simpl.
  rewrite rev_involutive.
  pose proof (dir_not_blocking fs r es x Hdir) as Hb.
  assert (lstat fs (r, es ++ [x]) = None) as Hl by by rewrite lstat_snoc.
  rewrite (stat_absent _ _ Hb Hl).
  pose proof (mkdir_all_existing fs (r, es) perm Hdir) as Hup.
  unfold mkdir_all in Hup. simpl in Hup. rewrite Hup.
  unfold mkdir. rewrite Hl, parent_snoc.
  destruct Hdir as (q & perm' & ->). done.
Qed.

(** *** Writing *)

Lemma write_fresh fs r es x trunc perm data :
  is_dir_at w fs (r, es) → x ≠ ".." → fs !! (r, es ++ [x]) = None →
  write w fs (r, es ++ [x]) trunc perm data =
    inl (<[(r, es ++ [x]) := File perm data]> fs).
Proof.
  intros Hdir Hx Hnone.
  pose proof (dir_not_blocking fs r es x Hdir) as Hb.
  assert (lstat fs (r, es ++ [x]) = None) as Hl by by rewrite lstat_snoc.
  unfold write. rewrite (stat_absent _ _ Hb Hl), parent_snoc.
  destruct Hdir as (q & perm' & ->). done.
Qed.

End Stat.

(** ** The calls of package os, by their outcome *)

Section OsRules.
Context (E : Env).

Lemma wp_lift {A} (r : res A) s Q : Q r s → wp (lift r) s Q.
Proof. done. Qed.

Lemma wp_os_Stat name s Q :
  Q (Ok (if decide (name = "") then StatNotExist (to_path E name)
         else stat (windows E) (fs s) (to_path E name))) s →
  wp (os_Stat E name) s Q.
Proof. done. Qed.

Lemma wp_os_Lstat name s Q :
  Q (Ok (if decide (name = "") then None else lstat (fs s) (to_path E name))) s →
  wp (os_Lstat E name) s Q.
Proof. done. Qed.

Lemma wp_on_path op name f s Q :
  (name = "" → Q (Err (PathError op ENOENT)) s) →
  (name ≠ "" → ∀ next, f (fs s) (to_path E name) = inl next →
     Q (Ok tt) (set_fs next s).2) →
  (name ≠ "" → ∀ e, f (fs s) (to_path E name) = inr e → Q (Err (PathError op e)) s) →
  wp (on_path E op name f) s Q.
Proof.
  intros Hempty Hok Herr. unfold wp, on_path. case_decide as Hname; [by apply Hempty|].
  unfold fs_op. rewrite bind_eq. simpl.
  destruct (f (fs s) (to_path E name)) as [next|e] eqn:Hf; simpl.
  - by apply Hok.
  - by apply Herr.
Qed.

Lemma set_fs_same s : (set_fs (fs s) s).2 = s.
Proof. by destruct s. Qed.

Lemma wp_MkdirAll_existing name perm s Q :
  name ≠ "" → is_dir_at (windows E) (fs s) (to_path E name) →
  Q (Ok tt) s → wp (os_MkdirAll E name perm) s Q.
Proof.
  intros Hname Hdir HQ. apply wp_on_path; [done| |];
    rewrite mkdir_all_existing by done; [|done].
  intros _ ? [= <-]. by rewrite set_fs_same.
Qed.

Lemma wp_MkdirAll_child name perm r es x s Q :
  name ≠ "" → to_path E name = (r, es ++ [x]) →
  is_dir_at (windows E) (fs s) (r, es) → x ≠ ".." → fs s !! (r, es ++ [x]) = None →
  Q (Ok tt) (set_fs (<[(r, es ++ [x]) := Dir perm]> (fs s)) s).2 →
  wp (os_MkdirAll E name perm) s Q.
Proof.
  intros Hname Hpath Hdir Hx Hnone HQ. apply wp_on_path; [done| |];
    rewrite Hpath, mkdir_all_child by done; [|done].
  by intros _ ? [= <-].
Qed.

Lemma wp_write_fresh name trunc perm data r es x s Q :
  name ≠ "" → to_path E name = (r, es ++ [x]) →
  is_dir_at (windows E) (fs s) (r, es) → x ≠ ".." → fs s !! (r, es ++ [x]) = None →
  Q (Ok tt) (set_fs (<[(r, es ++ [x]) := File perm data]> (fs s)) s).2 →
  wp (open_and_write E name trunc perm data) s Q.
Proof.
  intros Hname Hpath Hdir Hx Hnone HQ. apply wp_on_path; [done| |];
    rewrite Hpath, write_fresh by done; [|done].
  by intros _ ? [= <-].
Qed.



Lemma wp_set_active version s Q :
  Q (Ok tt) (set_config {| InstallPath := InstallPath (config s);
                           InstalledVersions := InstalledVersions (config s);
                           ActiveVersion := version |} s).2 →
  wp (set_active version) s Q.
Proof. done. Qed.
End OsRules.

(** ** Activating twice *)

#[export] Instance same_world_equivalence : Equivalence same_world.
Proof.
  split.
  - by intros s.
  - intros s1 s2 (Hc & Hf & Hp). by repeat split.
  - intros s1 s2 s3 (Hc & Hf & Hp) (Hc' & Hf' & Hp'). repeat split; congruence.
Qed.

Lemma set_active_again c :
  {| InstallPath := InstallPath c; InstalledVersions := InstalledVersions c;
     ActiveVersion := ActiveVersion c |} = c.
Proof. by destruct c. Qed.

Section Posix.
Context (E : Env) (Hposix : windows E = false).

Lemma is_name_node_spark : is_name (windows E) ".node-spark".
Proof. rewrite Hposix. by repeat split. Qed.

Lemma is_name_current : is_name (windows E) "current".
Proof. rewrite Hposix. by repeat split. Qed.

Lemma current_link_names : Forall (is_name (windows E)) [".node-spark"; "current"].
Proof.
  apply Forall_cons. split; [apply is_name_node_spark|].
  apply Forall_singleton, is_name_current.
Qed.

Lemma current_link_parent h :
  to_path E (Filepath.Dir (windows E)
               (Filepath.Join (windows E) [h; ".node-spark"; "current"])) =
  parent (current_link E h).
Proof.
  unfold to_path, current_link, to_path.
  pose proof (parse_Dir_Join (windows E) h [".node-spark"] "current") as Hdir.
  cbn [app] in Hdir. rewrite Hdir;
    [|apply Forall_singleton, is_name_node_spark | apply is_name_current].
  rewrite (parse_Join_names (windows E) h [".node-spark"; "current"])
    by apply current_link_names.
  change [".node-spark"; "current"] with ([".node-spark"] ++ ["current"]).
  by rewrite app_assoc, parent_snoc.
Qed.

Lemma current_link_name h : Filepath.Join (windows E) [h; ".node-spark"; "current"] ≠ "".
Proof.
  apply Join_nonempty; [done | apply current_link_names].
Qed.

Lemma posix_branch {A} (a b : A) : (if windows E then a else b) = b.
Proof. by rewrite Hposix. Qed.

(** What a successful run of useVersionPosix leaves. *)
Lemma useVersionPosix_linked version versionPath s :
  wp (useVersionPosix E version versionPath) s
     (λ r s', r = Ok tt → linked E version versionPath s').
Proof.
  unfold useVersionPosix.
  apply wp_bind, wp_wrap, wp_lift. destruct (UserHomeDir E) as [h|e] eqn:Hhome; [|done].
  set (link := Filepath.Join (windows E) [h; ".node-spark"; "current"]).
  pose proof (current_link_name h) as Hlink. fold link in Hlink.
  apply wp_bind, wp_wrap, wp_on_path; [done| |done]. intros _ fa Hmk.
  apply wp_bind, wp_os_Lstat. rewrite decide_False by done.
  set (sa := (set_fs fa s).2).
  assert (∀ sb, config sb = config s →
    wp (wrap "failed to create symlink" (os_Symlink E versionPath link) ;;
        set_active version ;;
        print ("Successfully switched to Node.js " +:+ version) ;;
        print ("Make sure " +:+ link +:+ "/bin is in your PATH") ;;
        print (lf +:+ "To ensure the Node.js version persists in new terminal sessions, "
               +:+ "add this to your shell config file:") ;;
        print ("export PATH=" +:+ dq +:+ link +:+ "/bin:$PATH" +:+ dq)) sb
       (λ r s', r = Ok tt → linked E version versionPath s')) as Hrest.
  { intros sb Hsb. apply wp_bind, wp_wrap, wp_on_path; [done| |done].
    intros _ fc Hsym. apply wp_bind, wp_set_active.
    do 3 apply wp_bind, wp_print. apply wp_print. intros _.
    unfold symlink in Hsym. change (to_path E link) with (current_link E h) in Hsym.
    destruct (lstat (fs sb) (current_link E h)) eqn:Hl; [done|].
    destruct (stat (windows E) (fs sb) (parent (current_link E h)))
      as [q [perm| |]| |] eqn:Hst; try done.
    injection Hsym as <-. exists h, (fs sb). split; [done|]. split; [done|].
    split; [by exists q, perm|]. done. }
  change (to_path E link) with (current_link E h).
  destruct (lstat (fs sa) (current_link E h)) as [n|] eqn:Hl.
  - apply wp_bind, wp_wrap, wp_on_path; [done| |done]. intros _ fb Hrm.
    by apply Hrest.
  - apply wp_bind, wp_ret. by apply Hrest.
Qed.

(** What a run of useVersionPosix does in such a state: it removes the
    link and stores it again. *)
Lemma useVersionPosix_again version versionPath s :
  linked E version versionPath s →
  wp (useVersionPosix E version versionPath) s (λ r s', r = Ok tt ∧ same_world s' s).
Proof.
  intros (h & before & Hhome & Hfree & Hdir & Hfs & Hactive).
  set (L := current_link E h) in *.
  destruct (lstat_None _ _ Hfree) as [Hbase Hnone].
  assert (is_dir_at (windows E) (fs s) (parent L)) as Hdir'.
  { destruct Hdir as (q & perm & Hstat). exists q, perm. rewrite Hfs.
    by apply stat_insert_fresh. }
  assert (lstat (fs s) L = Some (Symlink versionPath)) as Hlink.
  { unfold lstat. by rewrite Hbase, Hfs, lookup_insert_eq. }
  assert (remove (fs s) L = inl before) as Hremove.
  { unfold remove. rewrite Hbase, Hfs, lookup_insert_eq. by rewrite delete_insert_id. }
  assert (symlink (windows E) before versionPath L = inl (fs s)) as Hsymlink.
  { unfold symlink. rewrite Hfree. destruct Hdir as (q & perm & ->). by rewrite Hfs. }
  unfold useVersionPosix. rewrite Hhome.
  apply wp_bind, wp_wrap, wp_lift.
  set (link := Filepath.Join (windows E) [h; ".node-spark"; "current"]).
  pose proof (current_link_name h) as Hname. fold link in Hname.
  assert (Filepath.Dir (windows E) link ≠ "") as Hparent by apply Clean_nonempty.
  assert (to_path E (Filepath.Dir (windows E) link) = parent L) as Hup
    by apply current_link_parent.
  apply wp_bind, wp_wrap, wp_on_path; [done| |];
    rewrite Hup, (mkdir_all_existing _ _ _ _ Hdir'); [|done].
  intros _ ? [= <-].
  apply wp_bind, wp_os_Lstat. rewrite decide_False by done.
  change (to_path E link) with L. cbn [set_fs snd fs]. rewrite Hlink.
  apply wp_bind, wp_wrap, wp_on_path; [done| |];
    change (to_path E link) with L; cbn [fs]; rewrite Hremove; [|done].
  intros _ ? [= <-].
  apply wp_bind, wp_wrap, wp_on_path; [done| |];
    change (to_path E link) with L; cbn [set_fs snd fs]; rewrite Hsymlink; [|done].
  intros _ ? [= <-].
  apply wp_bind, wp_set_active. do 3 apply wp_bind, wp_print. apply wp_print.
  split; [done|]. unfold same_world. cbn. rewrite <- Hactive.
  by rewrite set_active_again.
Qed.

Lemma linked_print version versionPath s line :
  linked E version versionPath s → linked E version versionPath (print line s).2.
Proof. done. Qed.

Lemma UseVersion_linked version s :
  wp (UseVersion E version) s
     (λ r s', r = Ok tt →
        linked E version (Filepath.Join (windows E) [GetInstallPath (config s); version]) s').
Proof.
  unfold UseVersion. apply wp_bind, wp_get_config. apply wp_bind, wp_os_Stat.
  destruct (IsNotExist _); [done|]. apply wp_bind, wp_print.
  rewrite posix_branch. apply useVersionPosix_linked.
Qed.

Lemma UseVersion_again version s :
  linked E version (Filepath.Join (windows E) [GetInstallPath (config s); version]) s →
  wp (UseVersion E version) s (λ r s', same_world s' s).
Proof.
  intros Hlinked. unfold UseVersion. apply wp_bind, wp_get_config.
  apply wp_bind, wp_os_Stat. destruct (IsNotExist _); [by apply wp_raise|].
  apply wp_bind, wp_print. rewrite posix_branch.
  eapply wp_mono; [apply useVersionPosix_again; by apply linked_print|].
  by intros r s' [_ Hsame].
Qed.

Lemma SetActiveVersion_linked version s :
  wp (SetActiveVersion E version) s
     (λ r s', r = Ok tt →
        linked E version (Filepath.Join (windows E) [GetInstallPath (config s); version]) s').
Proof.
  unfold SetActiveVersion. apply wp_bind, wp_get_config. apply wp_bind, wp_os_Stat.
  destruct (IsNotExist _); [done|]. apply wp_bind.
  eapply wp_mono; [apply UseVersion_linked|].
  intros [[]|e] s1 Hlinked; [|done]. specialize (Hlinked eq_refl).
  apply wp_bind, wp_set_active. apply wp_print. intros _.
  destruct Hlinked as (h & before & Hhome & Hfree & Hdir & Hfs & Hactive).
  by exists h, before.
Qed.

Lemma SetActiveVersion_again version s :
  linked E version (Filepath.Join (windows E) [GetInstallPath (config s); version]) s →
  wp (SetActiveVersion E version) s (λ r s', same_world s' s).
Proof.
  intros Hlinked. unfold SetActiveVersion. apply wp_bind, wp_get_config.
  apply wp_bind, wp_os_Stat. destruct (IsNotExist _); [by apply wp_raise|].
  apply wp_bind.
  eapply wp_mono; [by apply UseVersion_again|].
  intros [[]|e] s1 Hsame; [|done].
  apply wp_bind, wp_set_active. apply wp_print.
  destruct Hsame as (Hc & Hf & Hp). destruct Hlinked as (_ & _ & _ & _ & _ & _ & Hactive).
  unfold same_world. cbn. rewrite Hc, <- Hactive. by rewrite set_active_again.
Qed.

(** On a system other than Windows, a second activation leaves what the
    first one left. *)
Lemma activation_idempotent_posix version s s1 :
  SetActiveVersion E version s = (Ok tt, s1) →
  same_world (SetActiveVersion E version s1).2 s1.
Proof.
  intros Hrun. pose proof (SetActiveVersion_linked version s) as Hlinked.
  unfold wp in Hlinked. rewrite Hrun in Hlinked. specialize (Hlinked eq_refl).
  pose proof (SetActiveVersion_activates E version s) as (Hpath & _).
  rewrite Hrun in Hpath. simpl in Hpath.
  apply SetActiveVersion_again. unfold GetInstallPath in *. by rewrite Hpath.
Qed.
End Posix.

(** ** Extraction of an archive with one top-level directory *)

Section Extract.
Context (E : Env).
#[local] Abbreviation w := (windows E).























(** *** The zip archive *)















End Extract.





(** ** What the calls that add to the file system keep *)

Section Keeps.
Context (w : bool).

Lemma follow_StatOk n fs p q nd : follow w n fs p = StatOk q nd → lstat fs q = Some nd.
Proof.
  revert p. induction n as [|n IH]; intros p; rewrite follow_unfold;
    (destruct (blocked fs p); [done|]);
    destruct (lstat fs p) as [[| |target]|] eqn:Hl; try done;
    try (by intros [= <- <-]).
  apply IH.
Qed.

Lemma follow_StatNotExist n fs p q : follow w n fs p = StatNotExist q → lstat fs q = None.
Proof.
  revert p. induction n as [|n IH]; intros p; rewrite follow_unfold;
    (destruct (blocked fs p); [done|]);
    destruct (lstat fs p) as [[| |target]|] eqn:Hl; try done;
    try (by intros [= <-]).
  apply IH.
Qed.

Lemma insert_fresh_keeps (fs : gmap path node) p x k n :
  lstat fs p = None → fs !! k = Some n → <[p := x]> fs !! k = Some n.
Proof.
  intros [_ Hnone]%lstat_None Hk. rewrite lookup_insert_ne; [done|]. by intros ->; congruence.
Qed.

Lemma mkdir_keeps fs p perm fs' k n :
  mkdir w fs p perm = inl fs' → fs !! k = Some n → fs' !! k = Some n.
Proof.
  unfold mkdir. destruct (lstat fs p) eqn:Hl; [done|].
  destruct (stat w fs (parent p)) as [? [| |]| |]; try done.
  intros [= <-]. by apply insert_fresh_keeps.
Qed.

Lemma mkdir_all_rev_keeps r up perm fs fs' k n :
  mkdir_all_rev w r up perm fs = inl fs' → fs !! k = Some n → fs' !! k = Some n.
Proof.
  revert fs'. induction up as [|x up IH]; intros fs'; simpl; [by intros [= <-]|].
  intros Hrun Hk.
  destruct (stat w fs (r, rev up ++ [x])) as [? [| |]| |];
    try done; try (by injection Hrun as <-);
    (destruct (mkdir_all_rev w r up perm fs) as [fs1|?] eqn:Hup; [|done]);
    specialize (IH fs1 eq_refl Hk);
    (destruct (mkdir w fs1 (r, rev up ++ [x]) perm) as [fs2|?] eqn:Hmk;
      [injection Hrun as <-; by eapply mkdir_keeps|]);
    destruct (lstat fs1 (r, rev up ++ [x])) as [[| |]|]; try done; by injection Hrun as <-.
Qed.

Lemma mkdir_all_keeps fs p perm fs' k n :
  mkdir_all w fs p perm = inl fs' → fs !! k = Some n → fs' !! k = Some n.
Proof. apply mkdir_all_rev_keeps. Qed.

Lemma symlink_keeps fs target p fs' k n :
  symlink w fs target p = inl fs' → fs !! k = Some n → fs' !! k = Some n.
Proof.
  unfold symlink. destruct (lstat fs p) eqn:Hl; [done|].
  destruct (stat w fs (parent p)) as [? [| |]| |]; try done.
  intros [= <-]. by apply insert_fresh_keeps.
Qed.

Lemma write_keeps fs p trunc perm data fs' k n :
  write w fs p trunc perm data = inl fs' →
  fs !! k = Some n → is_file (Some n) = false → fs' !! k = Some n.
Proof.
  unfold write. destruct (stat w fs p) as [q [|m old|]|q|] eqn:Hstat; try done.
  - apply follow_StatOk in Hstat. intros [= <-] Hk Hn.
    rewrite lookup_insert_ne; [done|]. intros ->.
    unfold lstat in Hstat. destruct (base_dir k); [done|]. rewrite Hk in Hstat.
    injection Hstat as ->. done.
  - apply follow_StatNotExist in Hstat.
    destruct (stat w fs (parent q)) as [? [| |]| |]; try done.
    intros [= <-] Hk _. by apply insert_fresh_keeps.
Qed.

Lemma remove_keeps fs p fs' k : remove fs p = inl fs' → k ≠ p → fs' !! k = fs !! k.
Proof.
  unfold remove. destruct (base_dir p); [done|]. intros Hrun Hk.
  destruct (fs !! p) as [[| |]|]; try (by destruct (blocked fs p));
    try (injection Hrun as <-; by rewrite lookup_delete_ne).
  case_decide; [|done]. injection Hrun as <-. by rewrite lookup_delete_ne.
Qed.
End Keeps.

#[export] Instance keeps_frame p : Frame (keeps p).
Proof.
  split.
  - split.
    + by intros s n Hn _.
    + intros s1 s2 s3 H12 H23 n Hn Hfile. apply H23; [|done]. by apply H12.
  - by intros s line n Hn _.
Qed.

#[export] Instance keeps_config_blind p : ConfigBlind (keeps p).
Proof. split. by intros s c n Hn _. Qed.

Section KeepsProgram.
Context (E : Env) (p : path).

Lemma on_path_keeps op name f :
  (∀ cur next n, f cur (to_path E name) = inl next →
     cur !! p = Some n → is_file (Some n) = false → next !! p = Some n) →
  preserves (keeps p) (on_path E op name f).
Proof.
  intros Hf s. change (wp (on_path E op name f) s (λ _ s', keeps p s s')).
  apply wp_on_path; [reflexivity| |reflexivity].
  intros _ next Hnext n Hn Hfile. cbn. by eapply Hf.
Qed.

#[export] Instance keeps_os_frame : OsFrame E (keeps p).
Proof.
  split.
  - intros name perm. apply on_path_keeps. intros cur next n Hrun Hn _.
    by eapply mkdir_all_keeps.
  - intros target link. apply on_path_keeps. intros cur next n Hrun Hn _.
    by eapply symlink_keeps.
  - intros name trunc perm data. apply on_path_keeps. intros cur next n Hrun Hn Hfile.
    by eapply write_keeps.
  - by intros path s n Hn _.
Qed.



End KeepsProgram.

(** ** The names that an installation uses *)

Section InstallNames.
Context (E : Env).
#[local] Abbreviation w := (windows E).

Lemma word_literal x :
  plain (IsPathSeparator false) x = true → plain (IsPathSeparator true) x = true → word w x.
Proof. unfold word. by destruct w. Qed.

Lemma word_append x y : word w x → word w y → word w (x +:+ y).
Proof. unfold word. intros Hx Hy. by rewrite plain_append, Hx, Hy. Qed.

Lemma detectSystemInfo_words :
  returns (λ info, word w info.1.1 ∧ word w info.1.2 ∧ word w info.2) (detectSystemInfo E).
Proof.
  unfold detectSystemInfo.
  apply (returns_bind_with (λ os_ext, word w os_ext.1 ∧ word w os_ext.2)).
  { repeat case_decide; repeat returns_step; split; by apply word_literal. }
  intros [nodeOS ext] [Hos Hext]. simpl in *. case_decide.
  - repeat returns_step. repeat split; [by apply word_literal|done..].
  - apply (returns_bind_with (word w)).
    { repeat case_decide; repeat returns_step; by apply word_literal. }
    intros nodeArch Harch. by returns_step.
Qed.


Lemma archive_name_is_name versionStr nodeOS nodeArch ext :
  word w versionStr → word w nodeOS → word w nodeArch → word w ext →
  is_name w (archive_name versionStr nodeOS nodeArch ext).
Proof.
  intros Hv Hos Harch Hext. unfold archive_name. split; [|done].
  repeat (apply word_append; [try done; by apply word_literal|]). done.
Qed.





Lemma is_name_node_spark' : is_name w ".node-spark".
Proof. repeat split; try done. by destruct w. Qed.

Lemma is_name_current' : is_name w "current".
Proof. repeat split; try done. by destruct w. Qed.

End InstallNames.

(** ** The directory of an installed version *)


Section InstallDir.
Context (E : Env).
#[local] Abbreviation w := (windows E).


End InstallDir.



(* ================================================================== *)
(** * Further properties of the code *)

(** ** Versions without a directory *)

Lemma os_Stat_absent E name s :
  IsNotExist (stat (windows E) (fs s) (to_path E name)) = true →
  ∃ st, os_Stat E name s = (Ok st, s) ∧ IsNotExist st = true.
Proof.
  intros Habsent. unfold os_Stat. rewrite bind_eq. cbn [get_fs mret M_ret].
  case_decide; eauto.
Qed.

(** X1. Whether a version is installed is decided by its directory alone:
    when no directory <installPath>/<version> is found, activation and
    selection fail with "version ... is not installed", and so does removal
    unless the version is the active one; nothing is changed or printed,
    also when the identifier is in the list of installed versions. *)
Theorem version_without_directory E version s :
  IsNotExist (stat (windows E) (fs s) (version_dir E (config s) version)) = true →
  SetActiveVersion E version s = (Err (not_installed version), s) ∧
  UseVersion E version s = (Err (not_installed version), s) ∧
  (ActiveVersion (config s) ≠ version →
     UninstallVersion E version s = (Err (not_installed version), s)).
Proof.
  intros Habsent.
  destruct (os_Stat_absent E _ s Habsent) as (st & Hstat & Hst).
  unfold SetActiveVersion, UseVersion, UninstallVersion.
  rewrite !bind_eq. cbn [get_config].
  split; [|split].
  - rewrite bind_eq, Hstat. by rewrite Hst.
  - rewrite bind_eq, Hstat. by rewrite Hst.
  - intros Hactive. rewrite decide_False by done. rewrite bind_eq, Hstat. by rewrite Hst.
Qed.

Lemma version_without_directory_witness :
  let E := Scenario.serving_env in
  let s := (InstallNodeVersion E "v20.1.0" Scenario.fresh).2 in
  "20.1.0" ∈ InstalledVersions (config s) ∧
  (UninstallVersion E "20.1.0" s).1 = Err (not_installed "20.1.0").
Proof.
  intros E s. split; [vm_compute; apply list_elem_of_here|].
  destruct (version_without_directory E "20.1.0" s) as (_ & _ & Hremove).
  - by vm_compute.
  - rewrite Hremove; [done|]. by vm_compute.
Defined.

(** ** What activation does to the configuration *)

(** X2. An activation that returns without error has made the version the
    active one, which GetActiveVersion then returns, and has left the
    installation path and the list of installed versions as they were. *)
Theorem activation_sets_active E version s :
  let after := SetActiveVersion E version s in
  after.1 = Ok tt →
  ActiveVersion (config after.2) = version ∧
  InstalledVersions (config after.2) = InstalledVersions (config s) ∧
  InstallPath (config after.2) = InstallPath (config s) ∧
  (version ≠ "" → GetActiveVersion after.2 = (Ok version, after.2)).
Proof.
  intros after.
  assert (wp (SetActiveVersion E version) s (λ r s',
            r = Ok tt →
            ActiveVersion (config s') = version ∧
            InstalledVersions (config s') = InstalledVersions (config s) ∧
            InstallPath (config s') = InstallPath (config s))) as Hwp.
  { unfold SetActiveVersion. apply wp_bind, wp_get_config. apply wp_bind, wp_os_Stat.
    destruct (IsNotExist _); [done|]. apply wp_bind.
    eapply (wp_frame (on_config (activates version))).
    { apply UseVersion_frame; try apply _.
      - apply set_active_activates.
      - intros. apply os_Remove_blind; apply _. }
    intros [[]|e] s1 (Hpath & Hlist & _); [|done].
    apply wp_bind, wp_set_active, wp_print. intros _. cbn. auto. }
  intros Hok. destruct (Hwp Hok) as (Hactive & Hlist & Hpath). fold after in Hactive.
  repeat split; try done. intros Hname. unfold GetActiveVersion.
  rewrite bind_eq. cbn [get_config]. rewrite Hactive. by rewrite decide_False.
Qed.

Lemma activation_sets_active_witness :
  let after := SetActiveVersion Scenario.broken_env "20.5.0" Scenario.stocked in
  ActiveVersion (config after.2) = "20.5.0" ∧
  InstalledVersions (config after.2) = ["18.17.0"; "20.5.0"].
Proof.
  intros after.
  destruct (activation_sets_active Scenario.broken_env "20.5.0" Scenario.stocked)
    as (Hactive & Hlist & _); [by vm_compute|].
  split; [exact Hactive | exact Hlist].
Defined.

(** ** Activation where the separator is the slash *)

(** X3. On a system other than Windows, an activation that returns without
    error has stored a symbolic link at <home>/.node-spark/current whose
    target is the text <installPath>/<version>, cleaned. *)
Theorem posix_activation_links E version s homeDir :
  let after := SetActiveVersion E version s in
  windows E = false → UserHomeDir E = Ok homeDir → after.1 = Ok tt →
  lstat (fs after.2) (current_link E homeDir) =
    Some (Symlink (Filepath.Join false [InstallPath (config s); version])).
Proof.
  intros after Hposix Hhome Hok.
  pose proof (SetActiveVersion_linked E Hposix version s) as Hlinked.
  specialize (Hlinked Hok). fold after in Hlinked.
  destruct Hlinked as (h & before & Hh & Hfree & _ & Hfs & _).
  assert (h = homeDir) as -> by congruence.
  apply lstat_None in Hfree as [Hbase _]. unfold lstat. rewrite Hbase, Hfs.
  rewrite lookup_insert_eq. unfold GetInstallPath. by rewrite Hposix.
Qed.

Lemma posix_activation_links_witness :
  let after := SetActiveVersion Scenario.broken_env "20.5.0" Scenario.stocked in
  lstat (fs after.2) (parse false "/home/u/.node-spark/current") =
    Some (Symlink "/home/u/.node-spark/versions/20.5.0").
Proof.
  intros after.
  apply (posix_activation_links Scenario.broken_env "20.5.0" Scenario.stocked "/home/u").
  - reflexivity.
  - reflexivity.
  - by vm_compute.
Defined.

(** X4. On a system other than Windows, activating a version again after
    an activation that returned without error leaves the configuration, the
    file system and the PATH as the first activation left them. *)
Theorem posix_activation_idempotent E version s :
  let first := SetActiveVersion E version s in
  windows E = false → first.1 = Ok tt →
  same_world (SetActiveVersion E version first.2).2 first.2.
Proof.
  intros first Hposix Hok. apply (activation_idempotent_posix E Hposix version s).
  destruct (SetActiveVersion E version s) as [r s1] eqn:Hrun. simpl in *. by subst r.
Qed.

Lemma posix_activation_idempotent_witness :
  let first := SetActiveVersion Scenario.broken_env "20.5.0" Scenario.stocked in
  same_world (SetActiveVersion Scenario.broken_env "20.5.0" first.2).2 first.2.
Proof.
  intros first.
  apply (posix_activation_idempotent Scenario.broken_env "20.5.0" Scenario.stocked).
  - reflexivity.
  - by vm_compute.
Defined.

(** ** What an installation does to the configuration *)

Lemma wp_any {A} (m : M A) s (Q : res A → State → Prop) :
  (∀ r s1, Q r s1) → wp m s Q.
Proof. intros HQ. apply HQ. Qed.

(** The closing question never fails. *)
Lemma offer_activation_ok E tok s : (offer_activation E tok s).1 = Ok tt.
Proof.
  change (wp (offer_activation E tok) s (λ r _, r = Ok tt)).
  unfold offer_activation. apply wp_bind, wp_get_config.
  case_decide; [|done]. do 2 apply wp_bind, wp_print.
  case_decide; [|done]. apply wp_bind, wp_try, wp_any.
  by intros [[]|e] s1.
Qed.

(** X5. An installation never changes the installation path.  When the
    token without its leading "v" is among the installed versions it
    returns at once: no error, nothing changed but the lines printed.  When
    it fails, the configuration is as it was.  When it succeeds for a
    version not yet installed, that identifier is appended to the installed
    versions, and the active version is as before or, if there was none,
    the token itself. *)
Theorem installation_outcome E tok s :
  let clean := Strings.TrimPrefix tok "v" in
  let after := InstallNodeVersion E tok s in
  InstallPath (config after.2) = InstallPath (config s) ∧
  (clean ∈ InstalledVersions (config s) → after.1 = Ok tt ∧ same_world after.2 s) ∧
  (after.1 ≠ Ok tt → config after.2 = config s) ∧
  (clean ∉ InstalledVersions (config s) → after.1 = Ok tt →
     InstalledVersions (config after.2) = InstalledVersions (config s) ++ [clean] ∧
     (ActiveVersion (config after.2) = ActiveVersion (config s) ∨
      (ActiveVersion (config s) = "" ∧ ActiveVersion (config after.2) = tok))).
Proof.
  intros clean after.
  set (P := λ (r : res ()) (s' : State),
         InstallPath (config s') = InstallPath (config s) ∧
         (clean ∈ InstalledVersions (config s) → r = Ok tt ∧ same_world s' s) ∧
         (r ≠ Ok tt → config s' = config s) ∧
         (clean ∉ InstalledVersions (config s) → r = Ok tt →
            InstalledVersions (config s') = InstalledVersions (config s) ++ [clean] ∧
            (ActiveVersion (config s') = ActiveVersion (config s) ∨
             (ActiveVersion (config s) = "" ∧ ActiveVersion (config s') = tok)))).
  change (wp (InstallNodeVersion E tok) s P).
  unfold InstallNodeVersion. apply wp_bind, wp_print. apply wp_bind, wp_get_config.
  cbn [print snd config]. fold clean.
  case_bool_decide as Hin.
  { apply wp_print. by repeat split. }
  assert (Hfail : ∀ (e : error) s1, config s = config s1 → P (Err e) s1).
  { intros e s1 Hs1. unfold P. rewrite <- Hs1. by repeat split. }
  apply wp_bind. eapply (wp_frame cfg_eq);
    [apply preserves_wrap, frame_MkdirAll|].
  intros [[]|e] s1 Hs1; [|apply Hfail; same_config].
  apply wp_bind. eapply (wp_frame cfg_eq);
    [apply preserves_wrap, frame_MkdirAll|].
  intros [[]|e] s2 Hs2; [|apply Hfail; same_config].
  apply wp_bind. eapply (wp_frame cfg_eq); [apply detectSystemInfo_frame; apply _|].
  intros [[[nodeArch nodeOS] ext]|e] s3 Hs3; [|apply Hfail; same_config].
  apply wp_bind. eapply (wp_frame cfg_eq); [apply download_archive_frame; apply _|].
  intros [[filename archivePath]|e] s4 Hs4; [|apply Hfail; same_config].
  assert (Hs : config s = config s4) by same_config. clear Hs1 Hs2 Hs3 Hs4 s1 s2 s3.
  apply wp_defer.
  set (P' := λ (r : res ()) (s' : State), P r (os_Remove E archivePath s').2).
  assert (Hclean : ∀ r s1 s2, config s2 = config s1 → P r s2 → P' r s1).
  { intros r s1 s2 Heq HP. unfold P'.
    pose proof (os_Remove_blind cfg_eq E archivePath s1) as Hrm.
    unfold cfg_eq, on_config in Hrm. unfold P in *. rewrite <- Hrm, <- Heq.
    destruct HP as (? & _ & ? & ?). split; [done|]. split; [by intros ?|]. by split. }
  assert (Hfail' : ∀ (e : error) s1, config s = config s1 → P' (Err e) s1).
  { intros e s1 Hs1. apply (Hclean _ _ s1); [done|]. by apply Hfail. }
  do 2 (apply wp_bind, wp_print).
  apply wp_bind. eapply (wp_frame cfg_eq);
    [apply preserves_wrap, ExtractArchive_frame; apply _|].
  intros [[]|e] s5 Hs5; [|apply Hfail'; same_config].
  apply wp_bind, wp_print.
  apply wp_bind. eapply (wp_frame cfg_eq); [apply verify_installation_frame; apply _|].
  intros [[]|e] s6 Hs6; [|apply Hfail'; same_config].
  assert (Hs' : config s = config s6) by same_config. clear Hs5 Hs6 s5.
  apply wp_bind. unfold wp at 1.
  pose proof (record_installed_config clean s6) as Hrec. cbv zeta in Hrec.
  destruct Hrec as (-> & Hp & Ha & Hc & Hrec).
  set (s7 := (record_installed clean s6).2) in *.
  destruct Hrec as [[Hold _]|[_ Hnew]]; [rewrite <- Hs' in Hold; done|].
  apply wp_bind, wp_print.
  set (s8 := (print _ s7).2).
  assert (Hs8 : config s8 = config s7) by done.
  pose proof (offer_activation_config E tok s8) as (Hp' & Hi' & Ha').
  pose proof (offer_activation_ok E tok s8) as Hok.
  rewrite Hs8 in Hp', Hi', Ha'. rewrite <- Hs' in Hp, Ha, Hnew.
  clearbody s7 s8. unfold wp. rewrite Hok.
  apply (Hclean _ _ (offer_activation E tok s8).2); [done|].
  unfold P. split; [by rewrite Hp', Hp|]. split; [done|]. split; [done|].
  intros _ _. split; [by rewrite Hi', Hnew|].
  rewrite Ha in Ha'. destruct Ha' as [Ha'|[Ha' Ha'']]; [by left | by right].
Qed.

(** ** What extraction leaves in place *)

Lemma lasting_same (f : gmap path node) p n :
  f !! p = Some n →
  ∃ n', f !! p = Some n' ∧
        match n with File perm _ => ∃ data, n' = File perm data | _ => n' = n end.
Proof. intros Hn. exists n. split; [done|]. destruct n; eauto. Qed.

#[export] Instance lasting_frame p : Frame (lasting p).
Proof.
  split.
  - split.
    + intros s n Hn. by apply lasting_same.
    + intros s1 s2 s3 H12 H23 n Hn. destruct (H12 n Hn) as (n2 & Hn2 & Hshape).
      destruct (H23 n2 Hn2) as (n3 & Hn3 & Hshape'). exists n3. split; [done|].
      destruct n as [perm|perm old|target]; subst; try done.
      by destruct Hshape as [mid ->].
  - intros s line n Hn. by apply lasting_same.
Qed.

Section Lasting.
Context (E : Env) (p : path).

Lemma write_lasting cur q trunc perm data next n :
  write (windows E) cur q trunc perm data = inl next → cur !! p = Some n →
  ∃ n', next !! p = Some n' ∧
        match n with File m _ => ∃ d, n' = File m d | _ => n' = n end.
Proof.
  intros Hwrite Hn. destruct (decide (is_file (Some n) = false)) as [Hfile|Hfile].
  { exists n. split; [by eapply write_keeps|]. by destruct n. }
  destruct n as [|m old|]; try done. clear Hfile.
  unfold write in Hwrite.
  destruct (stat (windows E) cur q) as [k [|m' old'|]|k|] eqn:Hstat; try done.
  - injection Hwrite as <-. destruct (decide (k = p)) as [->|Hk].
    + apply follow_StatOk in Hstat. unfold lstat in Hstat.
      destruct (base_dir p); [done|]. rewrite Hn in Hstat. injection Hstat as <- <-.
      rewrite lookup_insert_eq. eauto.
    + rewrite lookup_insert_ne by done. eauto.
  - apply follow_StatNotExist in Hstat.
    destruct (stat (windows E) cur (parent k)) as [? [| |]| |]; try done.
    injection Hwrite as <-. exists (File m old). split; [|eauto].
    by apply insert_fresh_keeps.
Qed.

Lemma on_path_lasting op name f :
  (∀ cur next n, f cur (to_path E name) = inl next → cur !! p = Some n →
     ∃ n', next !! p = Some n' ∧
           match n with File m _ => ∃ d, n' = File m d | _ => n' = n end) →
  preserves (lasting p) (on_path E op name f).
Proof.
  intros Hf s. change (wp (on_path E op name f) s (λ _ s', lasting p s s')).
  apply wp_on_path; [reflexivity| |reflexivity].
  intros _ next Hnext n Hn. cbn. by eapply Hf.
Qed.

#[export] Instance lasting_os_frame : OsFrame E (lasting p).
Proof.
  split.
  - intros name perm. apply on_path_lasting. intros cur next n Hrun Hn.
    apply lasting_same. by eapply mkdir_all_keeps.
  - intros target link. apply on_path_lasting. intros cur next n Hrun Hn.
    apply lasting_same. by eapply symlink_keeps.
  - intros name trunc perm data. apply on_path_lasting. intros cur next n Hrun Hn.
    by eapply write_lasting.
  - intros path s n Hn. by apply lasting_same.
Qed.
End Lasting.

(** X6. Extraction removes nothing, whatever the archive holds and however
    the extraction ends: a directory or a link that was stored is stored
    unchanged afterwards, and a regular file is a regular file with the
    same permission bits (its contents may have been written over). *)
Theorem extraction_removes_nothing E archivePath destPath s p n :
  fs s !! p = Some n →
  ∃ n', fs (ExtractArchive E archivePath destPath s).2 !! p = Some n' ∧
        match n with
        | File perm _ => ∃ data, n' = File perm data
        | _ => n' = n
        end.
Proof.
  intros Hn.
  by apply (ExtractArchive_frame (lasting p) E archivePath destPath s).
Qed.

Lemma extraction_removes_nothing_witness :
  let s := Scenario.with_archive "/tmp/node.tar.gz" in
  ∃ n', fs (ExtractArchive Scenario.tar_env "/tmp/node.tar.gz" Scenario.dest s).2
          !! parse false "/e" = Some n' ∧ n' = Dir 493.
Proof.
  intros s.
  apply (extraction_removes_nothing Scenario.tar_env "/tmp/node.tar.gz" Scenario.dest s
           (parse false "/e") (Dir 493)).
  by vm_compute.
Defined.

(** ** Reading what was written *)

Section ReadBack.
Context (w : bool).

Lemma blocked_insert_file f q m old perm data p :
  lstat f q = Some (File m old) → blocked (<[q := File perm data]> f) p = blocked f p.
Proof.
  intros Hq. rewrite !blocked_is_file. apply existsb_ext_in. intros k _.
  destruct (decide (k = q)) as [->|Hk]; [|by rewrite lstat_insert_ne].
  rewrite Hq. unfold lstat in *. destruct (base_dir q); [done|].
  by rewrite lookup_insert_eq.
Qed.

(** Where [stat] found a regular file it finds the file written there. *)
Lemma follow_insert_file n f p q m old perm data :
  follow w n f p = StatOk q (File m old) →
  follow w n (<[q := File perm data]> f) p = StatOk q (File perm data).
Proof.
  intros Hstat. pose proof (follow_StatOk _ _ _ _ _ _ Hstat) as Hq.
  assert (base_dir q = false) as Hbase.
  { unfold lstat in Hq. by destruct (base_dir q). }
  revert p Hstat. induction n as [|n IH]; intros p; rewrite !follow_unfold;
    rewrite (blocked_insert_file f q m old perm data p Hq);
    (destruct (blocked f p); [done|]);
    (destruct (decide (p = q)) as [->|Hp];
      [rewrite Hq; unfold lstat; rewrite Hbase, lookup_insert_eq; by intros _|]);
    rewrite (lstat_insert_ne f q _ p Hp);
    destruct (lstat f p) as [[| |target]|]; try done;
    try (by intros [= -> _]).
  apply IH.
Qed.

(** After a path was created by a write, [stat] does not miss it. *)
Lemma follow_insert_created n f p q perm data q' :
  follow w n f p = StatNotExist q →
  follow w n (<[q := File perm data]> f) p ≠ StatNotExist q'.
Proof.
  intros Hstat. pose proof (follow_StatNotExist _ _ _ _ _ Hstat) as Hq.
  apply lstat_None in Hq as [Hbase Hq].
  revert p Hstat. induction n as [|n IH]; intros p; rewrite !follow_unfold;
    (destruct (blocked (<[q := File perm data]> f) p); [done|]);
    (destruct (blocked f p); [done|]);
    (destruct (decide (p = q)) as [->|Hp];
      [unfold lstat at 2; rewrite Hbase, lookup_insert_eq; by intros _|]);
    rewrite (lstat_insert_ne f q _ p Hp);
    destruct (lstat f p) as [[| |target]|]; try done;
    try (by intros [= ->]).
  apply IH.
Qed.

Lemma write_found f p trunc perm data f' q' :
  write w f p trunc perm data = inl f' → stat w f' p ≠ StatNotExist q'.
Proof.
  unfold write. destruct (stat w f p) as [q [|m old|]|q|] eqn:Hstat; try done.
  - intros [= <-]. unfold stat in *.
    by rewrite (follow_insert_file _ _ _ _ _ _ _ _ Hstat).
  - destruct (stat w f (parent q)) as [? [| |]| |]; try done.
    intros [= <-]. by apply follow_insert_created.
Qed.

(** A file that was there before the write is read back with the bytes
    written. *)
Lemma write_over_read f p perm data f' q m old :
  stat w f p = StatOk q (File m old) →
  write w f p true perm data = inl f' → read w f' p = inl data.
Proof.
  intros Hstat. unfold write, read. rewrite Hstat. intros [= <-].
  unfold stat in *. by rewrite (follow_insert_file _ _ _ _ _ _ _ _ Hstat).
Qed.

(** Two writes in a row: the bytes of the second are read back. *)
Lemma write_twice_read f p perm0 data0 f1 perm data f2 :
  write w f p true perm0 data0 = inl f1 →
  write w f1 p true perm data = inl f2 → read w f2 p = inl data.
Proof.
  intros Hfirst Hsecond.
  destruct (stat w f1 p) as [q [|m old|]|q|] eqn:Hstat.
  - unfold write in Hsecond. by rewrite Hstat in Hsecond.
  - by eapply write_over_read.
  - unfold write in Hsecond. by rewrite Hstat in Hsecond.
  - by destruct (write_found _ _ _ _ _ _ q Hfirst).
  - unfold write in Hsecond. by rewrite Hstat in Hsecond.
Qed.
End ReadBack.

(** ** Downloads *)

(** X7. DownloadFile returns without error only for a response with status
    200 whose body was read to the end, and then os.ReadFile of the same
    name yields the body.  Without a response of status 200 it fails and
    neither creates nor changes anything. *)
Theorem download_then_read E filepath url s :
  let after := DownloadFile E filepath url s in
  (after.1 = Ok tt →
     ∃ body, http_get E url = HttpReply 200 body None ∧
             os_ReadFile E filepath after.2 = (Ok body, after.2)) ∧
  ((∀ body err, http_get E url ≠ HttpReply 200 body err) →
     after.1 ≠ Ok tt ∧ after.2 = s).
Proof.
  intros after. unfold after, DownloadFile.
  destruct (http_get E url) as [e|status body body_err]; [by split|].
  case_decide as Hstatus.
  { split; [done|]. by intros _. }
  subst status. split; [|intros Hnone; by destruct (Hnone body body_err)].
  change (wp (os_Create E filepath ;; open_and_write E filepath true 438 body ;;
              print "" ;; match body_err with Some e => raise e | None => mret tt end) s
            (λ r s', r = Ok tt →
               ∃ body', HttpReply 200 body body_err = HttpReply 200 body' None ∧
                        os_ReadFile E filepath s' = (Ok body', s'))).
  apply wp_bind, wp_on_path; [done| |done]. intros Hname f1 Hcreate.
  apply wp_bind, wp_on_path; [done| |done]. intros _ f2 Hcopy. cbn [set_fs snd fs] in *.
  apply wp_bind, wp_print. destruct body_err as [e|]; [done|]. intros _.
  exists body. split; [done|]. unfold os_ReadFile. rewrite decide_False by done.
  rewrite bind_eq. simpl.
  by rewrite (write_twice_read _ _ _ _ _ _ _ _ _ Hcreate Hcopy).
Qed.

Lemma download_then_read_witness :
  let E := Scenario.serving_env in
  let after := DownloadFile E "/tmp/node.tar.gz" "https://nodejs.org/x" Scenario.fresh in
  (os_ReadFile E "/tmp/node.tar.gz" after.2).1 = Ok "archive bytes".
Proof.
  intros E after.
  destruct (download_then_read E "/tmp/node.tar.gz" "https://nodejs.org/x" Scenario.fresh)
    as [Hread _].
  destruct Hread as (body & Hreply & Hfile); [by vm_compute|].
  fold after in Hfile. rewrite Hfile. injection Hreply as <-. done.
Defined.
(* ================================================================== *)
(** ** Version numbers *)

(** ** Decimal numerals *)

Lemma digits_step c s acc k :
  Strconv.digit c = Some k → Strconv.digits (String c s) acc = Strconv.digits s (acc * 10 + k).
Proof. intros Hc. simpl. by rewrite Hc. Qed.

Lemma digits_of_uint_acc d acc :
  Strconv.digits (NilEmpty.string_of_uint d) (Z.pos acc) =
    Some (Z.pos (Pos.of_uint_acc d acc)).
Proof.
  revert acc. induction d as [|d IH|d IH|d IH|d IH|d IH|d IH|d IH|d IH|d IH|d IH];
    intros acc; [done|..]; cbn [NilEmpty.string_of_uint Pos.of_uint_acc];
    rewrite <- IH; erewrite digits_step by (vm_compute; reflexivity); f_equal. all: lia.
Qed.

Lemma digits_of_uint d :
  Strconv.digits (NilEmpty.string_of_uint d) 0 = Some (Z.of_N (Pos.of_uint d)).
Proof.
  induction d as [|d IH|d IH|d IH|d IH|d IH|d IH|d IH|d IH|d IH|d IH];
    [done|exact IH|..]; cbn [NilEmpty.string_of_uint Pos.of_uint];
    erewrite digits_step by (vm_compute; reflexivity); apply digits_of_uint_acc.
Qed.

Lemma string_of_uint_nonempty d : d ≠ Decimal.Nil → NilEmpty.string_of_uint d ≠ "".
Proof. by destruct d. Qed.

Lemma string_of_uint_digits d : all_digits (NilEmpty.string_of_uint d) = true.
Proof. induction d; try done; simpl; by rewrite IHd. Qed.

Lemma show_Z_pos p : show_Z (Z.pos p) = NilEmpty.string_of_uint (Pos.to_uint p).
Proof.
  unfold show_Z. simpl. unfold NilZero.string_of_uint.
  pose proof (Unsigned.to_uint_nonnil p). by destruct (Pos.to_uint p).
Qed.

Lemma show_Z_digits z : 0 ≤ z → all_digits (show_Z z) = true ∧ show_Z z ≠ "".
Proof.
  intros Hz. destruct z as [|p|p]; [done| |lia].
  rewrite show_Z_pos. split; [apply string_of_uint_digits|].
  apply string_of_uint_nonempty, Unsigned.to_uint_nonnil.
Qed.

(** [strconv.Atoi] reads back what was printed. *)
Lemma Atoi_show_Z z : 0 ≤ z ≤ 2 ^ 63 - 1 → Strconv.Atoi (show_Z z) = Some z.
Proof.
  intros Hz.
  assert (Strconv.unsigned (show_Z z) = Some z) as Hunsigned.
  { destruct z as [|p|p]; [done| |lia]. rewrite show_Z_pos.
    pose proof (string_of_uint_nonempty _ (Unsigned.to_uint_nonnil p)) as Hne.
    unfold Strconv.unsigned.
    destruct (NilEmpty.string_of_uint (Pos.to_uint p)) eqn:Hs; [done|]. rewrite <- Hs.
    by rewrite digits_of_uint, Unsigned.of_to. }
  destruct (show_Z_digits z) as [Hdigits Hne]; [lia|].
  unfold Strconv.Atoi.
  assert (match show_Z z with
          | String "-" r => option_map Z.opp (Strconv.unsigned r)
          | String "+" r => Strconv.unsigned r
          | _ => Strconv.unsigned (show_Z z)
          end = Strconv.unsigned (show_Z z)) as ->.
  { destruct (show_Z z) as [|c r]; [done|]. simpl in Hdigits.
    apply andb_prop in Hdigits as [Hc _].
    destruct c as [[] [] [] [] [] [] [] []]; try done. }
  rewrite Hunsigned. unfold Strconv.in_int_range.
  by rewrite andb_true_intro by (split; apply Z.leb_le; lia).
Qed.

Lemma all_digits_plain f s :
  (∀ c, is_digit c = true → f c = false) → all_digits s = true → plain f s = true.
Proof.
  intros Hf. induction s as [|c s IH]; [done|]. simpl.
  intros [Hc Hs]%andb_prop. by rewrite (Hf c Hc), IH.
Qed.

Lemma digit_no_dot c : is_digit c = true → Ascii.eqb "." c = false.
Proof. destruct c as [[] [] [] [] [] [] [] []]; done. Qed.

Lemma digit_no_dash c : is_digit c = true → Ascii.eqb "-" c = false.
Proof. destruct c as [[] [] [] [] [] [] [] []]; done. Qed.

Lemma Join_cons x y l sep :
  Strings.Join (x :: y :: l) sep = x +:+ sep +:+ Strings.Join (y :: l) sep.
Proof. reflexivity. Qed.

Lemma Split_Join (ps : list string) :
  ps ≠ [] → Forall (λ p, plain (Ascii.eqb ".") p = true) ps →
  Strings.Split (Strings.Join ps ".") "." = ps.
Proof.
  intros Hne Hps. induction Hps as [|p ps Hp Hps IH]; [done|].
  destruct ps as [|q ps].
  - by apply split_by_plain.
  - rewrite Join_cons. unfold Strings.Split.
    change ("." +:+ Strings.Join (q :: ps) ".") with (String "." (Strings.Join (q :: ps) ".")).
    rewrite split_by_app by done. rewrite split_by_plain by done.
    unfold Strings.Split in IH. by rewrite IH.
Qed.

Lemma Join_snoc_append l x t sep :
  Strings.Join (l ++ [x]) sep +:+ t = Strings.Join (l ++ [x +:+ t]) sep.
Proof.
  induction l as [|y l IH]; [done|].
  destruct l as [|z l]; simpl in *.
  - by rewrite !append_assoc.
  - rewrite !append_assoc. by rewrite IH.
Qed.

Lemma plain_String f c s : plain f (String c s) = negb (f c) && plain f s.
Proof. done. Qed.

Lemma strip_char_append a c r t :
  Strings.strip (String a "") (String c r) = None →
  Strings.strip (String a "") (String c r +:+ t) = None.
Proof. rewrite append_cons. cbn [Strings.strip]. by destruct (Ascii.eqb a c). Qed.

(** The loop of extractVersionNumbers. *)
Lemma numbers_loop (ps : list string) (ns acc : list Z) :
  Forall2 (λ p n, Strconv.Atoi (hd "" (Strings.Split p "-")) = Some n) ps ns →
  foldl (λ numbers part,
           let numPart := hd "" (Strings.Split part "-") in
           match Strconv.Atoi numPart with
           | Some num => numbers ++ [num]
           | None => numbers
           end) acc ps = acc ++ ns.
Proof.
  intros H. revert acc. induction H as [|p n ps ns Hp _ IH]; intros acc; simpl.
  - by rewrite app_nil_r.
  - rewrite Hp, IH. by rewrite <- app_assoc.
Qed.

Lemma part_show_Z n : 0 ≤ n ≤ 2 ^ 63 - 1 →
  Strconv.Atoi (hd "" (Strings.Split (show_Z n) "-")) = Some n.
Proof.
  intros Hn. destruct (show_Z_digits n) as [Hd _]; [lia|].
  unfold Strings.Split. rewrite split_by_plain; [by apply Atoi_show_Z|].
  eapply all_digits_plain; [apply digit_no_dash|done].
Qed.

Lemma part_show_Z_tag n tag : 0 ≤ n ≤ 2 ^ 63 - 1 →
  Strconv.Atoi (hd "" (Strings.Split (show_Z n +:+ "-" +:+ tag) "-")) = Some n.
Proof.
  intros Hn. destruct (show_Z_digits n) as [Hd _]; [lia|].
  unfold Strings.Split.
  change ("-" +:+ tag) with (String "-" tag).
  rewrite split_by_app by done. rewrite split_by_plain; [by apply Atoi_show_Z|].
  eapply all_digits_plain; [apply digit_no_dash|done].
Qed.

Lemma show_Z_no_dot n : 0 ≤ n → plain (Ascii.eqb ".") (show_Z n) = true.
Proof.
  intros Hn. destruct (show_Z_digits n) as [Hd _]; [lia|].
  eapply all_digits_plain; [apply digit_no_dot|done].
Qed.

Lemma show_Z_no_v n : 0 ≤ n → Strings.strip "v" (show_Z n) = None.
Proof.
  intros Hn. destruct (show_Z_digits n) as [Hd Hne]; [lia|].
  destruct (show_Z n) as [|c r]; [done|]. simpl in Hd. apply andb_prop in Hd as [Hc _].
  simpl. destruct c as [[] [] [] [] [] [] [] []]; done.
Qed.

Lemma numbers_of_parts ps ns :
  ps ≠ [] → Forall (λ p, plain (Ascii.eqb ".") p = true) ps →
  Forall2 (λ p n, Strconv.Atoi (hd "" (Strings.Split p "-")) = Some n) ps ns →
  extractVersionNumbers ("v" +:+ Strings.Join ps ".") = ns.
Proof.
  intros Hne Hplain Hps. unfold extractVersionNumbers.
  rewrite TrimPrefix_append, Split_Join by done. by rewrite (numbers_loop ps ns).
Qed.

(** X8. extractVersionNumbers reads back the numbers of a dotted version:
    for numbers that fit Go's int, the text made of their decimal numerals
    joined by dots yields exactly these numbers, with or without the
    leading v, and also when a pre-release tag without dots follows a
    dash. *)
Theorem version_numbers_read_back (ns : list Z) (tag : string) :
  Forall (λ n, 0 ≤ n ≤ 2 ^ 63 - 1) ns →
  plain (Ascii.eqb ".") tag = true →
  let text := Strings.Join (map show_Z ns) "." in
  extractVersionNumbers text = ns ∧
  extractVersionNumbers ("v" +:+ text) = ns ∧
  extractVersionNumbers ("v" +:+ text +:+ "-" +:+ tag) = ns.
Proof.
  intros Hns Htag text.
  assert (Hparts : Forall2 (λ p n, Strconv.Atoi (hd "" (Strings.Split p "-")) = Some n)
                     (map show_Z ns) ns).
  { apply Forall2_fmap_l, Forall_Forall2_diag. eapply Forall_impl; [done|].
    intros n Hn. by apply part_show_Z. }
  assert (Hplain : Forall (λ p, plain (Ascii.eqb ".") p = true) (map show_Z ns)).
  { apply Forall_fmap. eapply Forall_impl; [done|]. intros n Hn. apply show_Z_no_dot. simpl in Hn. lia. }
  destruct (decide (ns = [])) as [->|Hne].
  { split; [done|]. split; [done|]. unfold text, extractVersionNumbers. simpl.
    change ("v" +:+ "" +:+ "-" +:+ tag) with ("v" +:+ String "-" tag).
    rewrite TrimPrefix_append. unfold Strings.Split.
    by rewrite split_by_plain by (by rewrite plain_String, Htag). }
  assert (Hv : extractVersionNumbers ("v" +:+ text) = ns).
  { unfold text. apply numbers_of_parts; [by destruct ns|done..]. }
  split; [|split; [done|]].
  - etransitivity; [|exact Hv]. unfold extractVersionNumbers. rewrite TrimPrefix_append.
    unfold Strings.TrimPrefix, text. destruct ns as [|n ns']; [done|].
    inversion Hns; subst.
    assert (Strings.strip "v" (Strings.Join (map show_Z (n :: ns')) ".") = None) as ->; [|done].
    pose proof (show_Z_no_v n ltac:(lia)) as Hnv.
    destruct ns' as [|m ns']; [done|]. rewrite fmap_cons, fmap_cons, Join_cons.
    destruct (show_Z_digits n) as [_ Hne']; [lia|].
    destruct (show_Z n) as [|c r]; [done|]. by apply strip_char_append.
  - destruct (exists_last Hne) as (init & n & ->).
    apply Forall_app in Hns as [Hinit Hn]. apply Forall_inv in Hn. simpl in Hn.
    unfold text. rewrite fmap_app. change (show_Z <$> [n]) with [show_Z n].
    rewrite Join_snoc_append.
    apply numbers_of_parts.
    + by destruct init.
    + apply Forall_app. split.
      * apply Forall_fmap. eapply Forall_impl; [exact Hinit|]. intros m Hm. apply show_Z_no_dot. simpl in Hm; lia.
      * apply Forall_singleton. rewrite !plain_append. rewrite show_Z_no_dot by lia.
        by rewrite Htag.
    + apply Forall2_app.
      * apply Forall2_fmap_l, Forall_Forall2_diag. eapply Forall_impl; [exact Hinit|].
        intros m Hm. by apply part_show_Z.
      * constructor; [|constructor]. by apply part_show_Z_tag.
Qed.

Lemma version_numbers_read_back_witness :
  extractVersionNumbers "v20.5.0-rc" = [20; 5; 0].
Proof.
  destruct (version_numbers_read_back [20; 5; 0] "rc") as (_ & _ & H);
    [repeat constructor; lia | reflexivity | exact H].
Defined.
(* ================================================================== *)
(** ** Fetching the index *)

(** X9. FetchAvailableVersions succeeds only on an answer 200 whose body
    was read to its end, is not blank and is accepted by the strict
    decoder or, when that one fails, by the flexible one; what it returns
    is a rearrangement of the decoded entries, none dropped and none
    added, and configuration, file system and PATH are as before. *)
Theorem fetch_returns_decoded_index E s out s' :
  FetchAvailableVersions E s = (Ok out, s') →
  ∃ body decoded,
    http_get E index_url = HttpReply 200 body None ∧
    Strings.TrimSpace body ≠ "" ∧
    (json_versions E body = Ok decoded ∨
     ∃ err raw, json_versions E body = Err err ∧ json_raw E body = Ok raw ∧
                decoded = map convert_raw raw) ∧
    out ≡ₚ decoded ∧
    same_world s s'.
Proof.
  set (Q := λ (r : res (list NodeVersion)) (s1 : State),
         ∀ out, r = Ok out →
           ∃ body decoded,
             http_get E index_url = HttpReply 200 body None ∧
             Strings.TrimSpace body ≠ "" ∧
             (json_versions E body = Ok decoded ∨
              ∃ err raw, json_versions E body = Err err ∧ json_raw E body = Ok raw ∧
                         decoded = map convert_raw raw) ∧
             out ≡ₚ decoded ∧
             same_world s s1).
  assert (Hwp : wp (FetchAvailableVersions E) s Q).
  { unfold FetchAvailableVersions. apply wp_bind, wp_print.
    destruct (http_get E index_url) as [e|status body [e|]].
    - by apply wp_bind, wp_print.
    - case_decide; by apply wp_bind, wp_print.
    - case_decide as Hstatus; [by apply wp_bind, wp_print|]. subst status.
      case_decide as Hblank; [by apply wp_bind, wp_print|].
      apply wp_bind.
      destruct (json_versions E body) as [decoded|err] eqn:Hstrict.
      + apply wp_bind, wp_print. intros ? [= <-]. exists body, decoded.
        split_and!; [done|done|by left|apply sort_Slice_perm|done].
      + apply wp_bind, wp_print.
        destruct (json_raw E body) as [raw|err2] eqn:Hraw.
        * apply wp_bind, wp_print. intros ? [= <-]. exists body, (map convert_raw raw).
          split_and!; [done|done|right; eauto|apply sort_Slice_perm|done].
        * apply wp_bind, wp_print. apply wp_bind, wp_try, wp_any. intros r s1.
          by apply wp_bind, wp_print. }
  intros Hrun. unfold wp in Hwp. rewrite Hrun in Hwp. by apply Hwp.
Qed.

Lemma fetch_returns_decoded_index_witness :
  ∃ out s', FetchAvailableVersions Scenario.index_env Scenario.fresh = (Ok out, s') ∧
            out ≡ₚ Scenario.index.
Proof.
  destruct (FetchAvailableVersions Scenario.index_env Scenario.fresh) as [[out|e] s'] eqn:Hrun;
    [|by vm_compute in Hrun].
  exists out, s'. split; [done|].
  destruct (fetch_returns_decoded_index _ _ _ _ Hrun)
    as (body & decoded & _ & _ & [Hstrict|(err & raw & Hstrict & _)] & Hperm & _).
  - vm_compute in Hstrict. by injection Hstrict as <-.
  - by vm_compute in Hstrict.
Defined.

(** X10. FetchVersionDetails looks a version up by its name with the v in
    front: a query without the v gives what the query with the v gives; an
    entry that is returned comes from the fetched index and carries the
    name asked for, and one is returned whenever the index has such an
    entry; nothing but the lines printed changes. *)
Theorem details_by_version_name E versionQuery s index s1 :
  FetchAvailableVersions E s = (Ok index, s1) →
  let query := if Strings.HasPrefix versionQuery "v" then versionQuery
               else "v" +:+ versionQuery in
  let after := FetchVersionDetails E versionQuery s in
  FetchVersionDetails E query s = after ∧
  after.2 = s1 ∧
  (∀ v, after.1 = Ok v → v ∈ index ∧ Version v = query) ∧
  (∀ v, v ∈ index → Version v = query → ∃ v', after.1 = Ok v') ∧
  ((∀ v, v ∈ index → Version v ≠ query) → ∃ e, after.1 = Err e).
Proof.
  intros Hfetch query after.
  assert (Hquery : Strings.HasPrefix query "v" = true).
  { unfold query. destruct (Strings.HasPrefix versionQuery "v") eqn:Hv; [done|].
    apply (HasPrefix_append "v"). }
  assert (Hafter : after =
            match List.find (λ v, bool_decide (Version v = query)) index with
            | Some v => (Ok v, s1)
            | None => (Err (Errorf ("version " +:+ query +:+ " not found in Node.js index")), s1)
            end).
  { unfold after, FetchVersionDetails. rewrite bind_eq, Hfetch. unfold query.
    destruct (Strings.HasPrefix versionQuery "v"); simpl; by destruct (List.find _ index). }
  split; [|rewrite Hafter; clear Hafter after].
  { rewrite Hafter. unfold FetchVersionDetails. rewrite bind_eq, Hfetch, Hquery. simpl.
    by destruct (List.find _ index). }
  destruct (List.find _ index) as [v|] eqn:Hfind; simpl.
  - apply List.find_some in Hfind as [Hin Heq%bool_decide_eq_true].
    apply list_elem_of_In in Hin.
    split_and!; [done|by intros ? [= <-]|eauto|].
    intros Hnone. by apply Hnone in Hin.
  - split_and!; [done|done| |eauto].
    intros v Hin%list_elem_of_In Hv.
    eapply List.find_none in Hfind; [|done]. simpl in Hfind.
    by rewrite bool_decide_eq_false in Hfind.
Qed.

Lemma details_by_version_name_witness :
  let E := Scenario.index_env in
  FetchVersionDetails E "v20.5.0" Scenario.fresh = FetchVersionDetails E "20.5.0" Scenario.fresh.
Proof.
  intros E.
  destruct (FetchAvailableVersions E Scenario.fresh) as [[index|e] s1] eqn:Hrun;
    [|by vm_compute in Hrun].
  exact (proj1 (details_by_version_name E "20.5.0" Scenario.fresh index s1 Hrun)).
Defined.
(* ================================================================== *)
(** ** The comparison of the sort *)

(** X11. The comparison that FetchAvailableVersions hands to sort.Slice is
    a strict weak ordering: no version comes before itself, the comparison
    is transitive and never holds both ways, and two versions are left
    unordered exactly when extractVersionNumbers yields the same numbers
    for both. *)
Theorem less_is_strict_weak_order :
  (∀ v, less v v = false) ∧
  (∀ a b c, less a b = true → less b c = true → less a c = true) ∧
  (∀ a b, less a b = true → less b a = false) ∧
  (∀ a b, less a b = false ∧ less b a = false ↔
          extractVersionNumbers (Version a) = extractVersionNumbers (Version b)).
Proof.
  assert (Hno : ∀ a b, less a b = false ↔ ¬ older (numbers b) (numbers a)).
  { intros a b. unfold less. fold (numbers a) (numbers b).
    rewrite <- less_numbers_older. by destruct (less_numbers _ _). }
  assert (Hyes : ∀ a b, less a b = true ↔ older (numbers b) (numbers a)).
  { intros a b. unfold less. apply less_numbers_older. }
  split_and!.
  - intros v. apply Hno, older_irrefl.
  - intros a b c Hab%Hyes Hbc%Hyes. apply Hyes. by eapply older_trans.
  - intros a b Hab%Hyes. apply Hno. intros Hba.
    eapply older_irrefl, older_trans; eauto.
  - intros a b. fold (numbers a) (numbers b). rewrite !Hno. split.
    + intros [Hab Hba]. by destruct (older_total (numbers a) (numbers b)) as [?|[?|?]].
    + intros ->. split; apply older_irrefl.
Qed.

(* ================================================================== *)
(** ** The PATH of the user on Windows *)

Lemma Contains_refl s : Contains s s = true.
Proof. destruct s; simpl; by rewrite ?HasPrefix_refl. Qed.

Lemma Contains_append a b s : Contains b s = true → Contains (a +:+ b) s = true.
Proof.
  intros Hb. induction a as [|c a IH]; [done|].
  rewrite append_cons. simpl. rewrite IH. apply orb_true_r.
Qed.

(** X12. UpdateWindowsPath never fails and touches neither the
    configuration nor the file system.  It only ever appends to the PATH of
    the user: when PowerShell runs, the PATH holds the shim directory
    afterwards and is left as it is if it held it before, so that a second
    call changes nothing; when PowerShell cannot be started the PATH stays
    as it is and the call still returns nil. *)
Theorem path_update_appends_once E shimDir s :
  let once := UpdateWindowsPath E shimDir s in
  let twice := UpdateWindowsPath E shimDir once.2 in
  once.1 = Ok tt ∧ config once.2 = config s ∧ fs once.2 = fs s ∧
  (∃ more, user_PATH once.2 = user_PATH s +:+ more) ∧
  (if powershell_runs E then Contains (user_PATH once.2) shimDir = true
   else user_PATH once.2 = user_PATH s) ∧
  (Contains (user_PATH s) shimDir = true → user_PATH once.2 = user_PATH s) ∧
  user_PATH twice.2 = user_PATH once.2.
Proof.
  intros once twice. unfold twice, once, UpdateWindowsPath.
  destruct (powershell_runs E); rewrite !bind_eq; cbn.
  - destruct (Contains (user_PATH s) shimDir) eqn:Hold; cbn.
    + rewrite Hold. cbn. split_and!; try done. exists "". by rewrite append_nil_r.
    + assert (Contains (user_PATH s +:+ ";" +:+ shimDir) shimDir = true) as Hnew.
      { rewrite <- append_assoc. apply Contains_append, Contains_refl. }
      rewrite Hnew. cbn. split_and!; try done. by eexists.
  - split_and!; try done. exists "". by rewrite append_nil_r.
Qed.
(* ================================================================== *)
(** ** Archives that are not extracted *)

Lemma cut_plain s sep : plain (Ascii.eqb sep) s = true → Strings.cut s sep = None.
Proof.
  induction s as [|c s IH]; [done|]. simpl.
  intros [Hc Hs]%andb_prop. apply negb_true_iff in Hc. by rewrite Hc, IH.
Qed.

Lemma SplitN_plain s sep : plain (Ascii.eqb sep) s = true → Strings.SplitN s sep 2 = [s].
Proof. intros Hs. simpl. by rewrite cut_plain. Qed.

Lemma for_each_skip {A} (l : list A) (body : A → M unit) s :
  Forall (λ x, body x = mret tt) l → for_each l body s = (Ok tt, s).
Proof.
  induction 1 as [|x l Hx _ IH]; [done|]. simpl. by rewrite bind_eq, Hx.
Qed.

Lemma os_ReadFile_state E name s : (os_ReadFile E name s).2 = s.
Proof.
  unfold os_ReadFile. case_decide; [done|]. rewrite bind_eq. simpl.
  by destruct (read _ _ _).
Qed.

(** X13. ExtractArchive returns nil only for a name in .tar.gz or .zip
    whose file can be read and decoded (a tar stream that ends properly, a
    zip archive with at least one entry).  For any other name, for a file
    that cannot be read or decoded, and for a zip archive without entries
    it fails before anything is created or printed. *)
Theorem extraction_needs_an_archive E archivePath destPath s :
  let ext := Ext (windows E) archivePath in
  let tar := bool_decide (ext = ".gz")
             && Strings.HasSuffix (Strings.TrimSuffix archivePath ext) ".tar" in
  let after := ExtractArchive E archivePath destPath s in
  (after.1 = Ok tt →
     ∃ bytes, os_ReadFile E archivePath s = (Ok bytes, s) ∧
       if tar then ∃ stream, tar_gz_reader E bytes = Ok stream ∧ Tar.ending stream = None
       else ext = ".zip" ∧ ∃ files, zip_reader E bytes = Ok files ∧ files ≠ []) ∧
  (tar = false → ext ≠ ".zip" →
     after = (Err (Errorf ("unsupported archive format: " +:+ ext)), s)) ∧
  ((∀ bytes, os_ReadFile E archivePath s ≠ (Ok bytes, s)) →
     after.1 ≠ Ok tt ∧ after.2 = s) ∧
  (∀ bytes e, os_ReadFile E archivePath s = (Ok bytes, s) →
     (if tar then tar_gz_reader E bytes = Err e else zip_reader E bytes = Err e) →
     after.1 ≠ Ok tt ∧ after.2 = s) ∧
  (∀ bytes, os_ReadFile E archivePath s = (Ok bytes, s) → tar = false →
     zip_reader E bytes = Ok [] →
     after.1 ≠ Ok tt ∧ after.2 = s).
Proof.
  intros ext tar after.
  pose proof (os_ReadFile_state E archivePath s) as Hread.
  unfold after, ExtractArchive. fold ext. fold tar.
  destruct tar.
  - unfold extractTarGz. rewrite bind_eq.
    destruct (os_ReadFile E archivePath s) as [[bytes|e] s1] eqn:Hbytes.
    + simpl in Hread. subst s1. rewrite bind_eq. unfold lift.
      destruct (tar_gz_reader E bytes) as [stream|e] eqn:Hstream.
      * split_and!; try done.
        -- intros Hok. exists bytes. split; [done|]. exists stream. split; [done|].
           rewrite bind_eq in Hok.
           destruct (for_each _ _ s) as [[[]|e] s2]; [|done].
           by destruct (Tar.ending stream).
        -- intros Hnone. by destruct (Hnone bytes).
        -- intros ? e [= <-] Hbad. congruence.
      * by split_and!.
    + simpl in Hread. subst s1. by split_and!.
  - case_decide as Hzip.
    + unfold extractZip. rewrite bind_eq.
      destruct (os_ReadFile E archivePath s) as [[bytes|e] s1] eqn:Hbytes.
      * simpl in Hread. subst s1. rewrite bind_eq. unfold lift.
        destruct (zip_reader E bytes) as [files|e] eqn:Hfiles.
        -- split_and!; try done.
           ++ intros Hok. exists bytes. split; [done|]. split; [done|].
              exists files. split; [done|]. by intros ->.
           ++ intros Hnone. by destruct (Hnone bytes).
           ++ intros ? e [= <-] Hbad. congruence.
           ++ intros ? [= <-] _ Hempty. rewrite Hfiles in Hempty. by injection Hempty as ->.
        -- by split_and!.
      * simpl in Hread. subst s1. by split_and!.
    + by split_and!.
Qed.

(** X14. extractTarGz drops the entries at the top level of the archive:
    when no entry name holds a separator, it returns nil and creates
    nothing, not even the destination directory. *)
Theorem top_level_entries_are_dropped E archivePath destPath bytes stream s :
  os_ReadFile E archivePath s = (Ok bytes, s) →
  tar_gz_reader E bytes = Ok stream →
  Tar.ending stream = None →
  Forall (λ header, plain (Ascii.eqb (Separator (windows E))) (Tar.Name header) = true)
         (Tar.entries stream) →
  extractTarGz E archivePath destPath s = (Ok tt, s).
Proof.
  intros Hbytes Hstream Hend Hnames. unfold extractTarGz.
  rewrite bind_eq, Hbytes, bind_eq. unfold lift. rewrite Hstream, bind_eq.
  rewrite for_each_skip; [by rewrite Hend|].
  eapply Forall_impl; [exact Hnames|]. intros header Hplain. simpl in Hplain.
  unfold extract_tar_entry. by rewrite SplitN_plain.
Qed.

Lemma top_level_entries_are_dropped_witness :
  let stream := {| Tar.entries := [Scenario.file_entry "README.md" "text";
                                   Scenario.dir_entry "bin"];
                   Tar.ending := None |} in
  let E := Scenario.linux Scenario.no_http [] stream [] "n" in
  let s := Scenario.with_archive "/tmp/node.tar.gz" in
  extractTarGz E "/tmp/node.tar.gz" Scenario.dest s = (Ok tt, s).
Proof.
  intros stream E s.
  apply (top_level_entries_are_dropped E "/tmp/node.tar.gz" Scenario.dest
           "archive bytes" stream s);
    [by vm_compute | by vm_compute | done | by repeat constructor].
Defined.
(* ================================================================== *)
(** ** Wiping the data *)

Lemma within_trans d q p : within d q = true → within q p = true → within d p = true.
Proof.
  unfold within.
  destruct (relative_to d q) as [rel1|] eqn:H1; [|done].
  destruct (relative_to q p) as [rel2|] eqn:H2; [|done]. intros _ _.
  apply relative_to_Some in H1 as [-> Hrel1]. apply relative_to_Some in H2 as [-> Hrel2].
  simpl. destruct d as [r es]. simpl. rewrite <- app_assoc.
  rewrite relative_to_app; [done|]. rewrite elem_of_app. tauto.
Qed.

Lemma within_outside d q p : within d q = true → within d p = false → within q p = false.
Proof.
  intros Hq Hp. destruct (within q p) eqn:Hqp; [|done].
  by rewrite (within_trans d q p Hq Hqp) in Hp.
Qed.

#[export] Instance outside_frame d : Frame (outside d).
Proof.
  split; [split|].
  - by intros s.
  - intros s1 s2 s3 (Hc1 & Hp1 & Hs1 & Ho1) (Hc2 & Hp2 & Hs2 & Ho2).
    split_and!; [congruence|congruence|by etrans|].
    intros p Hp. by rewrite Ho2, Ho1.
  - by intros s line.
Qed.

Section Wipe.
Context (E : Env) (d : path).

Lemma os_RemoveAll_outside name :
  within d (to_path E name) = true → preserves (outside d) (os_RemoveAll E name).
Proof.
  intros Hin s. unfold os_RemoveAll. case_decide; [done|].
  rewrite bind_eq. cbn [get_fs fst snd]. unfold remove_all.
  assert (outside d s (set_fs (filter (λ kv, within (to_path E name) kv.1 = false) (fs s)) s).2)
    as Hfilter.
  { split_and!; [done|done|apply map_filter_subseteq|].
    intros p Hp. apply lookup_cleared_outside. by eapply within_outside. }
  case_decide; [done|].
  destruct (base_dir (to_path E name)); by rewrite bind_eq.
Qed.

Lemma os_Remove_outside name :
  within d (to_path E name) = true → preserves (outside d) (os_Remove E name).
Proof.
  intros Hin s. unfold os_Remove, on_path. case_decide; [done|].
  unfold fs_op. rewrite bind_eq. cbn [get_fs fst snd].
  destruct (remove (fs s) (to_path E name)) as [next|e] eqn:Hrm; [|done].
  assert (next = delete (to_path E name) (fs s)) as ->.
  { unfold remove in Hrm. destruct (base_dir _); [done|].
    destruct (fs s !! to_path E name) as [[| |]|]; try done.
    - by case_decide; simplify_eq.
    - by simplify_eq.
    - by simplify_eq.
    - by destruct (blocked _ _). }
  split_and!; [done|done|apply delete_subseteq|].
  intros p Hp. apply lookup_delete_ne. intros <-. congruence.
Qed.

Lemma wp_then {A B} (m : M A) (f : A → M B) s (Q : res B → State → Prop) :
  (∀ a s1, wp (f a) s1 Q) → (∀ e s1, Q (Err e) s1) → wp (m ≫= f) s Q.
Proof. intros Hf He. apply wp_bind. unfold wp at 1. by destruct (m s).1. Qed.

Lemma preserves_known {A B} R msg (a : A) (f : A → M B) :
  preserves R (f a) → preserves R (wrap msg (lift (Ok a)) ≫= f).
Proof. intros Hf s. apply Hf. Qed.

End Wipe.

Section WipeAll.
Context (E : Env) (homeDir : string) (Hhome : UserHomeDir E = Ok homeDir).
#[local] Abbreviation dir := (data_dir E homeDir).
#[local] Abbreviation nodespark := (Filepath.Join (windows E) [homeDir; ".node-spark"]).

Lemma data_dir_child x :
  is_name (windows E) x →
  to_path E (Filepath.Join (windows E) [nodespark; x]) = (dir.1, dir.2 ++ [x]) ∧
  within dir (to_path E (Filepath.Join (windows E) [nodespark; x])) = true.
Proof.
  intros Hx. unfold to_path.
  rewrite (parse_Join_names _ nodespark [x]) by by constructor.
  split; [done|]. apply within_app. apply not_elem_of_cons. split; [|apply not_elem_of_nil].
  intros <-. by destruct Hx as (_ & _ & _ & ?).
Qed.

Lemma within_refl p : within p p = true.
Proof.
  destruct p as [r es]. rewrite <- (app_nil_r es) at 2. apply within_app, not_elem_of_nil.
Qed.

Lemma WipeAllData_outside : preserves (outside dir) (WipeAllData E).
Proof.
  unfold WipeAllData. rewrite Hhome.
  assert (∀ x, is_name (windows E) x →
            preserves (outside dir) (os_RemoveAll E (Filepath.Join (windows E) [nodespark; x])))
    as Hall by (intros x Hx; by apply os_RemoveAll_outside, data_dir_child).
  assert (∀ x, is_name (windows E) x →
            preserves (outside dir) (os_Remove E (Filepath.Join (windows E) [nodespark; x])))
    as Hone by (intros x Hx; by apply os_Remove_outside, data_dir_child).
  assert (preserves (outside dir) (os_RemoveAll E nodespark)) as Hdir
    by apply os_RemoveAll_outside, within_refl.
  assert (∀ name, preserves (outside dir) (os_Stat E name)) as Hstat by (by intros name s).
  assert (∀ x, x ∈ ["versions"; "shims"; "current"; "config.json"; ".first_run_complete"] →
            is_name (windows E) x) as Hnames.
  { intros x Hx. repeat (apply elem_of_cons in Hx as [->|Hx]);
      [..|by apply elem_of_nil in Hx]; by destruct (windows E). }
  apply preserves_known.
  preserves_auto;
    first [apply Hstat | apply Hall, Hnames | apply Hone, Hnames | apply Hdir]; set_solver.
Qed.

End WipeAll.

(** X15. WipeAllData only removes, and only at or below the directory
    .node-spark of the home directory: every other path holds what it held,
    and the configuration in memory and the PATH are as before.  When it
    returns nil, either os.Stat has not found the directory and the file
    system is untouched, or nothing is left at or below it. *)
Theorem wipe_clears_the_data_directory E homeDir s :
  UserHomeDir E = Ok homeDir →
  let dir := data_dir E homeDir in
  let after := WipeAllData E s in
  config after.2 = config s ∧ user_PATH after.2 = user_PATH s ∧
  fs after.2 ⊆ fs s ∧
  (∀ p, within dir p = false → fs after.2 !! p = fs s !! p) ∧
  (after.1 = Ok tt →
     if IsNotExist (stat (windows E) (fs s) dir) then fs after.2 = fs s
     else ∀ p, within dir p = true → fs after.2 !! p = None).
Proof.
  intros Hhome dir after.
  destruct (WipeAllData_outside E homeDir Hhome s) as (Hc & Hp & Hsub & Hout).
  split_and!; [done..|].
  assert (Hname : Filepath.Join (windows E) [homeDir; ".node-spark"] ≠ "").
  { apply Join_nonempty; [done|]. constructor; [|done]. by destruct (windows E). }
  change (wp (WipeAllData E) s (λ r s', r = Ok tt →
            if IsNotExist (stat (windows E) (fs s) dir) then fs s' = fs s
            else ∀ p, within dir p = true → fs s' !! p = None)).
  unfold WipeAllData. rewrite Hhome.
  apply wp_bind, wp_wrap, wp_lift. apply wp_bind, wp_print.
  apply wp_bind, wp_os_Stat. rewrite decide_False by done.
  cbn [print snd fs].
  change (to_path E (Filepath.Join (windows E) [homeDir; ".node-spark"])) with dir.
  destruct (IsNotExist (stat (windows E) (fs s) dir)); [by apply wp_print|].
  do 10 (apply wp_then; [intros ? ?|done]).
  apply wp_bind, wp_print. apply wp_wrap.
  unfold wp, os_RemoveAll. rewrite decide_False by done. rewrite bind_eq.
  cbn [get_fs fst snd print fs].
  change (to_path E (Filepath.Join (windows E) [homeDir; ".node-spark"])) with dir.
  unfold remove_all.
  case_decide; [by rewrite bind_eq|].
  destruct (base_dir dir); rewrite bind_eq; [done|]. cbn.
  intros _ p Hin. by apply lookup_cleared_inside.
Qed.

Lemma wipe_clears_the_data_directory_witness :
  let after := WipeAllData Scenario.tar_env Scenario.stocked in
  after.1 = Ok tt ∧
  fs after.2 !! parse false "/home/u/.node-spark/versions/20.5.0" = None ∧
  fs after.2 !! parse false "/home/u" = Some (Dir 493).
Proof.
  intros after.
  destruct (wipe_clears_the_data_directory Scenario.tar_env "/home/u" Scenario.stocked)
    as (_ & _ & _ & Hout & Hin); [done|].
  assert (after.1 = Ok tt) as Hok by by vm_compute.
  split; [done|]. split.
  - specialize (Hin Hok). vm_compute IsNotExist in Hin. by apply Hin.
  - rewrite Hout; by vm_compute.
Defined.
(* ================================================================== *)
(** ** The first run *)

Section FirstRun.
Context (E : Env) (homeDir : string).
#[local] Abbreviation w := (windows E).
#[local] Abbreviation nodespark := (Filepath.Join w [homeDir; ".node-spark"]).
#[local] Abbreviation marker_name := (Filepath.Join w [nodespark; ".first_run_complete"]).
#[local] Abbreviation dir := (data_dir E homeDir).
#[local] Abbreviation marker := (first_run_marker E homeDir).

Lemma is_name_marker : is_name w ".first_run_complete".
Proof. by destruct w. Qed.

Lemma data_dir_path :
  dir = ((parse w homeDir).1, (parse w homeDir).2 ++ [".node-spark"]).
Proof.
  unfold data_dir, to_path. rewrite (parse_Join_names _ homeDir [".node-spark"]); [done|].
  constructor; [|done]. by destruct w.
Qed.

Lemma marker_path : marker = (dir.1, dir.2 ++ [".first_run_complete"]).
Proof. apply data_dir_child, is_name_marker. Qed.

Lemma marker_name_nonempty : marker_name ≠ "".
Proof. apply Join_nonempty; [done|]. constructor; [apply is_name_marker|done]. Qed.

Lemma nodespark_nonempty : nodespark ≠ "".
Proof. apply Join_nonempty; [done|]. constructor; [|done]. by destruct w. Qed.

(** Once the marker is a file in a directory, the run is not the first. *)
Lemma IsFirstRun_marked s perm data :
  UserHomeDir E = Ok homeDir →
  is_dir_at w (fs s) dir → fs s !! marker = Some (File perm data) →
  IsFirstRun E s = (Ok false, s).
Proof.
  intros Hhome Hdir Hfile. unfold IsFirstRun. rewrite Hhome, bind_eq.
  unfold os_Stat. rewrite bind_eq. cbn [get_fs fst snd].
  rewrite decide_False by apply marker_name_nonempty.
  change (to_path E marker_name) with marker.
  rewrite (stat_stored_file _ _ _ perm data); [done| |].
  - rewrite marker_path. destruct dir as [r es] eqn:Hd. by apply (dir_not_blocking w).
  - rewrite marker_path in *. rewrite lstat_snoc; [done|]. by intros [=].
Qed.

Lemma first_run_marks s :
  UserHomeDir E = Ok homeDir →
  is_dir_at w (fs s) (to_path E homeDir) →
  no_link (fs s) dir → no_link (fs s) marker →
  wp (IsFirstRun E) s
     (λ r s', IsFirstRun E s' = (Ok false, s') ∧ (r = Ok false → s' = s)).
Proof.
  intros Hhome Hhomedir Hdirlink Hmarklink.
  unfold IsFirstRun at 1. rewrite Hhome.
  apply wp_bind, wp_os_Stat. rewrite decide_False by apply marker_name_nonempty.
  change (to_path E marker_name) with marker.
  destruct (stat w (fs s) marker) as [q n|q|e] eqn:Hstat; cbn [IsNotExist].
  1,3: apply wp_ret; split; [|done]; unfold IsFirstRun; rewrite Hhome, bind_eq;
       unfold os_Stat; rewrite bind_eq; cbn [get_fs fst snd];
       rewrite decide_False by apply marker_name_nonempty;
       change (to_path E marker_name) with marker; by rewrite Hstat.
  (* The marker is missing. *)
  pose proof data_dir_path as Hd. pose proof marker_path as Hm.
  destruct (parse w homeDir) as [r es] eqn:Hparse. simpl in Hd.
  rewrite Hd in Hm. simpl in Hm.
  assert (Hnb : blocked (fs s) dir = false).
  { rewrite Hd. apply (dir_not_blocking w). unfold to_path in Hhomedir.
    by rewrite Hparse in Hhomedir. }
  assert (Hmark : blocked (fs s) marker = false ∧ fs s !! marker = None).
  { unfold stat in Hstat. rewrite follow_unfold in Hstat.
    destruct (blocked (fs s) marker); [done|]. split; [done|].
    rewrite Hm in *. rewrite lstat_snoc in Hstat by (by intros [=]).
    destruct (fs s !! _) as [[| |target]|] eqn:Hl; try done.
    by destruct (Hmarklink target). }
  destruct Hmark as [Hmb Hmnone].
  assert (Hdircase : fs s !! dir = None ∨ ∃ perm, fs s !! dir = Some (Dir perm)).
  { specialize (Hdirlink). unfold no_link in Hdirlink. rewrite Hd in *.
    destruct (fs s !! (r, es ++ [".node-spark"])) as [[perm|perm data|target]|] eqn:Hl;
      [by eauto| |..|by left].
    - rewrite Hm, blocked_snoc, lstat_snoc, Hl in Hmb by (by intros [=]). done.
    - by destruct (Hdirlink target). }
  assert (Hafter : ∀ s1 perm, blocked (fs s1) dir = false →
            fs s1 !! dir = Some (Dir perm) → fs s1 !! marker = None →
            wp (try (os_WriteFile E marker_name "" 420) ;; mret true) s1
               (λ r s', IsFirstRun E s' = (Ok false, s') ∧ (r = Ok false → s' = s))).
  { intros s1 perm Hb1 Hdir1 Hnone1. apply wp_bind, wp_try.
    assert (Hl1 : lstat (fs s1) dir = Some (Dir perm)).
    { rewrite Hd, lstat_snoc, <- Hd by (by intros [=]). done. }
    rewrite Hm in Hnone1.
    eapply (wp_write_fresh E marker_name true 420 "" r (es ++ [".node-spark"])
              ".first_run_complete");
      [apply marker_name_nonempty|exact Hm| |by intros [=]|done|].
    { rewrite <- Hd. exists dir, perm. by apply stat_stored_dir. }
    apply wp_ret. split; [|done]. cbn [set_fs snd].
    apply (IsFirstRun_marked _ 420 ""); [done| |]; cbn [fs].
    - exists dir, perm. apply stat_stored_dir.
      + rewrite blocked_insert_other; [done|]. apply not_ancestor_longer.
        rewrite Hd. simpl. rewrite !length_app. simpl. lia.
      + rewrite lstat_insert_ne; [done|]. rewrite Hd. intros [= Heq].
        apply (f_equal length) in Heq. rewrite !length_app in Heq. simpl in Heq. lia.
    - rewrite Hm. apply lookup_insert_eq. }
  apply wp_bind, wp_try.
  destruct Hdircase as [Hnone|[perm Hperm]].
  - eapply (wp_MkdirAll_child E nodespark 493 r es ".node-spark");
      [apply nodespark_nonempty|exact Hd| |by intros [=]|by rewrite <- Hd|].
    { unfold to_path in Hhomedir. by rewrite Hparse in Hhomedir. }
    apply (Hafter _ 493); cbn [set_fs snd fs]; rewrite <- Hd.
    + by rewrite blocked_insert_self.
    + apply lookup_insert_eq.
    + rewrite lookup_insert_ne; [done|]. rewrite Hd, Hm. intros [= Heq].
      apply (f_equal length) in Heq. rewrite !length_app in Heq. simpl in Heq. lia.
  - assert (is_dir_at w (fs s) dir) as Hdir.
    { exists dir, perm. apply stat_stored_dir; [done|].
      rewrite Hd, lstat_snoc, <- Hd by (by intros [=]). done. }
    apply wp_MkdirAll_existing; [apply nodespark_nonempty|done|].
    by apply (Hafter _ perm).
Qed.

End FirstRun.

(** X16. IsFirstRun says "first run" at most once: for a home directory
    that exists, with neither the data directory nor the marker being a
    symbolic link, the call that follows any call returns false and changes
    nothing; and a call that returns false has changed nothing.  Without a
    home directory every run counts as the first. *)
Theorem first_run_only_once E s :
  (∀ err, UserHomeDir E = Err err → IsFirstRun E s = (Ok true, s)) ∧
  (∀ homeDir,
     UserHomeDir E = Ok homeDir →
     is_dir_at (windows E) (fs s) (to_path E homeDir) →
     no_link (fs s) (data_dir E homeDir) →
     no_link (fs s) (first_run_marker E homeDir) →
     let first := IsFirstRun E s in
     IsFirstRun E first.2 = (Ok false, first.2) ∧
     (first.1 = Ok false → first.2 = s)).
Proof.
  split.
  - intros err Herr. unfold IsFirstRun. by rewrite Herr.
  - intros homeDir Hhome Hdir Hl1 Hl2. by apply (first_run_marks E homeDir).
Qed.

Lemma first_run_only_once_witness :
  let first := IsFirstRun Scenario.tar_env Scenario.fresh in
  first.1 = Ok true ∧
  IsFirstRun Scenario.tar_env first.2 = (Ok false, first.2).
Proof.
  intros first. split; [by vm_compute|].
  destruct (first_run_only_once Scenario.tar_env Scenario.fresh) as [_ Honce].
  apply (Honce "/home/u");
    [done | by exists (parse false "/home/u"), 493; vm_compute | ..];
    intros target; by vm_compute.
Defined.
(* ================================================================== *)
(** ** Copying a file *)

Section Copy.
Context (E : Env).
#[local] Abbreviation w := (windows E).

Lemma blocked_delete (f : gmap path node) p k :
  blocked f k = false → blocked (delete p f) k = false.
Proof.
  rewrite !blocked_is_file. intros Hb.
  apply not_true_iff_false. intros [q [Hq Hfile]]%existsb_exists.
  apply not_true_iff_false in Hb. apply Hb. apply existsb_exists. exists q. split; [done|].
  unfold lstat in *. destruct (base_dir q); [done|].
  destruct (decide (q = p)) as [->|Hne].
  - by rewrite lookup_delete_eq in Hfile.
  - by rewrite lookup_delete_ne in Hfile.
Qed.

(** A file written where nothing is stored, or over a file, is found. *)
Lemma write_at_path f p perm data f' :
  (∀ target, lstat f p ≠ Some (Symlink target)) →
  write w f p true perm data = inl f' →
  ∃ m, f' = <[p := File m data]> f ∧ stat w f' p = StatOk p (File m data) ∧
       (lstat f p = None → m = perm).
Proof.
  intros Hlink. unfold write, stat. rewrite follow_unfold.
  destruct (blocked f p) eqn:Hb; [done|].
  destruct (lstat f p) as [[m|m old|target]|] eqn:Hl; [done| | |].
  - intros [= <-]. exists m. split; [done|]. split; [|done].
    rewrite follow_unfold, blocked_insert_self, Hb.
    assert (base_dir p = false) as Hbase.
    { unfold lstat in Hl. destruct (base_dir p); [done|done]. }
    unfold lstat. by rewrite Hbase, lookup_insert_eq.
  - by destruct (Hlink target).
  - destruct (follow w 40 f (parent p)) as [? [| |]| |]; try done.
    intros [= <-]. exists perm. split; [done|]. split; [|done].
    apply lstat_None in Hl as [Hbase Hnone].
    rewrite follow_unfold, blocked_insert_self, Hb.
    unfold lstat. by rewrite Hbase, lookup_insert_eq.
Qed.

End Copy.

(** X17. copyFile copies the bytes and the permission bits: when it
    returns nil for a destination that is not a symbolic link, the source
    was a regular file (reached through links, if any), the destination is
    afterwards a regular file with the bytes and the permission bits of the
    source, whatever was there before, os.ReadFile of the destination
    yields these bytes, and nothing else in the file system has changed. *)
Theorem copy_is_read_back E src dst s :
  let after := copyFile E src dst s in
  no_link (fs s) (to_path E dst) →
  after.1 = Ok tt →
  ∃ q perm data,
    stat (windows E) (fs s) (to_path E src) = StatOk q (File perm data) ∧
    fs after.2 = <[to_path E dst := File perm data]> (fs s) ∧
    os_ReadFile E dst after.2 = (Ok data, after.2).
Proof.
  intros after Hlink. unfold after. clear after.
  set (p := to_path E dst) in *.
  change (wp (copyFile E src dst) s (λ r s', r = Ok tt →
            ∃ q perm data,
              stat (windows E) (fs s) (to_path E src) = StatOk q (File perm data) ∧
              fs s' = <[p := File perm data]> (fs s) ∧
              os_ReadFile E dst s' = (Ok data, s'))).
  unfold copyFile. apply wp_bind, wp_os_Stat.
  case_decide as Hsrc; [done|].
  destruct (stat (windows E) (fs s) (to_path E src)) as [q source|q|e] eqn:Hopen;
    [|done..].
  assert (Hwrite : ∀ s1 perm data,
            (fs s1 = fs s ∧ lstat (fs s) p = None ∨
             fs s1 = delete p (fs s) ∧ base_dir p = false) →
            wp (open_and_write E dst true perm data) s1 (λ r s', r = Ok tt →
              fs s' = <[p := File perm data]> (fs s) ∧
              os_ReadFile E dst s' = (Ok data, s'))).
  { intros s1 perm data Hs1. apply wp_on_path; [done| |done].
    intros Hdst f' Hw _. fold p in Hw. cbn [set_fs snd fs].
    assert (lstat (fs s1) p = None) as Hnone.
    { destruct Hs1 as [[Heq Hfresh]|[Heq Hbase]].
      - by rewrite Heq.
      - unfold lstat. rewrite Hbase, Heq. apply lookup_delete_eq. }
    destruct (write_at_path E (fs s1) p perm data f') as (m & -> & Hstat & Hm);
      [by rewrite Hnone|done|].
    rewrite (Hm Hnone) in *. split.
    - destruct Hs1 as [[-> _]|[-> _]]; [done|]. apply insert_delete_eq.
    - unfold os_ReadFile. rewrite decide_False by done.
      rewrite bind_eq. cbn [get_fs fst snd fs]. fold p. unfold read. by rewrite Hstat. }
  apply wp_bind, wp_os_Stat. fold p.
  case_decide as Hdst.
  { (* no destination *) cbn [found]. apply wp_bind, wp_ret.
    destruct source; [by apply wp_then| |by apply wp_then].
    by apply wp_on_path. }
  destruct (stat (windows E) (fs s) p) as [d nd|d|e] eqn:Hst; cbn [found].
  - (* something is there and is removed first *)
    apply wp_bind, wp_on_path; [done| |done].
    intros _ next Hrm. fold p in Hrm.
    assert (next = delete p (fs s) ∧ base_dir p = false) as [-> Hbase].
    { unfold remove in Hrm. destruct (base_dir p); [done|].
      destruct (fs s !! p) as [[| |]|]; try done.
      - by case_decide; simplify_eq.
      - by simplify_eq.
      - by simplify_eq.
      - by destruct (blocked _ _). }
    destruct source as [perm|perm data|target]; [by apply wp_then| |by apply wp_then].
    eapply wp_mono; [apply Hwrite; by right|].
    intros r s' Hpost Hok. exists q, perm, data. split; [done|]. by apply Hpost.
  - (* nothing is there *)
    apply wp_bind, wp_ret.
    assert (lstat (fs s) p = None) as Hnone.
    { unfold stat in Hst. rewrite follow_unfold in Hst.
      destruct (blocked (fs s) p); [done|].
      destruct (lstat (fs s) p) as [[| |target]|] eqn:Hl; try done.
      unfold lstat in Hl. destruct (base_dir p); [done|]. by destruct (Hlink target). }
    destruct source as [perm|perm data|target]; [by apply wp_then| |by apply wp_then].
    eapply wp_mono; [apply Hwrite; by left|].
    intros r s' Hpost Hok. exists q, perm, data. split; [done|]. by apply Hpost.
  - (* the destination cannot be reached *)
    apply wp_bind, wp_ret.
    destruct source as [perm|perm data|target]; [by apply wp_then| |by apply wp_then].
    apply wp_on_path; [done| |done].
    intros _ next Hw. fold p in Hw. unfold write in Hw. by rewrite Hst in Hw.
Qed.

Lemma copy_is_read_back_witness :
  let s := Scenario.with_archive "/tmp/node.tar.gz" in
  let after := copyFile Scenario.tar_env "/tmp/node.tar.gz" "/home/u/copy" s in
  os_ReadFile Scenario.tar_env "/home/u/copy" after.2 = (Ok "archive bytes", after.2).
Proof.
  intros s after.
  destruct (copy_is_read_back Scenario.tar_env "/tmp/node.tar.gz" "/home/u/copy" s)
    as (q & perm & data & Hsrc & _ & Hread);
    [intros target; by vm_compute | by vm_compute |].
  vm_compute in Hsrc. injection Hsrc as _ _ <-. exact Hread.
Defined.
(* ================================================================== *)
(** ** The configuration file *)

Section ConfigFile.
Context (E : Env).
Context (json_marshal : Config → res string) (json_unmarshal : string → res Config).
#[local] Abbreviation w := (windows E).

Lemma fallback_path_nonempty configPath :
  Filepath.Join w [Filepath.Dir w configPath; "versions"] ≠ "".
Proof. apply Join_nonempty; [done|]. constructor; [|done]. by destruct w. Qed.

Lemma LoadConfig_state configPath s : (LoadConfig E json_unmarshal configPath s).2 = s.
Proof.
  unfold LoadConfig. rewrite bind_eq. unfold try.
  pose proof (os_ReadFile_state E configPath s) as Hs.
  destruct (os_ReadFile E configPath s) as [[data|err] s1]. simpl in Hs. subst s1.
  - destruct (json_unmarshal data); [|done]. by case_decide.
  - simpl in Hs. subst s1. by destruct (is_not_exist err).
Qed.

(** What LoadConfig makes of a file that holds [data]. *)
Lemma LoadConfig_read configPath s data c m q :
  configPath ≠ "" →
  stat w (fs s) (to_path E configPath) = StatOk q (File m data) →
  json_unmarshal data = Ok c →
  ∃ c', LoadConfig E json_unmarshal configPath s = (Ok c', s) ∧
        InstalledVersions c' = InstalledVersions c ∧
        ActiveVersion c' = ActiveVersion c ∧
        (InstallPath c ≠ "" → c' = c) ∧
        (InstallPath c = "" →
           InstallPath c' = Filepath.Join w [Filepath.Dir w configPath; "versions"]).
Proof.
  intros Hname Hstat Hdec. unfold LoadConfig. rewrite bind_eq. unfold try, os_ReadFile.
  rewrite decide_False by done. rewrite bind_eq. cbn [get_fs fst snd].
  unfold read. rewrite Hstat. cbn. rewrite Hdec.
  case_decide as Hpath; eexists; (split; [done|]); by split_and!.
Qed.

(** A write that succeeds leaves a link where there was one. *)
Lemma write_keeps_links f p trunc perm data f' k target :
  write w f p trunc perm data = inl f' → f !! k = Some (Symlink target) →
  f' !! k = Some (Symlink target).
Proof.
  intros Hw Hk. unfold write in Hw.
  destruct (stat w f p) as [q [|m old|]|q|] eqn:Hstat; try done.
  - injection Hw as <-. apply follow_StatOk in Hstat.
    rewrite lookup_insert_ne; [done|]. intros <-.
    unfold lstat in Hstat. destruct (base_dir q); congruence.
  - destruct (stat w f (parent q)) as [? [| |]| |]; try done. injection Hw as <-.
    apply follow_StatNotExist, lstat_None in Hstat as [_ Hnone].
    rewrite lookup_insert_ne; [done|]. intros <-. congruence.
Qed.

(** After SaveConfig the file holds what the encoder made. *)
Lemma SaveConfig_written configPath c s :
  let after := SaveConfig E json_marshal configPath c s in
  after.1 = Ok tt →
  no_link (fs after.2) (to_path E configPath) →
  config after.2 = config s ∧
  configPath ≠ "" ∧
  ∃ data m, json_marshal c = Ok data ∧
            stat w (fs after.2) (to_path E configPath)
              = StatOk (to_path E configPath) (File m data).
Proof.
  intros after. unfold after. clear after.
  change (wp (SaveConfig E json_marshal configPath c) s (λ r s',
            r = Ok tt → no_link (fs s') (to_path E configPath) →
            config s' = config s ∧ configPath ≠ "" ∧
            ∃ data m, json_marshal c = Ok data ∧
                      stat w (fs s') (to_path E configPath)
                        = StatOk (to_path E configPath) (File m data))).
  unfold SaveConfig. apply wp_bind.
  eapply (wp_frame cfg_eq); [apply frame_MkdirAll|].
  intros [[]|e] s1 Hs1; [|done].
  apply wp_bind, wp_lift. destruct (json_marshal c) as [data|e]; [|done].
  apply wp_on_path; [done| |done].
  intros Hname f' Hw _ Hlink. cbn [set_fs snd fs config] in *.
  split; [by symmetry|]. split; [done|]. exists data.
  destruct (write_at_path E (fs s1) (to_path E configPath) 420 data f')
    as (m & _ & Hstat & _); [|done|by eauto].
  intros target Hl. apply (Hlink target).
  eapply write_keeps_links; [done|].
  unfold lstat in Hl. by destruct (base_dir _).
Qed.

(** *** The commands *)

Lemma GetConfigPath_nonempty cfgPath : GetConfigPath E = Ok cfgPath → cfgPath ≠ "".
Proof.
  unfold GetConfigPath. destruct (UserHomeDir E) as [homeDir|]; [|done].
  intros [= <-]. apply Join_nonempty; [done|]. repeat constructor; by destruct w.
Qed.

(** The hook yields a configuration with an installation path. *)
Lemma wp_PersistentPreRunE s Q :
  (∀ e, Q (Err e) s) →
  (∀ cfgPath c, GetConfigPath E = Ok cfgPath → InstallPath c ≠ "" →
     Q (Ok cfgPath) (set_config c s).2) →
  wp (PersistentPreRunE E json_unmarshal) s Q.
Proof.
  intros Herr Hok. unfold PersistentPreRunE. apply wp_bind, wp_lift.
  destruct (GetConfigPath E) as [cfgPath|e] eqn:Hpath; [|done].
  apply wp_bind. unfold wp at 1. rewrite LoadConfig_state.
  destruct (LoadConfig E json_unmarshal cfgPath s).1 as [c|e] eqn:Hload; [|done].
  apply wp_bind. unfold wp at 1. cbn [set_config fst snd]. apply wp_ret.
  apply Hok; [done|]. revert Hload. unfold LoadConfig. rewrite bind_eq. unfold try.
  destruct (os_ReadFile E cfgPath s) as [[data|err] s1].
  - destruct (json_unmarshal data) as [c0|]; [|done].
    case_decide; intros [= <-]; [apply fallback_path_nonempty|done].
  - destruct (is_not_exist err); [|done]. intros [= <-]. apply fallback_path_nonempty.
Qed.

(** A command that keeps the installation path, run between the hook and
    SaveConfig. *)
Lemma command_persists (body : M unit) s :
  (∀ s0, InstallPath (config (body s0).2) = InstallPath (config s0)) →
  persists E json_marshal json_unmarshal
    (cfgPath ← PersistentPreRunE E json_unmarshal;
     body ;; c ← get_config; SaveConfig E json_marshal cfgPath c) s.
Proof.
  intros Hbody.
  set (P := λ (r : res ()) (s1 : State),
         r = Ok tt →
         ∀ cfgPath, GetConfigPath E = Ok cfgPath →
         no_link (fs s1) (to_path E cfgPath) →
         (∀ data, json_marshal (config s1) = Ok data →
                  json_unmarshal data = Ok (config s1)) →
         ∀ s', fs s' = fs s1 →
           PersistentPreRunE E json_unmarshal s'
             = (Ok cfgPath, (set_config (config s1) s').2)).
  change (wp (cfgPath ← PersistentPreRunE E json_unmarshal;
              body ;; c ← get_config; SaveConfig E json_marshal cfgPath c) s P).
  apply wp_bind, wp_PersistentPreRunE; [done|].
  intros cfgPath c0 Hpath Hc0.
  apply wp_bind. unfold wp at 1.
  pose proof (Hbody (set_config c0 s).2) as Hkeep.
  destruct (body (set_config c0 s).2) as [[[]|e] s1]; [|done].
  cbn [set_config fst snd config] in *.
  apply wp_bind, wp_get_config.
  intros Hok cfgPath' Hpath' Hlink Hcodec s' Hfs.
  assert (cfgPath' = cfgPath) as -> by congruence.
  unfold wp in *.
  destruct (SaveConfig_written cfgPath (config s1) s1 Hok Hlink)
    as (Hcfg & Hname & data & m & Hdata & Hstat).
  rewrite Hcfg in Hcodec. rewrite <- Hfs in Hstat.
  destruct (LoadConfig_read cfgPath s' data (config s1) m _ Hname Hstat (Hcodec _ Hdata))
    as (c' & Hload & _ & _ & Hsame & _).
  rewrite Hsame in Hload by congruence.
  unfold PersistentPreRunE. rewrite bind_eq. unfold lift. rewrite Hpath.
  rewrite bind_eq, Hload, bind_eq. cbn. by rewrite Hcfg.
Qed.

End ConfigFile.

(** X18. LoadConfig changes nothing and never yields a configuration
    without an installation path; when os.Stat does not find the file, it
    yields the default configuration: no version installed, none active,
    and the directory "versions" beside the file as installation path. *)
Theorem loaded_config_has_install_path E json_unmarshal configPath s :
  let after := LoadConfig E json_unmarshal configPath s in
  after.2 = s ∧
  (∀ c, after.1 = Ok c → InstallPath c ≠ "") ∧
  (IsNotExist (stat (windows E) (fs s) (to_path E configPath)) = true →
     after.1 = Ok {| InstallPath :=
                       Filepath.Join (windows E)
                         [Filepath.Dir (windows E) configPath; "versions"];
                     InstalledVersions := []; ActiveVersion := "" |}).
Proof.
  intros after. split; [apply LoadConfig_state|]. unfold after, LoadConfig.
  rewrite bind_eq. unfold try.
  destruct (os_ReadFile E configPath s) as [[data|err] s1] eqn:Hread.
  - split.
    + destruct (json_unmarshal data) as [c0|]; [|done].
      case_decide; intros c [= <-]; [apply fallback_path_nonempty|done].
    + intros Hstat. revert Hread. unfold os_ReadFile. case_decide; [done|].
      rewrite bind_eq. cbn [get_fs fst snd]. unfold read.
      by destruct (stat _ _ _) as [? [| |]| |].
  - split.
    + destruct (is_not_exist err); [|done]. intros c [= <-]. apply fallback_path_nonempty.
    + intros Hstat. revert Hread. unfold os_ReadFile. case_decide; [by intros [= <- _]|].
      rewrite bind_eq. cbn [get_fs fst snd]. unfold read.
      destruct (stat _ _ _) as [? [| |]| |]; try done. by intros [= <- _].
Qed.

Lemma loaded_config_has_install_path_witness :
  (LoadConfig Scenario.tar_env (Codec.unmarshal Scenario.config0)
     "/home/u/.node-spark/config.json" Scenario.fresh).1
  = Ok Scenario.config0.
Proof.
  destruct (loaded_config_has_install_path Scenario.tar_env
              (Codec.unmarshal Scenario.config0)
              "/home/u/.node-spark/config.json" Scenario.fresh) as (_ & _ & Hdefault).
  rewrite Hdefault; by vm_compute.
Defined.

(** X19. What SaveConfig wrote, LoadConfig reads: when SaveConfig returns
    nil, the file not being a symbolic link, and the decoder reads back
    what the encoder made of the configuration, then LoadConfig on the
    resulting file system returns that configuration, with the default
    installation path in place of an empty one. *)
Theorem saved_config_is_loaded E json_marshal json_unmarshal configPath c s s' :
  let after := SaveConfig E json_marshal configPath c s in
  after.1 = Ok tt →
  no_link (fs after.2) (to_path E configPath) →
  (∀ data, json_marshal c = Ok data → json_unmarshal data = Ok c) →
  fs s' = fs after.2 →
  ∃ c', LoadConfig E json_unmarshal configPath s' = (Ok c', s') ∧
        InstalledVersions c' = InstalledVersions c ∧
        ActiveVersion c' = ActiveVersion c ∧
        (InstallPath c ≠ "" → c' = c) ∧
        (InstallPath c = "" →
           InstallPath c' = Filepath.Join (windows E)
                              [Filepath.Dir (windows E) configPath; "versions"]).
Proof.
  intros after Hok Hlink Hcodec Hfs.
  destruct (SaveConfig_written E json_marshal configPath c s Hok Hlink)
    as (_ & Hname & data & m & Hdata & Hstat).
  fold after in Hstat. rewrite <- Hfs in Hstat.
  eapply LoadConfig_read; [done | exact Hstat | by apply Hcodec].
Qed.

Lemma saved_config_is_loaded_witness :
  let E := Scenario.tar_env in
  let c := {| InstallPath := "/opt/node"; InstalledVersions := ["18.17.0"; "20.5.0"];
              ActiveVersion := "20.5.0" |} in
  let after := SaveConfig E Codec.marshal "/home/u/.node-spark/config.json" c
                 Scenario.fresh in
  LoadConfig E (Codec.unmarshal c) "/home/u/.node-spark/config.json" after.2
    = (Ok c, after.2).
Proof.
  intros E c after.
  destruct (saved_config_is_loaded E Codec.marshal (Codec.unmarshal c)
              "/home/u/.node-spark/config.json" c Scenario.fresh after.2)
    as (c' & Hload & _ & _ & Hsame & _);
    [by vm_compute | intros target; by vm_compute
    | intros data [= <-]; by vm_compute | done |].
  rewrite Hload. by rewrite Hsame.
Defined.

(** X20. The commands install, use and uninstall save what they did: when
    one of them returns nil, the configuration file not being a symbolic
    link afterwards and the decoder reading back what the encoder made,
    the hook that opens the next run of the program loads the very
    configuration that the command left in memory. *)
Theorem commands_save_their_outcome E json_marshal json_unmarshal version s :
  persists E json_marshal json_unmarshal
    (installCmd E json_marshal json_unmarshal version) s ∧
  persists E json_marshal json_unmarshal
    (useCmd E json_marshal json_unmarshal version) s ∧
  persists E json_marshal json_unmarshal
    (uninstallCmd E json_marshal json_unmarshal version) s.
Proof.
  split_and!; apply command_persists; intros s0.
  - by destruct (InstallNodeVersion_config E version s0) as [[Hpath _] _].
  - by destruct (SetActiveVersion_activates E version s0) as [Hpath _].
  - destruct (UninstallVersion_config E version s0) as [Hsame|(_ & Hpath & _)]; [|done].
    by rewrite Hsame.
Qed.

Lemma commands_save_their_outcome_witness :
  let E := Scenario.tar_env in
  let c := {| InstallPath := "/home/u/.node-spark/versions";
              InstalledVersions := []; ActiveVersion := "20.5.0" |} in
  let after := useCmd E Codec.marshal (Codec.unmarshal c) "20.5.0" Scenario.stocked in
  after.1 = Ok tt ∧
  ActiveVersion (config (PersistentPreRunE E (Codec.unmarshal c) after.2).2) = "20.5.0".
Proof.
  intros E c after.
  assert (after.1 = Ok tt) as Hok by by vm_compute.
  assert (config after.2 = c) as Hcfg by by vm_compute.
  split; [done|].
  destruct (commands_save_their_outcome E Codec.marshal (Codec.unmarshal c)
              "20.5.0" Scenario.stocked) as (_ & Huse & _).
  rewrite (Huse Hok "/home/u/.node-spark/config.json") with (s' := after.2);
    [fold after; by rewrite Hcfg | by vm_compute | intros target; by vm_compute
    | fold after; rewrite Hcfg; intros data [= <-]; by vm_compute | done].
Defined.
(* ================================================================== *)
(** ** Reading the active version from the link *)

Section Stays.
Context (w : bool).

(** A directory stays one when something that is no regular file is
    stored where nothing was. *)
Lemma insert_stays f k x p :
  lstat f k = None → is_file (Some x) = false →
  directory f p → directory (<[k := x]> f) p.
Proof.
  intros Hk Hx (Hb & perm & Hl). split.
  - rewrite blocked_insert; [done|done|by rewrite Hk].
  - exists perm. rewrite lstat_insert_ne; [done|]. intros ->. congruence.
Qed.

Lemma mkdir_stays f q perm f' p :
  mkdir w f q perm = inl f' → directory f p → directory f' p.
Proof.
  unfold mkdir. destruct (lstat f q) eqn:Hl; [done|].
  destruct (stat w f (parent q)) as [? [| |]| |]; try done.
  intros [= <-]. by apply insert_stays.
Qed.

Lemma mkdir_all_rev_stays r up perm f f' p :
  mkdir_all_rev w r up perm f = inl f' → directory f p → directory f' p.
Proof.
  revert f'. induction up as [|x up IH]; intros f'; simpl; [by intros [= <-]|].
  intros Hrun Hp.
  destruct (stat w f (r, rev up ++ [x])) as [? [| |]| |];
    try done; try (by injection Hrun as <-);
    (destruct (mkdir_all_rev w r up perm f) as [f1|?] eqn:Hup; [|done]);
    specialize (IH f1 eq_refl Hp);
    (destruct (mkdir w f1 (r, rev up ++ [x]) perm) as [f2|?] eqn:Hmk;
      [injection Hrun as <-; by eapply mkdir_stays|]);
    destruct (lstat f1 (r, rev up ++ [x])) as [[| |]|]; try done; by injection Hrun as <-.
Qed.

Lemma mkdir_all_stays f q perm f' p :
  mkdir_all w f q perm = inl f' → directory f p → directory f' p.
Proof. apply mkdir_all_rev_stays. Qed.

Lemma symlink_stays f target q f' p :
  symlink w f target q = inl f' → directory f p → directory f' p.
Proof.
  unfold symlink. destruct (lstat f q) eqn:Hl; [done|].
  destruct (stat w f (parent q)) as [? [| |]| |]; try done.
  intros [= <-]. by apply insert_stays.
Qed.

Lemma remove_stays f q f' p :
  remove f q = inl f' → q ≠ p → directory f p → directory f' p.
Proof.
  intros Hrm Hq (Hb & perm & Hl).
  assert (f' = delete q f) as ->.
  { unfold remove in Hrm. destruct (base_dir q); [done|].
    destruct (f !! q) as [[| |]|]; try done.
    - by case_decide; simplify_eq.
    - by simplify_eq.
    - by simplify_eq.
    - by destruct (blocked _ _). }
  split; [by apply blocked_delete|]. exists perm.
  unfold lstat in *. destruct (base_dir p); [done|]. by rewrite lookup_delete_ne.
Qed.

(** The last field of the text of a path is its last element. *)
Lemma last_field_of_show r es x :
  Forall (is_name w) es → is_name w x →
  List.last (Strings.Split (show w (r, es ++ [x])) (Separator w)) "" = x.
Proof.
  intros Hes Hx.
  assert (plain (Ascii.eqb (Separator w)) x = true) as Hplain.
  { destruct Hx as [Hp _]. clear -Hp. induction x as [|c x IH]; [done|].
    simpl in *. apply andb_prop in Hp as [Hc Hx]. rewrite IH by done.
    apply negb_true_iff in Hc. by rewrite (not_sep_eqb w c Hc). }
  assert (∀ s, List.last (Strings.Split (s +:+ String (Separator w) x) (Separator w)) "" = x)
    as Hlast.
  { intros s. unfold Strings.Split. rewrite split_by_app by apply Ascii.eqb_refl.
    rewrite (split_by_plain _ x Hplain). by rewrite last_last. }
  destruct es as [|e es].
  - rewrite app_nil_l, show_single by apply Hx. destruct r.
    + apply (Hlast "").
    + unfold Strings.Split. by rewrite split_by_plain.
  - rewrite show_snoc; [apply Hlast| |done].
    eapply Forall_impl; [exact Hes|]. by intros y (_ & ? & _).
Qed.

End Stays.

Section ActiveLink.
Context (E : Env) (Hposix : windows E = false).

Lemma useVersionPosix_stays version versionPath s p :
  (∀ h, UserHomeDir E = Ok h → current_link E h ≠ p) →
  wp (useVersionPosix E version versionPath) s
     (λ r s', directory (fs s) p → directory (fs s') p).
Proof.
  intros Hlinkp. unfold useVersionPosix.
  apply wp_bind, wp_wrap, wp_lift. destruct (UserHomeDir E) as [h|e] eqn:Hhome; [|done].
  specialize (Hlinkp h eq_refl).
  set (link := Filepath.Join (windows E) [h; ".node-spark"; "current"]).
  pose proof (current_link_name E Hposix h) as Hlink. fold link in Hlink.
  apply wp_bind, wp_wrap, wp_on_path; [done| |done]. intros _ fa Hmk.
  apply wp_bind, wp_os_Lstat. rewrite decide_False by done.
  assert (∀ sb, (directory (fs s) p → directory (fs sb) p) →
    wp (wrap "failed to create symlink" (os_Symlink E versionPath link) ;;
        set_active version ;;
        print ("Successfully switched to Node.js " +:+ version) ;;
        print ("Make sure " +:+ link +:+ "/bin is in your PATH") ;;
        print (lf +:+ "To ensure the Node.js version persists in new terminal sessions, "
               +:+ "add this to your shell config file:") ;;
        print ("export PATH=" +:+ dq +:+ link +:+ "/bin:$PATH" +:+ dq)) sb
       (λ r s', directory (fs s) p → directory (fs s') p)) as Hrest.
  { intros sb Hsb. apply wp_bind, wp_wrap, wp_on_path; [done|..|by intros; apply Hsb].
    intros _ fc Hsym. apply wp_bind, wp_set_active.
    do 3 apply wp_bind, wp_print. apply wp_print. cbn [print set_config set_fs snd fs].
    intros Hp. eapply symlink_stays; [exact Hsym|by apply Hsb]. }
  assert (directory (fs s) p → directory fa p) as Hfa.
  { intros Hp. by eapply mkdir_all_stays. }
  destruct (lstat _ _) as [n|].
  - apply wp_bind, wp_wrap, wp_on_path; [done|..|by intros; apply Hfa].
    intros _ fb Hrm. apply Hrest. cbn [set_fs snd fs] in *. intros Hp.
    eapply remove_stays; [exact Hrm|exact Hlinkp|by apply Hfa].
  - apply wp_bind, wp_ret. by apply Hrest.
Qed.

Lemma SetActiveVersion_stays version s p :
  (∀ h, UserHomeDir E = Ok h → current_link E h ≠ p) →
  wp (SetActiveVersion E version) s (λ r s', directory (fs s) p → directory (fs s') p).
Proof.
  intros Hlinkp. unfold SetActiveVersion. apply wp_bind, wp_get_config.
  apply wp_bind, wp_os_Stat. destruct (IsNotExist _); [by apply wp_raise|]. apply wp_bind.
  assert (wp (UseVersion E version) s (λ r s', directory (fs s) p → directory (fs s') p))
    as Huse.
  { unfold UseVersion. apply wp_bind, wp_get_config. apply wp_bind, wp_os_Stat.
    destruct (IsNotExist _); [by apply wp_raise|]. apply wp_bind, wp_print.
    rewrite (posix_branch E Hposix).
    apply (useVersionPosix_stays version _ (print _ s).2 p Hlinkp). }
  eapply wp_mono; [exact Huse|].
  intros [[]|e] s1 Hs1; [|done]. by apply wp_bind, wp_set_active, wp_print.
Qed.

End ActiveLink.

(** X21. Off Windows, GetActiveNodeVersion reads back what SetActiveVersion
    set: for an absolute installation path and a version that is a single
    path element and whose directory is a directory proper (and not the
    link itself), once SetActiveVersion has returned nil,
    GetActiveNodeVersion returns that version and changes nothing. *)
Theorem active_version_is_read_from_link E version s homeDir :
  let after := SetActiveVersion E version s in
  windows E = false →
  UserHomeDir E = Ok homeDir →
  rooted false (InstallPath (config s)) = true →
  is_name false version →
  directory (fs s) (version_dir E (config s) version) →
  current_link E homeDir ≠ version_dir E (config s) version →
  after.1 = Ok tt →
  GetActiveNodeVersion E after.2 = (Ok version, after.2).
Proof.
  intros after Hposix Hhome Hrooted Hname Hdir Hdiff Hok.
  pose proof (SetActiveVersion_linked E Hposix version s Hok) as Hlinked.
  pose proof (SetActiveVersion_stays E Hposix version s
                (version_dir E (config s) version)) as Hstays.
  unfold wp in Hstays. fold after in Hlinked, Hstays.
  destruct Hstays as (Hvb & perm & Hvl); [|done|].
  { intros h Hh. by assert (h = homeDir) as -> by congruence. }
  destruct Hlinked as (h & before & Hh & Hfree & Hparent & Hfs & _).
  assert (h = homeDir) as -> by congruence.
  set (vd := version_dir E (config s) version) in *.
  set (link := current_link E homeDir) in *.
  set (versionPath := Filepath.Join (windows E) [GetInstallPath (config s); version]) in *.
  (* where the link leads *)
  assert (Hvd : vd = ((parse false (InstallPath (config s))).1,
                      (parse false (InstallPath (config s))).2 ++ [version])).
  { unfold vd, version_dir, to_path. rewrite Hposix.
    by rewrite parse_Join_names by by apply Forall_singleton. }
  assert (Hdest : link_dest (windows E) link versionPath = vd).
  { unfold link_dest.
    assert (rooted (windows E) versionPath = true) as ->; [|done].
    change (rooted (windows E) versionPath) with (parse (windows E) versionPath).1.
    change (parse (windows E) versionPath) with vd. rewrite Hvd. simpl.
    unfold parse. simpl. exact Hrooted. }
  (* the link itself *)
  assert (Hlb : blocked (fs after.2) link = false).
  { rewrite Hfs, blocked_insert_self.
    pose proof (parse_Join_names (windows E) homeDir [".node-spark"; "current"]
                  (current_link_names E Hposix)) as Hlp.
    change (parse (windows E) (Filepath.Join (windows E) [homeDir; ".node-spark"; "current"]))
      with link in Hlp.
    change [".node-spark"; "current"] with ([".node-spark"] ++ ["current"]) in Hlp.
    rewrite app_assoc in Hlp. rewrite Hlp in *. rewrite parent_snoc in Hparent.
    by apply (dir_not_blocking (windows E)). }
  assert (Hll : lstat (fs after.2) link = Some (Symlink versionPath)).
  { apply lstat_None in Hfree as [Hbase _]. unfold lstat.
    by rewrite Hbase, Hfs, lookup_insert_eq. }
  assert (Hstat : stat (windows E) (fs after.2) link = StatOk vd (Dir perm)).
  { unfold stat. rewrite follow_unfold, Hlb, Hll, Hdest.
    by rewrite follow_unfold, Hvb, Hvl. }
  unfold GetActiveNodeVersion. rewrite bind_eq. unfold wrap, lift. rewrite Hhome.
  rewrite bind_eq. cbn [get_fs fst snd]. unfold EvalSymlinks.
  change (to_path E (Filepath.Join (windows E) [homeDir; ".node-spark"; "current"]))
    with link.
  rewrite Hstat. rewrite Hvd, Hposix.
  rewrite last_field_of_show; [done| |done].
  pose proof (parse_cleaned false (InstallPath (config s))) as (k & names & Hes & Hk & Hn).
  unfold parse in Hes, Hk. simpl in Hes, Hk. rewrite Hrooted in Hk.
  rewrite (Hk eq_refl) in Hes. unfold parse. simpl. by rewrite Hes.
Qed.

Lemma active_version_is_read_from_link_witness :
  let after := SetActiveVersion Scenario.broken_env "20.5.0" Scenario.stocked in
  GetActiveNodeVersion Scenario.broken_env after.2 = (Ok "20.5.0", after.2).
Proof.
  intros after.
  apply (active_version_is_read_from_link Scenario.broken_env "20.5.0" Scenario.stocked
           "/home/u");
    [done | done | done | done
    | split; [by vm_compute | by exists 493; vm_compute]
    | by vm_compute | by vm_compute].
Defined.
(* ================================================================== *)
(** ** The name of the archive *)

(** X22. Off Windows the archive that InstallNodeVersion downloads is the
    one that getNodeDownloadURL names: when getNodeDownloadURL succeeds,
    detectSystemInfo succeeds without printing, and file name and URL are
    those built from its answer; when getNodeDownloadURL fails, so does
    detectSystemInfo.  On Windows detectSystemInfo answers x86, win and
    zip whatever GOARCH and the probes say. *)
Theorem download_url_names_the_archive E version s :
  let versionStr :=
    if negb (Strings.HasPrefix version "v") then "v" +:+ version else version in
  (GOOS E ≠ "windows" →
     match getNodeDownloadURL E version with
     | Ok (url, filename) =>
         ∃ nodeArch nodeOS ext,
           detectSystemInfo E s = (Ok (nodeArch, nodeOS, ext), s) ∧
           filename = archive_name versionStr nodeOS nodeArch ext ∧
           url = archive_url versionStr filename
     | Err _ => ∃ e, detectSystemInfo E s = (Err e, s)
     end) ∧
  (GOOS E = "windows" → (detectSystemInfo E s).1 = Ok ("x86", "win", "zip")).
Proof.
  intros versionStr. split.
  - intros Hos. unfold getNodeDownloadURL, detectSystemInfo. fold versionStr.
    rewrite !bind_eq.
    destruct (decide (GOOS E = "linux")) as [Hl|Hl];
      [|destruct (decide (GOOS E = "darwin")) as [Hd|Hd];
        [|rewrite !(decide_False (P := GOOS E = "windows")) by done]].
    all: cbn [mret M_ret raise fst snd]; rewrite ?(decide_False (P := GOOS E = "windows")) by done.
    all: rewrite ?bind_eq.
    all: destruct (decide (GOARCH E = "amd64")) as [Ha|Ha];
      [|destruct (decide (GOARCH E = "386")) as [Hb|Hb];
        [|destruct (decide (GOARCH E = "arm64")) as [Hc|Hc];
          [|destruct (decide (GOARCH E = "arm")) as [Hd'|Hd']]]].
    all: cbn; eauto 10.
  - intros Hwin. unfold detectSystemInfo. rewrite !bind_eq.
    destruct (decide (GOOS E = "linux")) as [Hl|Hl]; [by rewrite Hwin in Hl|].
    destruct (decide (GOOS E = "darwin")) as [Hd|Hd]; [by rewrite Hwin in Hd|].
    rewrite !(decide_True (P := GOOS E = "windows")) by done.
    cbn [mret M_ret fst snd]. rewrite !(decide_True (P := GOOS E = "windows")) by done.
    by rewrite !bind_eq.
Qed.

(* ================================================================== *)
(** ** The versions on offer *)

Lemma append_length (s t : string) :
  String.length (s +:+ t) = (String.length s + String.length t)%nat.
Proof. induction s as [|c s IH]; [done|]. rewrite append_cons. simpl. by rewrite IH. Qed.

Lemma GetVersionString_starts v :
  Strings.HasPrefix (GetVersionString v) (Version v) = true ∧
  (GetVersionString v = Version v ↔ IsLTS v = false).
Proof.
  unfold GetVersionString. destruct (IsLTS v).
  - assert (∀ t, t ≠ "" → Version v +:+ t ≠ Version v) as Hlonger.
    { intros t Ht Heq. apply (f_equal String.length) in Heq. rewrite append_length in Heq.
      destruct t; [done|]. simpl in Heq. lia. }
    case_decide; (split; [apply HasPrefix_append|]); split; try done;
      intros Heq; by apply Hlonger in Heq.
  - split; [apply HasPrefix_refl|done].
Qed.

(** X23. ListAvailableNodeVersions labels the index: it fails exactly when
    FetchAvailableVersions fails, with that error wrapped, and otherwise
    returns one line for each entry of the index, in the order of the
    index; the line begins with the version of the entry and is the
    version alone exactly when the entry is not an LTS release. *)
Theorem available_versions_are_labelled E s :
  let fetched := FetchAvailableVersions E s in
  let after := ListAvailableNodeVersions E s in
  after.2 = fetched.2 ∧
  (∀ e, fetched.1 = Err e →
     after.1 = Err (Wrapped "failed to fetch available versions" e)) ∧
  (∀ index, fetched.1 = Ok index →
     ∃ lines, after.1 = Ok lines ∧ length lines = length index ∧
       ∀ i v, index !! i = Some v →
         ∃ line, lines !! i = Some line ∧
                 Strings.HasPrefix line (Version v) = true ∧
                 (line = Version v ↔ IsLTS v = false)).
Proof.
  intros fetched after. unfold after, ListAvailableNodeVersions. rewrite bind_eq.
  unfold wrap. fold fetched. destruct fetched as [[index|e] s1]; cbn [fst snd].
  - split; [done|]. split; [done|]. intros ? [= <-].
    exists (map GetVersionString index). split; [done|]. split; [apply length_map|].
    intros i v Hi. exists (GetVersionString v). split.
    + change (map GetVersionString index) with (GetVersionString <$> index).
      by rewrite list_lookup_fmap, Hi.
    + apply GetVersionString_starts.
  - split; [done|]. split; [by intros ? [= <-]|done].
Qed.
(* ================================================================== *)
(** ** From one run to the next *)

Section Commands.
Context (E : Env).
Context (json_marshal : Config → res string) (json_unmarshal : string → res Config).

Lemma SetActiveVersion_active version s :
  wp (SetActiveVersion E version) s
     (λ r s', r = Ok tt → ActiveVersion (config s') = version).
Proof.
  unfold SetActiveVersion. apply wp_bind, wp_get_config. apply wp_bind, wp_os_Stat.
  destruct (IsNotExist _); [done|]. apply wp_bind. apply wp_any.
  intros [[]|e] s1; [|done]. by apply wp_bind, wp_set_active, wp_print.
Qed.

Lemma SaveConfig_config configPath c :
  preserves cfg_eq (SaveConfig E json_marshal configPath c).
Proof.
  intros s.
  change (wp (SaveConfig E json_marshal configPath c) s (λ _ s', cfg_eq s s')).
  unfold SaveConfig. apply wp_bind.
  eapply (wp_frame cfg_eq); [apply frame_MkdirAll|].
  intros [[]|e] s1 Hs1; [|done]. apply wp_bind, wp_lift.
  destruct (json_marshal c); [|done].
  eapply (wp_frame cfg_eq); [apply frame_write|].
  intros r s2 Hs2. unfold cfg_eq, on_config in *. congruence.
Qed.

Lemma useCmd_active version s :
  wp (useCmd E json_marshal json_unmarshal version) s
     (λ r s', r = Ok tt → ActiveVersion (config s') = version).
Proof.
  unfold useCmd. apply wp_bind, wp_PersistentPreRunE; [done|].
  intros cfgPath c _ _. apply wp_bind.
  eapply wp_mono; [apply SetActiveVersion_active|].
  intros [[]|e] s1 Hactive; [|done]. specialize (Hactive eq_refl).
  apply wp_bind, wp_get_config.
  eapply (wp_frame cfg_eq); [apply SaveConfig_config|].
  intros r s2 Hs2 _. unfold cfg_eq, on_config in Hs2. by rewrite <- Hs2.
Qed.

End Commands.

(** X24. What the command use has set, the command current reports in the
    next run: when use returns nil for a non-empty version (the
    configuration file not being a symbolic link afterwards, the decoder
    reading back what the encoder made), the command current, run on the
    file system that use left, returns nil and prints the line
    "Currently active Node.js version: <version>" and nothing else. *)
Theorem use_then_current E json_marshal json_unmarshal version s cfgPath s' :
  let after := useCmd E json_marshal json_unmarshal version s in
  after.1 = Ok tt →
  version ≠ "" →
  GetConfigPath E = Ok cfgPath →
  no_link (fs after.2) (to_path E cfgPath) →
  (∀ data, json_marshal (config after.2) = Ok data →
           json_unmarshal data = Ok (config after.2)) →
  fs s' = fs after.2 →
  let later := currentCmd E json_unmarshal s' in
  later.1 = Ok tt ∧
  stdout later.2 = stdout s' ++ ["Currently active Node.js version: " +:+ version].
Proof.
  intros after Hok Hversion Hpath Hlink Hcodec Hfs later.
  assert (Hactive : ActiveVersion (config after.2) = version).
  { by apply (useCmd_active E json_marshal json_unmarshal version s). }
  assert (Hloaded : PersistentPreRunE E json_unmarshal s'
                    = (Ok cfgPath, (set_config (config after.2) s').2)).
  { apply (command_persists E json_marshal json_unmarshal (SetActiveVersion E version) s);
      try done.
    intros s0. by destruct (SetActiveVersion_activates E version s0) as [Hp _]. }
  clearbody after.
  unfold later, currentCmd. rewrite bind_eq, Hloaded, bind_eq.
  unfold try, GetActiveVersion. rewrite bind_eq. cbn [get_config set_config fst snd config].
  rewrite Hactive. rewrite decide_False by done. by cbn.
Qed.

Lemma use_then_current_witness :
  let E := Scenario.tar_env in
  let c := {| InstallPath := "/home/u/.node-spark/versions";
              InstalledVersions := []; ActiveVersion := "20.5.0" |} in
  let after := useCmd E Codec.marshal (Codec.unmarshal c) "20.5.0" Scenario.stocked in
  stdout (currentCmd E (Codec.unmarshal c) after.2).2 =
    stdout after.2 ++ ["Currently active Node.js version: 20.5.0"].
Proof.
  intros E c after.
  assert (config after.2 = c) as Hcfg by by vm_compute.
  apply (use_then_current E Codec.marshal (Codec.unmarshal c) "20.5.0" Scenario.stocked
           "/home/u/.node-spark/config.json" after.2);
    [by vm_compute | done | by vm_compute | intros target; by vm_compute
    | fold after; rewrite Hcfg; intros data [= <-]; by vm_compute | done].
Defined.
(* ================================================================== *)
(** ** The archive after the installation *)

#[export] Instance lasting_config_blind p : ConfigBlind (lasting p).
Proof. split. intros s c n Hn. by apply lasting_same. Qed.

Section Cleanup.
Context (E : Env).
#[local] Abbreviation w := (windows E).

(** A write that succeeds leaves at the path itself a regular file or the
    link that it followed. *)
Lemma write_leaves_removable f p trunc perm data f' :
  write w f p trunc perm data = inl f' →
  base_dir p = false ∧ ∃ n, f' !! p = Some n ∧ IsDir n = false.
Proof.
  intros Hw.
  assert (∃ q m d, f' = <[q := File m d]> f ∧
                   (∀ target, lstat f q ≠ Some (Symlink target)) ∧
                   (stat w f p = StatNotExist q ∨ ∃ m' old, stat w f p = StatOk q (File m' old)))
    as (q & m & d & -> & Hq & Hstat).
  { unfold write in Hw. destruct (stat w f p) as [q [|m old|]|q|] eqn:Hstat; try done.
    - injection Hw as <-. exists q, m, (if trunc then data else overwrite old data).
      split; [done|]. split; [|by eauto]. apply follow_StatOk in Hstat. congruence.
    - destruct (stat w f (parent q)) as [? [| |]| |]; try done. injection Hw as <-.
      exists q, perm, data. split; [done|]. split; [|by left].
      apply follow_StatNotExist in Hstat. congruence. }
  assert (lstat f p ≠ None → base_dir p = false →
          ∃ n, <[q := File m d]> f !! p = Some n ∧ IsDir n = false) as Hstored.
  { intros Hsome Hbase. destruct (decide (q = p)) as [->|Hne].
    - rewrite lookup_insert_eq. by eexists.
    - rewrite lookup_insert_ne by done.
      unfold stat in Hstat. rewrite follow_unfold in Hstat.
      destruct (blocked f p); [by destruct Hstat as [?|(? & ? & ?)]|].
      unfold lstat in *. rewrite Hbase in *.
      destruct (f !! p) as [[| |target]|] eqn:Hl; [| |by eauto|done].
      + by destruct Hstat as [?|(? & ? & ?)].
      + destruct Hstat as [?|(? & ? & [= -> _ _])]; done. }
  unfold stat in Hstat. rewrite follow_unfold in Hstat.
  destruct (blocked f p) eqn:Hb; [by destruct Hstat as [?|(? & ? & ?)]|].
  destruct (lstat f p) as [[m0|m0 old0|target]|] eqn:Hl.
  - by destruct Hstat as [?|(? & ? & ?)].
  - assert (base_dir p = false) as Hbase by (unfold lstat in Hl; by destruct (base_dir p)).
    split; [done|]. by apply Hstored.
  - assert (base_dir p = false) as Hbase by (unfold lstat in Hl; by destruct (base_dir p)).
    split; [done|]. by apply Hstored.
  - apply lstat_None in Hl as [Hbase Hnone]. split; [done|].
    destruct Hstat as [[= <-]|(? & ? & [=])]. rewrite lookup_insert_eq. by eexists.
Qed.

Lemma DownloadFile_stored filepath url s :
  wp (DownloadFile E filepath url) s
     (λ r s', r = Ok tt →
        base_dir (to_path E filepath) = false ∧
        ∃ n, fs s' !! to_path E filepath = Some n ∧ IsDir n = false).
Proof.
  unfold DownloadFile. destruct (http_get E url) as [e|status body body_err]; [done|].
  case_decide; [done|].
  apply wp_bind, wp_on_path; [done| |done]. intros _ f1 _.
  apply wp_bind, wp_on_path; [done| |done]. intros _ f2 Hw.
  apply wp_bind, wp_print. destruct body_err; [done|]. intros _.
  cbn [print set_fs snd fs]. by eapply write_leaves_removable.
Qed.

Lemma download_archive_stored versionStr nodeOS nodeArch ext s :
  (w = true → nodeArch ≠ "x64") →
  wp (download_archive E versionStr nodeOS nodeArch ext) s
     (λ r s', ∀ got, r = Ok got →
        got.2 = Filepath.Join w [TempDir E; archive_name versionStr nodeOS nodeArch ext] ∧
        base_dir (to_path E got.2) = false ∧
        ∃ n, fs s' !! to_path E got.2 = Some n ∧ IsDir n = false).
Proof.
  intros Harch. unfold download_archive. apply wp_bind, wp_print. apply wp_bind, wp_try.
  eapply wp_mono; [apply DownloadFile_stored|].
  intros [[]|e] s1 Hstored.
  - intros got [= <-]. split; [done|]. by apply Hstored.
  - destruct w eqn:Hw; cbn [andb]; [|done].
    rewrite bool_decide_eq_false_2 by by apply Harch. done.
Qed.

(** The answer of detectSystemInfo does not depend on the state, and on
    Windows the architecture is x86. *)
Lemma detectSystemInfo_answer s s' : (detectSystemInfo E s).1 = (detectSystemInfo E s').1.
Proof.
  unfold detectSystemInfo. rewrite !bind_eq.
  repeat (case_decide; cbn [mret M_ret raise fst snd]; try done);
    rewrite ?bind_eq; repeat (case_decide; cbn; try done).
Qed.

Lemma detectSystemInfo_x86 :
  w = true → returns (λ info, info.1.1 ≠ "x64") (detectSystemInfo E).
Proof.
  intros Hw. unfold detectSystemInfo. apply returns_bind. intros [nodeOS ext].
  case_decide as Hos; [by repeat returns_step|].
  unfold windows, is_windows in Hw. by apply bool_decide_eq_true in Hw.
Qed.

Lemma os_Remove_lasting p name :
  to_path E name ≠ p → preserves (lasting p) (os_Remove E name).
Proof.
  intros Hne. apply on_path_lasting. intros cur next n Hrun Hn.
  apply lasting_same. rewrite (remove_keeps _ _ _ p Hrun); [done|]. by intros ->.
Qed.

Lemma link_not_archive homeDir name :
  is_name w name → Strings.HasPrefix name "node-" = true →
  to_path E (Filepath.Join w [homeDir; ".node-spark"; "current"]) ≠
  to_path E (Filepath.Join w [TempDir E; name]).
Proof.
  intros Hname Hnode. unfold to_path.
  rewrite (parse_Join_names w homeDir [".node-spark"; "current"]).
  2:{ apply Forall_cons. split; [apply is_name_node_spark'|].
      apply Forall_singleton, is_name_current'. }
  rewrite (parse_Join_names w (TempDir E) [name]) by by apply Forall_singleton.
  change [".node-spark"; "current"] with ([".node-spark"] ++ ["current"]).
  rewrite app_assoc. intros [= _ Heq]. apply app_inj_tail in Heq as [_ <-]. done.
Qed.

Lemma install_body_lasting p filename archivePath versionDir cleanVersion tok :
  (∀ homeDir, to_path E (Filepath.Join w [homeDir; ".node-spark"; "current"]) ≠ p) →
  preserves (lasting p)
    (print "Download complete." ;;
     print ("Extracting " +:+ filename +:+ " to " +:+ versionDir +:+ "...") ;;
     wrap "failed to extract Node.js archive" (ExtractArchive E archivePath versionDir) ;;
     print "Extraction complete." ;;
     verify_installation E versionDir ;;
     record_installed cleanVersion ;;
     print ("Successfully installed Node.js version " +:+ tok +:+ ".") ;;
     offer_activation E tok).
Proof.
  intros Hlink. preserves_auto.
  - apply ExtractArchive_frame; apply _.
  - apply verify_installation_frame; apply _.
  - unfold record_installed, set_installed. preserves_auto;
      apply preserves_set_config; apply _.
  - unfold offer_activation. preserves_auto.
    apply SetActiveVersion_frame; try apply _.
    + unfold set_active. preserves_auto. apply preserves_set_config; apply _.
    + intros homeDir. by apply os_Remove_lasting.
Qed.

Lemma InstallNodeVersion_cleans tok s :
  let versionStr :=
    if negb (Strings.HasPrefix tok "v") then "v" +:+ tok else tok in
  word w tok →
  wp (InstallNodeVersion E tok) s
     (λ r s', r = Ok tt → Strings.TrimPrefix tok "v" ∉ InstalledVersions (config s) →
        ∃ nodeArch nodeOS ext,
          (detectSystemInfo E s).1 = Ok (nodeArch, nodeOS, ext) ∧
          fs s' !! to_path E (Filepath.Join w
                     [TempDir E; archive_name versionStr nodeOS nodeArch ext]) = None).
Proof.
  intros versionStr Htok. unfold InstallNodeVersion. fold versionStr.
  assert (word w versionStr) as Hv.
  { unfold versionStr. destruct (Strings.HasPrefix tok "v"); cbn [negb]; [done|].
    apply word_append; [by apply word_literal|done]. }
  apply wp_bind, wp_print. apply wp_bind, wp_get_config. cbn [print snd config].
  case_bool_decide as Hin; [by apply wp_print|].
  do 2 (apply wp_then; [intros [] ?|done]).
  apply wp_bind. unfold wp at 1.
  pose proof (detectSystemInfo_words E) as Hwords.
  pose proof detectSystemInfo_x86 as Hx86.
  pose proof (detectSystemInfo_answer s s0) as Hanswer.
  destruct (detectSystemInfo E s0) as [[[[nodeArch nodeOS] ext]|e] s3] eqn:Hinfo; [|done].
  cbn [fst snd] in *.
  destruct (Hwords _ _ _ Hinfo) as (Harch & Hos & Hext). cbn [fst snd] in *.
  apply wp_bind.
  eapply wp_mono.
  { apply download_archive_stored. intros Hw. by apply (Hx86 Hw _ _ _ Hinfo). }
  intros [[filename archivePath]|e] s4 Hgot; [|done].
  destruct (Hgot _ eq_refl) as (Hpath & Hbase & n & Hn & Hdir). cbn [snd] in *.
  set (pa := to_path E archivePath) in *.
  apply wp_defer.
  eapply (wp_frame (lasting pa)).
  { apply install_body_lasting. intros homeDir. unfold pa. rewrite Hpath.
    apply link_not_archive; [by apply archive_name_is_name|done]. }
  intros r s5 Hlast _ _. exists nodeArch, nodeOS, ext. split; [done|].
  rewrite <- Hpath. fold pa.
  destruct (Hlast n Hn) as (n' & Hn' & Hshape).
  assert (IsDir n' = false) as Hdir'.
  { destruct n as [| |]; [done| |by subst]. by destruct Hshape as [? ->]. }
  unfold os_Remove, on_path.
  assert (archivePath ≠ "") as Hname.
  { rewrite Hpath. apply Join_nonempty; [done|].
    by apply Forall_singleton, archive_name_is_name. }
  rewrite decide_False by done. unfold fs_op. rewrite bind_eq. cbn [get_fs fst snd].
  fold pa. unfold remove. rewrite Hbase, Hn'.
  destruct n' as [| |]; [done|..]; cbn; apply lookup_delete_eq.
Qed.

End Cleanup.

(** X25. A successful installation leaves no archive behind: when
    InstallNodeVersion returns nil for a token without separators whose
    identifier was not installed, nothing is stored any more under the name
    in the temporary directory under which the archive was downloaded. *)
Theorem installed_archive_is_removed E tok s :
  let versionStr :=
    if negb (Strings.HasPrefix tok "v") then "v" +:+ tok else tok in
  let after := InstallNodeVersion E tok s in
  word (windows E) tok →
  Strings.TrimPrefix tok "v" ∉ InstalledVersions (config s) →
  after.1 = Ok tt →
  ∃ nodeArch nodeOS ext,
    (detectSystemInfo E s).1 = Ok (nodeArch, nodeOS, ext) ∧
    fs after.2 !! to_path E (Filepath.Join (windows E)
                 [TempDir E; archive_name versionStr nodeOS nodeArch ext]) = None.
Proof.
  intros versionStr after Htok Hnew Hok.
  by apply (InstallNodeVersion_cleans E tok s Htok).
Qed.

Lemma installed_archive_is_removed_witness :
  let after := InstallNodeVersion Scenario.serving_env "v20.1.0" Scenario.fresh in
  fs after.2 !! parse false "/tmp/node-v20.1.0-linux-x64.tar.gz" = None.
Proof.
  intros after.
  destruct (installed_archive_is_removed Scenario.serving_env "v20.1.0" Scenario.fresh)
    as (nodeArch & nodeOS & ext & Hinfo & Hgone);
    [done | apply not_elem_of_nil | by vm_compute |].
  vm_compute in Hinfo. injection Hinfo as <- <- <-. exact Hgone.
Defined.
(* ================================================================== *)
(** ** The shims on Windows *)

Section Shims.
Context (E : Env).
Let w := windows E.

(** After a write that went well, os.Stat does not miss the file. *)
Lemma wp_write_found name data perm s (Q : res unit → State → Prop) :
  (∀ s1, IsNotExist (stat w (fs s1) (to_path E name)) = false → Q (Ok tt) s1) →
  (∀ e, Q (Err e) s) →
  wp (os_WriteFile E name data perm) s Q.
Proof.
  intros Hok Herr. unfold os_WriteFile, open_and_write.
  apply wp_on_path; [by intros | | by intros].
  intros _ next Hnext. apply Hok. cbn [set_fs fst snd fs].
  destruct (stat w next (to_path E name)) as [| q' |] eqn:Hstat; try done.
  by destruct (write_found w _ _ _ _ _ _ q' Hnext).
Qed.

End Shims.

(** X26. When CreateWindowsShims returns nil, os.Stat does not miss
    node.exe in the shim directory any more: a shim for it or the
    placeholder is there.  Whether it returns nil or not, it leaves the
    configuration as it is and removes nothing: what was stored at a path
    is still there, a regular file possibly with other bytes. *)
Theorem shims_include_node E nodeBinPath shimDir s :
  let after := CreateWindowsShims E nodeBinPath shimDir s in
  let shim := to_path E (Filepath.Join (windows E) [shimDir; "node.exe"]) in
  (after.1 = Ok tt → IsNotExist (stat (windows E) (fs after.2) shim) = false) ∧
  config after.2 = config s ∧
  (∀ p, lasting p s after.2).
Proof.
  intros after shim. split; [|split].
  - change (wp (CreateWindowsShims E nodeBinPath shimDir) s
              (λ r s', r = Ok tt → IsNotExist (stat (windows E) (fs s') shim) = false)).
    unfold CreateWindowsShims.
    do 3 (apply wp_then; [intros ? ?|by intros]).
    match goal with |- wp _ ?s0 _ => rename s0 into s1' end.
    apply wp_bind, wp_os_Stat.
    case_decide as Hname.
    { exfalso. revert Hname. apply Join_nonempty; [done|].
      constructor; [|done]. by destruct (windows E). }
    fold shim. destruct (stat (windows E) (fs s1') shim) as [| q |] eqn:Hstat;
      cbn [IsNotExist]; [by apply wp_ret; rewrite Hstat| |by apply wp_ret; rewrite Hstat].
    apply wp_bind, wp_wrap, wp_write_found; [|by intros].
    intros s2 Hfound. fold shim in Hfound. by apply wp_bind, wp_print, wp_print.
  - pose proof (CreateWindowsShims_frame cfg_eq E nodeBinPath shimDir s) as H.
    unfold cfg_eq, on_config in H. by symmetry.
  - intros p. apply (CreateWindowsShims_frame (lasting p) E nodeBinPath shimDir s).
Qed.

Lemma shims_include_node_witness :
  let after := CreateWindowsShims Desk.env (Desk.home +:+ "\versions\20.1.0")
                 (Desk.home +:+ "\shims") Desk.unpacked in
  after.1 = Ok tt ∧
  IsNotExist (stat true (fs after.2) (parse true (Desk.home +:+ "\shims\node.exe"))) = false.
Proof.
  split; [by vm_compute|].
  apply (shims_include_node Desk.env (Desk.home +:+ "\versions\20.1.0")
           (Desk.home +:+ "\shims") Desk.unpacked).
  by vm_compute.
Defined.
(* ================================================================== *)
(** ** The activation on Windows *)

Section WindowsUse.
Context (E : Env).

(** UpdateWindowsPath returns nil; with PowerShell the PATH holds the shim
    directory afterwards; the configuration stays. *)
Lemma wp_UpdateWindowsPath shimDir s (Q : res unit → State → Prop) :
  (∀ s1, config s1 = config s →
         (powershell_runs E = true → Contains (user_PATH s1) shimDir = true) →
         Q (Ok tt) s1) →
  wp (UpdateWindowsPath E shimDir) s Q.
Proof.
  intros HQ. unfold wp, UpdateWindowsPath.
  destruct (powershell_runs E) eqn:Hrun; rewrite !bind_eq; cbn.
  - destruct (Contains (user_PATH s) shimDir) eqn:Hold; cbn.
    + by apply HQ.
    + apply HQ; [done|]. intros _. cbn.
      rewrite <- append_assoc. apply Contains_append, Contains_refl.
  - by apply HQ.
Qed.

(** What follows the shims in useVersionWindows never fails. *)
Lemma wp_after_shims version shimDir s (Q : res unit → State → Prop) (rest : string → M unit) :
  (∀ activateScript s1,
      ActiveVersion (config s1) = version →
      InstallPath (config s1) = InstallPath (config s) →
      InstalledVersions (config s1) = InstalledVersions (config s) →
      (powershell_runs E = true → Contains (user_PATH s1) shimDir = true) →
      wp (rest activateScript) s1 Q) →
  wp (r ← try (UpdateWindowsPath E shimDir);
      match r with
      | Err e => print ("Warning: Could not fully update PATH environment: " +:+ error_text e)
      | Ok _ => mret tt
      end ;;
      r ← try (CreateWindowsActivationScript E shimDir version);
      activateScript ←
        match r with
        | Err e => print ("Warning: " +:+ error_text e) ;; mret ""
        | Ok activateScript => mret activateScript
        end;
      set_active version ;;
      rest activateScript) s Q.
Proof.
  intros Hrest. apply wp_bind, wp_try, wp_UpdateWindowsPath. intros s1 Hc1 Hp1.
  apply wp_bind, wp_ret. unfold CreateWindowsActivationScript.
  apply wp_bind, wp_try, wp_bind, wp_wrap. unfold os_WriteFile, open_and_write.
  assert (∀ out s2, config s2 = config s1 → user_PATH s2 = user_PATH s1 →
            wp (set_active version ;; rest out) s2 Q) as Hset.
  { intros out s2 Hc2 Hp2. apply wp_bind, wp_set_active. apply Hrest; cbn.
    - done.
    - by rewrite Hc2, Hc1.
    - by rewrite Hc2, Hc1.
    - by rewrite Hp2. }
  apply wp_on_path.
  - intros _. apply wp_bind, wp_bind, wp_print, wp_ret. by apply Hset.
  - intros _ next _. apply wp_ret, wp_bind, wp_ret. by apply Hset.
  - intros _ e _. apply wp_bind, wp_bind, wp_print, wp_ret. by apply Hset.
Qed.

End WindowsUse.

(** X27. On Windows the outcome of an activation is the outcome of the
    shims: with a home directory, useVersionWindows returns what
    CreateWindowsShims returns for the shim directory
    <home>/.node-spark/shims, reading the binaries from the directory bin
    of the version unless os.Stat misses it.  A PATH that cannot be
    updated and an activation script that cannot be written do not make it
    fail.  When the shims were created, the version is the active one
    afterwards, the rest of the configuration is as before, and with
    PowerShell the PATH of the user holds the shim directory; when they
    were not, nothing further is done. *)
Theorem windows_activation_outcome E version versionPath homeDir s :
  let bin := Filepath.Join (windows E) [versionPath; "bin"] in
  let nodeBinPath :=
    if IsNotExist (stat (windows E) (fs s) (to_path E bin)) then versionPath else bin in
  let shimDir := Filepath.Join (windows E) [homeDir; ".node-spark"; "shims"] in
  let shims := CreateWindowsShims E nodeBinPath shimDir s in
  let after := useVersionWindows E version versionPath s in
  UserHomeDir E = Ok homeDir →
  after.1 = shims.1 ∧
  (shims.1 = Ok tt →
     ActiveVersion (config after.2) = version ∧
     InstallPath (config after.2) = InstallPath (config s) ∧
     InstalledVersions (config after.2) = InstalledVersions (config s) ∧
     (powershell_runs E = true → Contains (user_PATH after.2) shimDir = true)) ∧
  (shims.1 ≠ Ok tt → after.2 = shims.2).
Proof.
  intros bin nodeBinPath shimDir shims after Hhome.
  change (wp (useVersionWindows E version versionPath) s
            (λ r s', r = shims.1 ∧
               (shims.1 = Ok tt →
                  ActiveVersion (config s') = version ∧
                  InstallPath (config s') = InstallPath (config s) ∧
                  InstalledVersions (config s') = InstalledVersions (config s) ∧
                  (powershell_runs E = true → Contains (user_PATH s') shimDir = true)) ∧
               (shims.1 ≠ Ok tt → s' = shims.2))).
  unfold useVersionWindows. rewrite Hhome.
  apply wp_bind, wp_wrap, wp_lift. apply wp_bind, wp_os_Stat.
  rewrite decide_False.
  2: { apply Join_nonempty; [done|]. constructor; [|done]. by destruct (windows E). }
  fold bin nodeBinPath shimDir.
  pose proof (CreateWindowsShims_frame cfg_eq E nodeBinPath shimDir s) as Hcfg.
  unfold cfg_eq, on_config in Hcfg. fold shims in Hcfg.
  apply wp_bind. unfold wp at 1. fold shims.
  destruct shims as [[[]|e] s1]; cbn [fst snd] in *; [|done].
  apply wp_after_shims. intros activateScript s2 Ha Hp Hi Hpath.
  rewrite <- Hcfg in Hp, Hi.
  apply wp_bind.
  destruct (negb (IsProperArchForSystem E _));
    [apply wp_bind, wp_print, wp_print | apply wp_ret];
    by apply wp_bind, wp_print, wp_bind, wp_print, wp_print.
Qed.

Lemma windows_activation_outcome_witness :
  let after := useVersionWindows Desk.env "20.1.0" (Desk.home +:+ "\versions\20.1.0")
                 Desk.unpacked in
  after.1 = Ok tt ∧ ActiveVersion (config after.2) = "20.1.0".
Proof.
  pose proof (windows_activation_outcome Desk.env "20.1.0"
                (Desk.home +:+ "\versions\20.1.0") "\Users\u" Desk.unpacked eq_refl)
    as (Hsame & Hdone & _).
  split.
  - etransitivity; [exact Hsame|]. by vm_compute.
  - apply Hdone. by vm_compute.
Defined.
